(** * Platypus collision handler: a shallow embedding of [HandlerCollision.js]

    The development follows [src/components/HandlerCollision.js] (and, of
    [src/components/collision-group.js], the [getAllEntities] / [getSize]
    facade, [getCollisionTypes] and [appendUniqueItems]).

    Conventions of the embedding.
    - JavaScript numbers are exact rationals ([Q]); rounding and the sign of
      zero are not represented.  Wherever finite operands can produce [NaN]
      or an infinity (a division by zero, a square root of a negative
      number, the constant [Infinity]) the result has type [num].
    - Objects with identity (entities) are referred to by a [nat] identifier
      and live in a store; the mutable fields the handler writes are fields
      of the stored record.
    - A [TypeError] (reading a property of [null] / [undefined]) is an
      explicit outcome of the monad [M]; the state reached when the
      exception is raised is kept.
    - Object pooling ([setUp] / [recycle]) is not represented.
    - The classes [AABB], [Vector], [CollisionShape], [CollisionData],
      [CollisionDataContainer], [DataMap] and the component [CollisionBasic]
      are not among the sources; each definition standing for one of them
      says so. *)

From Stdlib Require Import QArith Qround Qabs Qminmax Lqa ZArith Lia List String Bool.
From stdpp Require Import gmap strings list sorting.

Open Scope Q_scope.

(** ** Numbers *)

Definition Qltb (a b : Q) : bool := negb (Qle_bool b a).
Definition Qgtb (a b : Q) : bool := Qltb b a.
Definition Qgeb (a b : Q) : bool := Qle_bool b a.
Definition Qneb (a b : Q) : bool := negb (Qeq_bool a b).

(** A JavaScript number that need not be finite. *)
Inductive num : Type :=
| NaN
| NInf
| Fin (q : Q)
| PInf.

Module Num.

Definition sign (q : Q) : Z := Z.sgn (Qnum q).

Definition neg (a : num) : num :=
  match a with
  | NaN => NaN
  | NInf => PInf
  | Fin q => Fin (- q)
  | PInf => NInf
  end.

Definition add (a b : num) : num :=
  match a, b with
  | NaN, _ | _, NaN => NaN
  | PInf, NInf | NInf, PInf => NaN
  | PInf, _ | _, PInf => PInf
  | NInf, _ | _, NInf => NInf
  | Fin p, Fin q => Fin (p + q)
  end.

Definition sub (a b : num) : num := add a (neg b).

(** An infinity scaled by a finite factor; a zero factor gives [NaN]. *)
Definition scaleInf (positive : bool) (q : Q) : num :=
  match sign q with
  | Z0 => NaN
  | Zpos _ => if positive then PInf else NInf
  | Zneg _ => if positive then NInf else PInf
  end.

Definition mul (a b : num) : num :=
  match a, b with
  | NaN, _ | _, NaN => NaN
  | PInf, PInf | NInf, NInf => PInf
  | PInf, NInf | NInf, PInf => NInf
  | PInf, Fin q | Fin q, PInf => scaleInf true q
  | NInf, Fin q | Fin q, NInf => scaleInf false q
  | Fin p, Fin q => Fin (p * q)
  end.

(** Division; the divisor zero is the positive zero. *)
Definition div (a b : num) : num :=
  match a, b with
  | NaN, _ | _, NaN => NaN
  | (PInf | NInf), (PInf | NInf) => NaN
  | Fin _, (PInf | NInf) => Fin 0
  | PInf, Fin q => if Qltb q 0 then NInf else PInf
  | NInf, Fin q => if Qltb q 0 then PInf else NInf
  | Fin p, Fin q =>
      if Qeq_bool q 0
      then match sign p with
           | Z0 => NaN
           | Zpos _ => PInf
           | Zneg _ => NInf
           end
      else Fin (p / q)
  end.

Definition abs (a : num) : num :=
  match a with
  | NaN => NaN
  | NInf | PInf => PInf
  | Fin q => Fin (Qabs q)
  end.

(** [a < b]; every comparison with [NaN] is false. *)
Definition ltb (a b : num) : bool :=
  match a, b with
  | NaN, _ | _, NaN => false
  | _, NInf => false
  | NInf, _ => true
  | PInf, _ => false
  | Fin _, PInf => true
  | Fin p, Fin q => Qltb p q
  end.

Definition gtb (a b : num) : bool := ltb b a.

Definition leb (a b : num) : bool :=
  match a, b with
  | NaN, _ | _, NaN => false
  | NInf, _ => true
  | _, PInf => true
  | _, NInf => false
  | PInf, _ => false
  | Fin p, Fin q => Qle_bool p q
  end.

Definition geb (a b : num) : bool := leb b a.

(** [Math.min] and [Math.max]: [NaN] if either argument is. *)
Definition min (a b : num) : num :=
  match a, b with
  | NaN, _ | _, NaN => NaN
  | _, _ => if ltb b a then b else a
  end.

Definition max (a b : num) : num :=
  match a, b with
  | NaN, _ | _, NaN => NaN
  | _, _ => if ltb a b then b else a
  end.

(** [Math.ceil]. *)
Definition ceil (a : num) : num :=
  match a with
  | Fin q => Fin (inject_Z (Qceiling q))
  | _ => a
  end.

(** [Math.sqrt], over the square root [rt] of non-negative rationals. *)
Definition sqrt (rt : Q -> Q) (a : num) : num :=
  match a with
  | NaN | NInf => NaN
  | PInf => PInf
  | Fin q => if Qltb q 0 then NaN else Fin (rt q)
  end.

(** Truthiness of a number: [0] and [NaN] are falsy. *)
Definition truthy (a : num) : bool :=
  match a with
  | NaN => false
  | Fin q => Qneb q 0
  | _ => true
  end.

End Num.

(** ** Geometry *)

(** Modelled from the spec: the class [platypus.AABB] is not among the
    sources.  An AABB has four bounds, half extents derived from them, and
    is empty until its first inclusion. *)
Module AABB.

Record t : Type := mk {
  empty : bool;
  left : Q;
  top : Q;
  right : Q;
  bottom : Q
}.

Definition width (a : t) : Q := right a - left a.
Definition height (a : t) : Q := bottom a - top a.
Definition halfWidth (a : t) : Q := width a / 2.
Definition halfHeight (a : t) : Q := height a / 2.

Definition setUp : t := mk true 0 0 0 0.

Definition setBounds (l tp r b : Q) : t := mk false l tp r b.

(** [this.set(aabb)] copies the argument. *)
Definition set (_ a : t) : t := a.

(** [this.include(aabb)]: the union; an empty box contributes nothing. *)
Definition include (this a : t) : t :=
  if empty this then a
  else if empty a then this
  else mk false (Qmin (left this) (left a)) (Qmin (top this) (top a))
                (Qmax (right this) (right a)) (Qmax (bottom this) (bottom a)).

(** The box of the same extents centred horizontally at [gx]. *)
Definition moveX (a : t) (gx : Q) : t :=
  mk (empty a) (gx - halfWidth a) (top a) (gx + halfWidth a) (bottom a).

Definition moveY (a : t) (gy : Q) : t :=
  mk (empty a) (left a) (gy - halfHeight a) (right a) (gy + halfHeight a).

(** Open-interval overlap of two boxes, the instance of [collides] used in
    the worked examples. *)
Definition overlaps (a b : t) : bool :=
  Qltb (left a) (right b) && Qltb (left b) (right a)
  && Qltb (top a) (bottom b) && Qltb (top b) (bottom a).

End AABB.

(** Modelled from the spec: the class [platypus.Vector] is not among the
    sources.  The inverse of a vector negates every component. *)
Module Vector.

Record t : Type := mk { x : num; y : num; z : num }.

Definition setXYZ (vx vy : num) : t := mk vx vy (Fin 0).

Definition getInverse (v : t) : t := mk (Num.neg (x v)) (Num.neg (y v)) (Num.neg (z v)).

Definition setX (v : t) (vx : num) : t := mk vx (y v) (z v).
Definition setY (v : t) (vy : num) : t := mk (x v) vy (z v).

End Vector.

Inductive ShapeType : Type := rectangle | circle.

Inductive Axis : Type := axisX | axisY.

(** Modelled from the spec: the class [platypus.CollisionShape] is not among
    the sources.  A shape is a rectangle or a circle with its centre, its
    radius, its cached AABB, the entity that owns it and its collision
    type; moving it keeps the cached AABB consistent. *)
Module Shape.

Record t : Type := mk {
  type : ShapeType;
  x : Q;
  y : Q;
  radius : Q;
  aABB : AABB.t;
  owner : option nat;
  collisionType : string
}.

Definition moveX (s : t) (gx : Q) : t :=
  mk (type s) gx (y s) (radius s) (AABB.moveX (aABB s) gx) (owner s) (collisionType s).

Definition moveY (s : t) (gy : Q) : t :=
  mk (type s) (x s) gy (radius s) (AABB.moveY (aABB s) gy) (owner s) (collisionType s).

(** [shape[axis]]. *)
Definition coord (a : Axis) (s : t) : Q :=
  match a with axisX => x s | axisY => y s end.

Definition move (a : Axis) (s : t) (g : Q) : t :=
  match a with axisX => moveX s g | axisY => moveY s g end.

(** A rectangle given by its centre and half extents. *)
Definition rect (cx cy hw hh : Q) (o : option nat) (ct : string) : t :=
  mk rectangle cx cy 0 (AABB.setBounds (cx - hw) (cy - hh) (cx + hw) (cy + hh)) o ct.

End Shape.

(** The operations of the absent classes that the handler calls and whose
    results the development leaves open: the narrow-phase tests
    [CollisionShape.collides] and [AABB.collides], [Vector.normalize], and
    the square root behind [Math.sqrt]. *)
Class Geometry : Type := {
  shapeCollides : Shape.t -> Shape.t -> bool;
  aabbCollides : AABB.t -> AABB.t -> bool;
  normalize : Vector.t -> Vector.t;
  sqrtQ : Q -> Q
}.

(** Modelled from the spec: the class [platypus.CollisionData] is not among
    the sources.  A collision record tells whether a collision occurred, its
    direction, the resolved position, the magnitude of the movement, the
    two shapes and the contact vector; a fresh record reports no
    collision. *)
Module CollisionData.

Record t : Type := mk {
  occurred : bool;
  direction : Q;
  position : Q;
  deltaMovement : Q;
  aABB : option AABB.t;
  thisShape : option Shape.t;
  thatShape : option Shape.t;
  vector : Vector.t;
  stuck : Q
}.

Definition setUp : t :=
  mk false 0 0 0 None None None (Vector.setXYZ (Fin 0) (Fin 0)) 0.

Definition set (_ : t) (occ : bool) (dir pos delta : Q) (box : AABB.t)
    (this that : Shape.t) (v : Vector.t) (st : Q) : t :=
  mk occ dir pos delta (Some box) (Some this) (Some that) v st.

End CollisionData.

(** ** The axis resolver: [findMinShapeMovementCollision] *)

Section AxisResolver.

Context {G : Geometry}.

(** The reusable [returnInfo] object. *)
Record ReturnInfo : Type := mkReturnInfo {
  ri_position : num;
  ri_contactVector : Vector.t
}.

Definition getMovementDistance (currentDistance minimumDistance : num) : num :=
  Num.sqrt sqrtQ
    (Num.sub (Num.mul minimumDistance minimumDistance)
             (Num.mul currentDistance currentDistance)).

Definition getCorner (circlePos rectanglePos half : num) : num :=
  let diff := Num.sub circlePos rectanglePos in
  Num.sub diff (Num.mul (Num.div diff (Num.abs diff)) half).

(** [movingIsCircle] stands for the test [moving === circle]. *)
Definition getOffsetForCircleVsAABBX (circ rect : Shape.t) (movingIsCircle : bool)
    (direction : Q) (v : Vector.t) : num * Vector.t :=
  let aabb := Shape.aABB rect in
  let hw := AABB.halfWidth aabb in
  let x := Shape.x circ in
  let y := Shape.y circ in
  if Qgeb y (AABB.top aabb) && Qle_bool y (AABB.bottom aabb)
  then (Fin (hw + Shape.radius circ), v)
  else
    let y' := getCorner (Fin y) (Fin (Shape.y rect)) (Fin (AABB.halfHeight aabb)) in
    let newAxisPosition :=
      Num.add (Fin hw) (getMovementDistance y' (Fin (Shape.radius circ))) in
    let '(vx, y'') :=
      if movingIsCircle
      then (Num.div (Num.neg (getCorner
              (Num.sub (Fin x) (Num.mul (Fin direction) newAxisPosition))
              (Fin (Shape.x rect)) (Fin hw))) (Fin 2),
            Num.neg y')
      else (Num.div (getCorner (Fin x)
              (Num.sub (Fin (Shape.x rect)) (Num.mul (Fin direction) newAxisPosition))
              (Fin hw)) (Fin 2),
            y') in
    (newAxisPosition, normalize (Vector.setY (Vector.setX v vx) y'')).

Definition getOffsetForCircleVsAABBY (circ rect : Shape.t) (movingIsCircle : bool)
    (direction : Q) (v : Vector.t) : num * Vector.t :=
  let aabb := Shape.aABB rect in
  let hh := AABB.halfHeight aabb in
  let x := Shape.x circ in
  let y := Shape.y circ in
  if Qgeb x (AABB.left aabb) && Qle_bool x (AABB.right aabb)
  then (Fin (hh + Shape.radius circ), v)
  else
    let x' := getCorner (Fin x) (Fin (Shape.x rect)) (Fin (AABB.halfWidth aabb)) in
    let newAxisPosition :=
      Num.add (Fin hh) (getMovementDistance x' (Fin (Shape.radius circ))) in
    let '(x'', vy) :=
      if movingIsCircle
      then (Num.neg x',
            Num.div (Num.neg (getCorner
              (Num.sub (Fin y) (Num.mul (Fin direction) newAxisPosition))
              (Fin (Shape.y rect)) (Fin hh))) (Fin 2))
      else (x',
            Num.div (getCorner (Fin y)
              (Num.sub (Fin (Shape.y rect)) (Num.mul (Fin direction) newAxisPosition))
              (Fin hh)) (Fin 2)) in
    (newAxisPosition, normalize (Vector.setX (Vector.setY v vy) x'')).

(** The decision tree [findAxisCollisionPosition[axis][thisType][thatType]]. *)
Definition findAxisCollisionPosition (axis : Axis) (thisType thatType : ShapeType)
    (direction : Q) (thisShape thatShape : Shape.t) : ReturnInfo :=
  match axis, thisType, thatType with
  | axisX, rectangle, rectangle =>
      mkReturnInfo
        (Fin (Shape.x thatShape
              - direction * (AABB.halfWidth (Shape.aABB thatShape)
                             + AABB.halfWidth (Shape.aABB thisShape))))
        (Vector.setXYZ (Fin direction) (Fin 0))
  | axisX, rectangle, circle =>
      let '(off, v) := getOffsetForCircleVsAABBX thatShape thisShape false direction
                         (Vector.setXYZ (Fin direction) (Fin 0)) in
      mkReturnInfo (Num.sub (Fin (Shape.x thatShape)) (Num.mul (Fin direction) off)) v
  | axisX, circle, rectangle =>
      let '(off, v) := getOffsetForCircleVsAABBX thisShape thatShape true direction
                         (Vector.setXYZ (Fin direction) (Fin 0)) in
      mkReturnInfo (Num.sub (Fin (Shape.x thatShape)) (Num.mul (Fin direction) off)) v
  | axisX, circle, circle =>
      let y := Fin (Shape.y thatShape - Shape.y thisShape) in
      let position :=
        Num.sub (Fin (Shape.x thatShape))
          (Num.mul (Fin direction)
             (getMovementDistance y (Fin (Shape.radius thisShape + Shape.radius thatShape)))) in
      mkReturnInfo position
        (normalize (Vector.setXYZ (Num.sub (Fin (Shape.x thatShape)) position) y))
  | axisY, rectangle, rectangle =>
      mkReturnInfo
        (Fin (Shape.y thatShape
              - direction * (AABB.halfHeight (Shape.aABB thatShape)
                             + AABB.halfHeight (Shape.aABB thisShape))))
        (Vector.setXYZ (Fin 0) (Fin direction))
  | axisY, rectangle, circle =>
      let '(off, v) := getOffsetForCircleVsAABBY thatShape thisShape false direction
                         (Vector.setXYZ (Fin 0) (Fin direction)) in
      mkReturnInfo (Num.sub (Fin (Shape.y thatShape)) (Num.mul (Fin direction) off)) v
  | axisY, circle, rectangle =>
      let '(off, v) := getOffsetForCircleVsAABBY thisShape thatShape true direction
                         (Vector.setXYZ (Fin 0) (Fin direction)) in
      mkReturnInfo (Num.sub (Fin (Shape.y thatShape)) (Num.mul (Fin direction) off)) v
  | axisY, circle, circle =>
      let x := Fin (Shape.x thatShape - Shape.x thisShape) in
      let position :=
        Num.sub (Fin (Shape.y thatShape))
          (Num.mul (Fin direction)
             (getMovementDistance x (Fin (Shape.radius thisShape + Shape.radius thatShape)))) in
      mkReturnInfo position
        (normalize (Vector.setXYZ x (Num.sub (Fin (Shape.y thatShape)) position)))
  end.

(** The finite value of a number known to lie between two finite ones. *)
Definition finite (a : num) (default : Q) : Q :=
  match a with Fin q => q | _ => default end.

(** One turn of the loop over the potential colliding shapes; the loop
    carries [finalPosition] and the record [cd]. *)
Definition shapeStep (axis : Axis) (initialPoint : Q) (direction : Q)
    (translatedShape currentShape : Shape.t)
    (acc : Q * CollisionData.t) (pcShape : Shape.t) : Q * CollisionData.t :=
  let '(finalPosition, cd) := acc in
  if shapeCollides translatedShape pcShape then
    let collisionInfo :=
      findAxisCollisionPosition axis (Shape.type translatedShape) (Shape.type pcShape)
        direction translatedShape pcShape in
    let position := ri_position collisionInfo in
    if Qgtb direction 0 then
      if Num.ltb position (Fin finalPosition) then
        let position' :=
          if Num.ltb position (Fin initialPoint) then initialPoint
          else finite position initialPoint in
        (position',
         CollisionData.set cd true direction position' (Qabs (position' - initialPoint))
           (Shape.aABB pcShape) currentShape pcShape (ri_contactVector collisionInfo) 0)
      else acc
    else if Num.gtb position (Fin finalPosition) then
      let position' :=
        if Num.gtb position (Fin initialPoint) then initialPoint
        else finite position initialPoint in
      (position',
       CollisionData.set cd true direction position' (Qabs (position' - initialPoint))
         (Shape.aABB pcShape) currentShape pcShape (ri_contactVector collisionInfo) 0)
    else acc
  else acc.

(** [findMinShapeMovementCollision(prevShape, currentShape, axis,
    potentialCollidingShapes)].  The loop [while (i--)] visits the shapes
    from the last to the first.  The result is the record together with
    [prevShape] as the call leaves it (it is moved in place). *)
Definition findMinShapeMovementCollision (prevShape currentShape : Shape.t) (axis : Axis)
    (potentialCollidingShapes : list Shape.t) : CollisionData.t * Shape.t :=
  let initialPoint := Shape.coord axis prevShape in
  let goalPoint := Shape.coord axis currentShape in
  let direction := if Qltb initialPoint goalPoint then 1 else -1 in
  if Qneb initialPoint goalPoint then
    let translatedShape := Shape.move axis prevShape goalPoint in
    let '(_, cd) :=
      fold_left (shapeStep axis initialPoint direction translatedShape currentShape)
        (rev potentialCollidingShapes) (goalPoint, CollisionData.setUp) in
    (cd, translatedShape)
  else (CollisionData.setUp, prevShape).

End AxisResolver.


(** ** Entities, messages and the world *)

(** Modelled from the spec: [AABB.equals] is not among the sources.  Two
    boxes are equal when neither is empty and their four bounds agree. *)
Definition AABB_equals (a b : AABB.t) : bool :=
  negb (AABB.empty a) && negb (AABB.empty b)
  && Qeq_bool (AABB.left a) (AABB.left b) && Qeq_bool (AABB.top a) (AABB.top b)
  && Qeq_bool (AABB.right a) (AABB.right b) && Qeq_bool (AABB.bottom a) (AABB.bottom b).

(** The facade [collisionGroup] of [collision-group.js]: the list
    [solidEntities] of the group.  A member is the owner of the group
    itself, an entity without a group of its own, or an entity that owns a
    nested group. *)
Inductive Group : Type :=
| MkGroup (solidEntities : list GroupMember)
with GroupMember : Type :=
| Self
| Plain (e : nat)
| Nested (e : nat) (g : Group).

Definition solidEntities (g : Group) : list GroupMember :=
  match g with MkGroup l => l end.

(** [collisionGroup.getAllEntities()]: members are counted through nested
    groups. *)
Fixpoint getAllEntities (g : Group) : nat :=
  match g with
  | MkGroup l =>
      (fix count (l : list GroupMember) : nat :=
         match l with
         | [] => 0
         | Nested _ g' :: l' => getAllEntities g' + count l'
         | _ :: l' => 1 + count l'
         end) l
  end%nat.

(** [collisionGroup.getSize()]. *)
Definition getSize (g : Group) : nat := length (solidEntities g).

(** Modelled from the spec: the component [CollisionBasic], which gives an
    entity its collision types, its per-type shapes and boxes and its
    collision maps, is not among the sources.  [aabb] is [getAABB()],
    [typeAABB], [previousAABB], [shapes] and [prevShapes] are
    [getAABB(type)], [getPreviousAABB(type)], [getShapes(type)] and
    [getPrevShapes(type)].  [againstGrid] lists the keys of the grid cells
    whose [DataMap] the entity holds; it and [againstAABB] are [None] while
    the entity is not registered with the handler. *)
Module Entity.

Record t : Type := mk {
  x : Q;
  y : Q;
  previousX : Q;
  previousY : Q;
  immobile : bool;
  bullet : bool;
  jumpThrough : bool;
  collisionTypes : option (list string);
  solidCollisionMap : gmap string (list string);
  softCollisionMap : gmap string (list string);
  aabb : AABB.t;
  typeAABB : gmap string AABB.t;
  previousAABB : gmap string AABB.t;
  shapes : gmap string (list Shape.t);
  prevShapes : gmap string (list Shape.t);
  againstGrid : option (list Z);
  againstAABB : option AABB.t;
  collisionGroup : option Group
}.

Definition setAgainstGrid (v : option (list Z)) (e : t) : t :=
  mk (x e) (y e) (previousX e) (previousY e) (immobile e) (bullet e) (jumpThrough e)
     (collisionTypes e) (solidCollisionMap e) (softCollisionMap e) (aabb e) (typeAABB e)
     (previousAABB e) (shapes e) (prevShapes e) v (againstAABB e) (collisionGroup e).

Definition setAgainstAABB (v : option AABB.t) (e : t) : t :=
  mk (x e) (y e) (previousX e) (previousY e) (immobile e) (bullet e) (jumpThrough e)
     (collisionTypes e) (solidCollisionMap e) (softCollisionMap e) (aabb e) (typeAABB e)
     (previousAABB e) (shapes e) (prevShapes e) (againstGrid e) v (collisionGroup e).

Definition setPrevShapes (v : gmap string (list Shape.t)) (e : t) : t :=
  mk (x e) (y e) (previousX e) (previousY e) (immobile e) (bullet e) (jumpThrough e)
     (collisionTypes e) (solidCollisionMap e) (softCollisionMap e) (aabb e) (typeAABB e)
     (previousAABB e) (shapes e) v (againstGrid e) (againstAABB e) (collisionGroup e).

(** [entity.getAABB(type)] and [entity.getShapes(type)]. *)
Definition getAABB (e : t) (type : string) : AABB.t := default AABB.setUp (typeAABB e !! type).
Definition getPreviousAABB (e : t) (type : string) : AABB.t :=
  default AABB.setUp (previousAABB e !! type).
Definition getShapes (e : t) (type : string) : list Shape.t := default [] (shapes e !! type).
Definition getPrevShapes (e : t) (type : string) : list Shape.t :=
  default [] (prevShapes e !! type).

End Entity.

(** The reusable object [triggerMessage] and the messages delivered with
    the events ['hit-by-*']. *)
Module Message.

Record t : Type := mk {
  entity : option nat;
  type : option string;
  x : Q;
  y : Q;
  hitType : option string;
  myType : option string;
  direction : option Vector.t;
  shape : option Shape.t
}.

Definition initial : t := mk None None 0 0 None None None None.

Definition setXY (vx vy : Q) (m : t) : t :=
  mk (entity m) (type m) vx vy (hitType m) (myType m) (direction m) (shape m).

End Message.

(** A call [entity.triggerEvent(name, message)]: the target, the name of the
    event and the content of the message at the time of the call. *)
Record Event : Type := mkEvent {
  ev_target : nat;
  ev_name : string;
  ev_message : Message.t
}.

(** The state the handler works on: its own fields, the entities, the
    shared [triggerMessage], and the events triggered so far.  The
    subscribers of the events are outside the handler. *)
Record World : Type := mkWorld {
  gridBits : Z;
  againstGrid : gmap Z (gmap string (list nat));
  entities : gmap nat Entity.t;
  owner : nat;
  terrain : option (AABB.t -> AABB.t -> string -> list Shape.t);
  allEntitiesLive : list nat;
  solidEntitiesLive : list nat;
  softEntitiesLive : list nat;
  nonColliders : list nat;
  groupsLive : list nat;
  triggerMessage : Message.t;
  events : list Event
}.

Definition setGrid (g : gmap Z (gmap string (list nat))) (w : World) : World :=
  mkWorld (gridBits w) g (entities w) (owner w) (terrain w) (allEntitiesLive w)
    (solidEntitiesLive w) (softEntitiesLive w) (nonColliders w) (groupsLive w)
    (triggerMessage w) (events w).

Definition setEntities (s : gmap nat Entity.t) (w : World) : World :=
  mkWorld (gridBits w) (againstGrid w) s (owner w) (terrain w) (allEntitiesLive w)
    (solidEntitiesLive w) (softEntitiesLive w) (nonColliders w) (groupsLive w)
    (triggerMessage w) (events w).

Definition setTriggerMessage (m : Message.t) (w : World) : World :=
  mkWorld (gridBits w) (againstGrid w) (entities w) (owner w) (terrain w) (allEntitiesLive w)
    (solidEntitiesLive w) (softEntitiesLive w) (nonColliders w) (groupsLive w)
    m (events w).

Definition setEvents (l : list Event) (w : World) : World :=
  mkWorld (gridBits w) (againstGrid w) (entities w) (owner w) (terrain w) (allEntitiesLive w)
    (solidEntitiesLive w) (softEntitiesLive w) (nonColliders w) (groupsLive w)
    (triggerMessage w) l.

Definition setLive (allLive solids softs nons groups : list nat) (w : World) : World :=
  mkWorld (gridBits w) (againstGrid w) (entities w) (owner w) (terrain w) allLive
    solids softs nons groups (triggerMessage w) (events w).

(** ** The monad of the handler: state, and [TypeError] as an outcome *)

Inductive Outcome (A : Type) : Type :=
| Ok (a : A) (w : World)
| Throw (w : World).

Arguments Ok {A} a w.
Arguments Throw {A} w.

Definition M (A : Type) : Type := World -> Outcome A.

Definition ret {A : Type} (a : A) : M A := fun w => Ok a w.

Definition bind {A B : Type} (m : M A) (k : A -> M B) : M B :=
  fun w => match m w with
           | Ok a w' => k a w'
           | Throw w' => Throw w'
           end.

Definition throw {A : Type} : M A := fun w => Throw w.

Definition get : M World := fun w => Ok w w.

Definition modify (f : World -> World) : M unit := fun w => Ok tt (f w).

Declare Scope handler_scope.
Delimit Scope handler_scope with handler.

Notation "x <- m ;; k" := (bind m (fun x => k))
  (at level 100, m at next level, right associativity) : handler_scope.
Notation "m ;; k" := (bind m (fun _ => k))
  (at level 100, right associativity) : handler_scope.

Open Scope handler_scope.

(** The world an action leaves, whether it returns or throws. *)
Definition after {A : Type} (m : M A) (w : World) : World :=
  match m w with
  | Ok _ w' => w'
  | Throw w' => w'
  end.

(** Reading a property of a value that may be [null] or [undefined]. *)
Definition unwrap {A : Type} (o : option A) : M A :=
  match o with
  | Some a => ret a
  | None => throw
  end.

(** A loop whose turns are the elements of [l] in order, threading the
    local variables [s]. *)
Fixpoint foldM {A S : Type} (f : A -> S -> M S) (l : list A) (s : S) : M S :=
  match l with
  | [] => ret s
  | a :: l' => s' <- f a s ;; foldM f l' s'
  end.

Definition forEach {A : Type} (l : list A) (f : A -> M unit) : M unit :=
  foldM (fun a _ => f a) l tt.

(** [i = l.length; while (i--) { ... l[i] ... }]: from the last element to
    the first. *)
Definition whileDown {A : Type} (l : list A) (f : A -> M unit) : M unit :=
  forEach (rev l) f.

(** The integers [lo, lo + 1, ..., hi] of [for (x = lo; x <= hi; x++)]. *)
Definition upTo (lo hi : Z) : list Z :=
  map (fun i => (lo + Z.of_nat i)%Z) (seq 0 (Z.to_nat (hi - lo + 1))).

(** The entity an identifier refers to. *)
Definition getEntity (e : nat) : M Entity.t :=
  w <- get ;; unwrap (entities w !! e).

Definition updateEntity (e : nat) (f : Entity.t -> Entity.t) : M unit :=
  modify (fun w => setEntities (alter f e (entities w)) w).

(** [entity.triggerEvent(name, message)]. *)
Definition triggerEvent (target : nat) (name : string) (message : Message.t) : M unit :=
  modify (fun w => setEvents (events w ++ [mkEvent target name message]) w).

(** ** The spatial grid *)

(** [ToInt32]: truncation towards zero, then wrap-around to 32 signed bits. *)
Definition wrap32 (z : Z) : Z := ((z + 2 ^ 31) mod 2 ^ 32 - 2 ^ 31)%Z.

Definition truncate (q : Q) : Z := (Qnum q ÷ Zpos (Qden q))%Z.

Definition toInt32 (q : Q) : Z := wrap32 (truncate q).

(** [a >> b] for a number [a] and an integer [b]: the shift count is
    [b & 31]. *)
Definition shiftRight (a : Q) (b : Z) : Z := Z.shiftr (toInt32 a) (b mod 32).

(** The box [mapDown] builds has integer bounds; it is kept as such, and
    [Cells.toAABB] is the [AABB] it stands for. *)
Module Cells.

Record t : Type := mk { left : Z; top : Z; right : Z; bottom : Z }.

Definition toAABB (c : t) : AABB.t :=
  AABB.setBounds (inject_Z (left c)) (inject_Z (top c))
                 (inject_Z (right c)) (inject_Z (bottom c)).

End Cells.

Definition mapDown (gb : Z) (aabb2 : AABB.t) : Cells.t :=
  Cells.mk (shiftRight (AABB.left aabb2) gb) (shiftRight (AABB.top aabb2) gb)
           (shiftRight (AABB.right aabb2) gb) (shiftRight (AABB.bottom aabb2) gb).

(** [((y << 16) ^ x) >>> 0]. *)
Definition cellKey (x y : Z) : Z :=
  (Z.lxor (wrap32 (wrap32 y * 2 ^ 16)) (wrap32 x) mod 2 ^ 32)%Z.

(** The cells [for (x = left; x <= right; x++) for (y = top; y <= bottom;
    y++)] visits, in order. *)
Definition cellsOf (c : Cells.t) : list (Z * Z) :=
  x ← upTo (Cells.left c) (Cells.right c);
  y ← upTo (Cells.top c) (Cells.bottom c);
  [(x, y)].

(** Modelled from the spec: [Array.prototype.greenSplice] is not among the
    sources; [arr.greenSplice(arr.indexOf(e))] takes the first occurrence
    of [e] out of [arr]. *)
Fixpoint removeFirst (e : nat) (arr : list nat) : list nat :=
  match arr with
  | [] => []
  | a :: arr' => if Nat.eqb a e then arr' else a :: removeFirst e arr'
  end.

(** Modelled from the spec: [Array.prototype.union] is not among the
    sources; [tList.union(arr)] appends the elements of [arr] that [tList]
    does not hold yet. *)
Definition union (tList arr : list nat) : list nat :=
  fold_left (fun acc a => if existsb (Nat.eqb a) acc then acc else acc ++ [a]) arr tList.

(** The body of [while (j--)] in [removeAgainst]. *)
Definition removeFromCell (e : nat) (key : Z) (type : string) : M unit :=
  w <- get ;;
  lst <- unwrap (againstGrid w !! key) ;;
  match lst !! type with
  | Some arr =>
      if existsb (Nat.eqb e) arr
      then modify (setGrid (<[key := <[type := removeFirst e arr]> lst]> (againstGrid w)))
      else ret tt
  | None => ret tt
  end.

Definition removeAgainst (e : nat) : M unit :=
  ent <- getEntity e ;;
  ag <- unwrap (Entity.againstGrid ent) ;;
  types <- unwrap (Entity.collisionTypes ent) ;;
  whileDown ag (fun key => whileDown types (removeFromCell e key)) ;;
  updateEntity e (Entity.setAgainstGrid (Some [])).

(** [arr = list.get(type); if (!arr) arr = list.set(type, Array.setUp());
    arr.push(entity)] on the cell [id]. *)
Definition pushEntity (e : nat) (id : Z) (type : string) : M unit :=
  modify (fun w =>
    setGrid (alter (fun lst => <[type := default [] (lst !! type) ++ [e]]> lst)
               id (againstGrid w)) w).

(** The body of the inner [for] loop of [updateAgainst]. *)
Definition insertIntoCell (e : nat) (types : list string) (cell : Z * Z) : M unit :=
  let id := cellKey (fst cell) (snd cell) in
  modify (fun w =>
    match againstGrid w !! id with
    | Some _ => w
    | None => setGrid (<[id := ∅]> (againstGrid w)) w
    end) ;;
  whileDown types (pushEntity e id) ;;
  updateEntity e (fun ent =>
    Entity.setAgainstGrid (option_map (fun ag => ag ++ [id]) (Entity.againstGrid ent)) ent).

Definition updateAgainst (e : nat) : M unit :=
  ent <- getEntity e ;;
  w <- get ;;
  let aabb := mapDown (gridBits w) (Entity.aabb ent) in
  againstAABB <- unwrap (Entity.againstAABB ent) ;;
  if negb (AABB_equals (Cells.toAABB aabb) againstAABB) then
    updateEntity e (Entity.setAgainstAABB (Some (AABB.set againstAABB (Cells.toAABB aabb)))) ;;
    removeAgainst e ;;
    types <- unwrap (Entity.collisionTypes ent) ;;
    forEach (cellsOf aabb) (insertIntoCell e types)
  else ret tt.

(** [addCollisionEntity] for an entity other than the terrain. *)
Definition addCollisionEntity (e : nat) : M unit :=
  ent <- getEntity e ;;
  match Entity.collisionTypes ent with
  | Some _ =>
      updateEntity e (fun ent =>
        Entity.setAgainstAABB (Some AABB.setUp) (Entity.setAgainstGrid (Some []) ent)) ;;
      updateAgainst e
  | None => ret tt
  end.

Definition removeCollisionEntity (e : nat) : M unit :=
  ent <- getEntity e ;;
  match Entity.againstGrid ent with
  | Some _ =>
      removeAgainst e ;;
      updateEntity e (fun ent => Entity.setAgainstAABB None (Entity.setAgainstGrid None ent))
  | None => ret tt
  end.

(** The body of [while (i--)] over the requested types, for one cell. *)
Definition collectType (lst : gmap string (list nat)) (data : gmap string (list nat))
    (type : string) : gmap string (list nat) :=
  match lst !! type with
  | Some (a :: arr) =>
      match data !! type with
      | None => <[type := a :: arr]> data
      | Some tList => <[type := union tList (a :: arr)]> data
      end
  | _ => data
  end.

Definition collectCell (types : list string) (lst : gmap string (list nat))
    (data : gmap string (list nat)) : gmap string (list nat) :=
  fold_left (collectType lst) (rev types) data.

Definition getEntityAgainstGrid (e : nat) (types : list string)
    : M (gmap string (list nat)) :=
  ent <- getEntity e ;;
  ag <- unwrap (Entity.againstGrid ent) ;;
  w <- get ;;
  foldM (fun key data =>
           lst <- unwrap (againstGrid w !! key) ;;
           ret (collectCell types lst data))
        (rev ag) ∅.

Definition getAgainstGrid (e : nat) (sweep : AABB.t) (types : list string)
    : M (gmap string (list nat)) :=
  ent <- getEntity e ;;
  w <- get ;;
  let aabb := mapDown (gridBits w) sweep in
  againstAABB <- unwrap (Entity.againstAABB ent) ;;
  if AABB_equals sweep againstAABB then getEntityAgainstGrid e types
  else
    ret (fold_left
           (fun data cell =>
              match againstGrid w !! cellKey (fst cell) (snd cell) with
              | Some lst => collectCell types lst data
              | None => data
              end)
           (cellsOf aabb) ∅).

(** ** Collision events *)

Definition setMessage (f : Message.t -> Message.t) : M unit :=
  modify (fun w => setTriggerMessage (f (triggerMessage w)) w).

Definition getMessage : M Message.t := w <- get ;; ret (triggerMessage w).

(** ['hit-by-' + type]. *)
Definition hitBy (type : option string) : string :=
  "hit-by-" ++ default "null" type.

(** [triggerCollisionMessages], the helper of [checkSolidCollisions]; the
    helper of [checkGroupCollisions] has the same text.  [entity] and
    [otherEntity] are the owners of the two shapes, which may be
    undefined. *)
Definition triggerCollisionMessages (entity otherEntity : option nat)
    (thisType thatType : string) (x y : Q) (hitType : string) (vector : Vector.t) : M unit :=
  setMessage (fun msg =>
    Message.mk otherEntity (Some thatType) x y (Some hitType) (Some thisType)
      (Some vector) (Message.shape msg)) ;;
  target <- unwrap entity ;;
  msg <- getMessage ;;
  triggerEvent target (hitBy (Some thatType)) msg ;;
  match otherEntity with
  | Some other =>
      setMessage (fun msg =>
        Message.mk entity (Some thisType) (- x) (- y) (Some hitType) (Some thatType)
          (Some (Vector.getInverse vector)) (Message.shape msg)) ;;
      msg <- getMessage ;;
      triggerEvent other (hitBy (Some thisType)) msg
  | None => ret tt
  end.

(** The calls of [triggerCollisionMessages] for a record of [xData] and for
    a record of [yData]. *)
Definition triggerX (messageData : CollisionData.t) : M unit :=
  thisShape <- unwrap (CollisionData.thisShape messageData) ;;
  thatShape <- unwrap (CollisionData.thatShape messageData) ;;
  triggerCollisionMessages (Shape.owner thisShape) (Shape.owner thatShape)
    (Shape.collisionType thisShape) (Shape.collisionType thatShape)
    (CollisionData.direction messageData) 0 "solid" (CollisionData.vector messageData).

Definition triggerY (messageData : CollisionData.t) : M unit :=
  thisShape <- unwrap (CollisionData.thisShape messageData) ;;
  thatShape <- unwrap (CollisionData.thatShape messageData) ;;
  triggerCollisionMessages (Shape.owner thisShape) (Shape.owner thatShape)
    (Shape.collisionType thisShape) (Shape.collisionType thatShape)
    0 (CollisionData.direction messageData) "solid" (CollisionData.vector messageData).

(** ** Soft collisions *)

Section Soft.

Context {G : Geometry}.

(** The first pair [shapes[l]], [otherShapes[m]] that collides, both lists
    being visited from the last element to the first; the result is
    [otherShapes[m]]. *)
Definition firstHit (shapes otherShapes : list Shape.t) : option Shape.t :=
  fold_left
    (fun found s =>
       match found with
       | Some _ => found
       | None => find (shapeCollides s) (rev otherShapes)
       end)
    (rev shapes) None.

(** The body of [while (k--)] in [checkEntityForSoftCollisions]. *)
Definition softCheckEntity {S : Type} (e : nat) (callback : Message.t -> S -> M S)
    (collisionType otherCollisionType : string) (otherEntity : nat) (s : S) : M S :=
  ent <- getEntity e ;;
  other <- getEntity otherEntity ;;
  if negb (Nat.eqb otherEntity e)
     && aabbCollides (Entity.getAABB ent collisionType)
                     (Entity.getAABB other otherCollisionType)
  then
    match firstHit (Entity.getShapes ent collisionType)
                   (Entity.getShapes other otherCollisionType) with
    | Some shape =>
        setMessage (fun message =>
          Message.mk (Some otherEntity) (Some otherCollisionType)
            (Message.x message) (Message.y message) (Some "soft"%string)
            (Some collisionType) (Message.direction message) (Some shape)) ;;
        message <- getMessage ;;
        callback message s
    | None => ret s
    end
  else ret s.

(** [checkEntityForSoftCollisions(ent, callback)]; [s] stands for the
    variables the callback closes over. *)
Definition checkEntityForSoftCollisions {S : Type} (e : nat)
    (callback : Message.t -> S -> M S) (s : S) : M S :=
  ent <- getEntity e ;;
  types <- unwrap (Entity.collisionTypes ent) ;;
  setMessage (Message.setXY 0 0) ;;
  foldM (fun collisionType s =>
           ent <- getEntity e ;;
           softCollisionMap <- unwrap (Entity.softCollisionMap ent !! collisionType) ;;
           againstGrid <- getEntityAgainstGrid e softCollisionMap ;;
           foldM (fun otherCollisionType s =>
                    match againstGrid !! otherCollisionType with
                    | Some otherEntities =>
                        foldM (softCheckEntity e callback collisionType otherCollisionType)
                              (rev otherEntities) s
                    | None => ret s
                    end)
                 (rev softCollisionMap) s)
        (rev types) s.

(** The callback of [checkSoftCollisions], bound to the entity. *)
Definition softTrigger (e : nat) (collision : Message.t) (_ : unit) : M unit :=
  triggerEvent e (hitBy (Message.type collision)) collision.

Definition checkSoftCollisions : M unit :=
  w <- get ;;
  whileDown (softEntitiesLive w) (fun entity =>
    checkEntityForSoftCollisions entity (softTrigger entity) tt).

(** The public method [getEntityCollisions]: the callback pushes a copy of
    the message on the array it returns. *)
Definition getEntityCollisions (e : nat) : M (list Message.t) :=
  checkEntityForSoftCollisions e (fun collision collisions => ret (collisions ++ [collision])) [].

End Soft.

(** ** Solid resolution *)

(** Modelled from the spec: the class [platypus.CollisionDataContainer] is
    not among the sources.  It keeps, for each axis, the records of the
    smallest movement seen so far: a record with a smaller movement
    replaces them, a record with the same movement joins them, a record
    with a larger movement is refused. *)
Module CollisionDataContainer.

Record t : Type := mk {
  xData : list CollisionData.t;
  yData : list CollisionData.t
}.

Definition setUp : t := mk [] [].

Definition tryToAdd (data : list CollisionData.t) (cd : CollisionData.t)
    : option (list CollisionData.t) :=
  match data with
  | [] => Some [cd]
  | best :: _ =>
      if Qltb (CollisionData.deltaMovement cd) (CollisionData.deltaMovement best)
      then Some [cd]
      else if Qeq_bool (CollisionData.deltaMovement cd) (CollisionData.deltaMovement best)
      then Some (data ++ [cd])
      else None
  end.

Definition tryToAddX (c : t) (cd : CollisionData.t) : bool * t :=
  match tryToAdd (xData c) cd with
  | Some data => (true, mk data (yData c))
  | None => (false, c)
  end.

Definition tryToAddY (c : t) (cd : CollisionData.t) : bool * t :=
  match tryToAdd (yData c) cd with
  | Some data => (true, mk (xData c) data)
  | None => (false, c)
  end.

End CollisionDataContainer.

(** What the handler asks of [entityOrGroup], which is either the entity
    with the methods of [CollisionBasic] or its [collisionGroup] facade.
    The readers depend on the world; [getSolidCollisions] gives what
    [getSolidCollisions().get(type)] evaluates to; [getSolidEntities] is
    absent for a plain entity.  The shapes [getPrevShapes(type)] lists are
    objects that the resolver moves in place: [setPrevShape type i s] is
    the world in which the object [getPrevShapes(type)[i]] has become
    [s]. *)
Record Collidable : Type := mkCollidable {
  getCollisionTypes : World -> list string;
  getSolidCollisions : World -> string -> option (list string);
  getAABB : World -> string -> AABB.t;
  getPreviousAABB : World -> string -> AABB.t;
  getShapes : World -> string -> list Shape.t;
  getPrevShapes : World -> string -> list Shape.t;
  setPrevShape : string -> nat -> Shape.t -> World -> World;
  getSolidEntities : option (World -> list nat);
  prepareCollision : Q -> Q -> World -> World;
  movePreviousX : Q -> World -> World;
  relocateEntity : Q * Q -> CollisionDataContainer.t -> World -> World
}.

(** The readers of [CollisionBasic] for the entity [e], over given
    mutators; the previous shapes of a type are the objects of the list
    the entity keeps for it. *)
Definition basicView (e : nat) (prepare : Q -> Q -> World -> World)
    (movePrevious : Q -> World -> World)
    (relocate : Q * Q -> CollisionDataContainer.t -> World -> World) : Collidable :=
  let read {A : Type} (f : Entity.t -> A) (d : A) (w : World) : A :=
    match entities w !! e with Some ent => f ent | None => d end in
  mkCollidable
    (read (fun ent => default [] (Entity.collisionTypes ent)) [])
    (fun w type => read (fun ent => Entity.solidCollisionMap ent !! type) None w)
    (fun w type => read (fun ent => Entity.getAABB ent type) AABB.setUp w)
    (fun w type => read (fun ent => Entity.getPreviousAABB ent type) AABB.setUp w)
    (fun w type => read (fun ent => Entity.getShapes ent type) [] w)
    (fun w type => read (fun ent => Entity.getPrevShapes ent type) [] w)
    (fun type i s w =>
       setEntities
         (alter (fun ent =>
                   Entity.setPrevShapes
                     (alter (fun l => <[i := s]> l) type (Entity.prevShapes ent)) ent)
                e (entities w)) w)
    None prepare movePrevious relocate.

Section Resolution.

Context {G : Geometry}.

(** [includeEntity]: the special cases that are not checked against, then
    the sweep test. *)
Definition includeEntity (thisEntity : nat) (this : Entity.t) (aabb : AABB.t)
    (otherEntity : nat) (other : Entity.t) (otherAABB : AABB.t)
    (ignoredEntities : option (list nat)) (sweepAABB : AABB.t) : bool :=
  if Nat.eqb otherEntity thisEntity then false
  else if Entity.jumpThrough other && Qgtb (AABB.bottom aabb) (AABB.top otherAABB) then false
  else if Entity.jumpThrough this && Qgtb (AABB.bottom otherAABB) (AABB.top aabb) then false
  else if match ignoredEntities with
          | Some ignored => existsb (Nat.eqb otherEntity) ignored
          | None => false
          end
       then false
  else aabbCollides sweepAABB otherAABB.

(** The body of [while (k--)] over the entities of one other type: the
    shapes of an included entity are pushed from the last to the first. *)
Definition gatherEntity (ent : nat) (previousAABB sweepAABB : AABB.t)
    (ignoredEntities : option (list nat)) (otherCollisionType : string)
    (otherEntity : nat) (acc : list Shape.t * bool) : M (list Shape.t * bool) :=
  this <- getEntity ent ;;
  other <- getEntity otherEntity ;;
  let otherAABB := Entity.getAABB other otherCollisionType in
  if includeEntity ent this previousAABB otherEntity other otherAABB ignoredEntities sweepAABB
  then ret (fst acc ++ rev (Entity.getShapes other otherCollisionType), true)
  else ret acc.

(** The body of [while (j--)] over the types the collision type collides
    with: the entities of the grid, or else the tiles of the terrain. *)
Definition gatherType (ent : nat) (previousAABB sweepAABB : AABB.t)
    (ignoredEntities : option (list nat)) (againstGrid : gmap string (list nat))
    (otherCollisionType : string) (acc : list Shape.t * bool) : M (list Shape.t * bool) :=
  match againstGrid !! otherCollisionType with
  | Some otherEntities =>
      foldM (gatherEntity ent previousAABB sweepAABB ignoredEntities otherCollisionType)
            (rev otherEntities) acc
  | None =>
      w <- get ;;
      match terrain w with
      | Some getTileShapes =>
          let otherShapes := getTileShapes sweepAABB previousAABB otherCollisionType in
          ret (fst acc ++ rev otherShapes,
               match otherShapes with [] => snd acc | _ => true end)
      | None => ret acc
      end
  end.

(** The first loop of [processCollisionStep]: for each collision type, from
    the last to the first, the shapes the sweep of that type may collide
    with.  The result lists the groups in the order of the collision types,
    with the flag [potentialCollision]. *)
Definition gatherShapes (ent : nat) (entityOrGroup : Collidable)
    (ignoredEntities : option (list nat)) (collisionTypes : list string)
    : M (list (list Shape.t) * bool) :=
  foldM (fun collisionType acc =>
           w <- get ;;
           let previousAABB := getPreviousAABB entityOrGroup w collisionType in
           let currentAABB := getAABB entityOrGroup w collisionType in
           let sweepAABB := AABB.include (AABB.set AABB.setUp currentAABB) previousAABB in
           collisionSubTypes <- unwrap (getSolidCollisions entityOrGroup w collisionType) ;;
           againstGrid <- getAgainstGrid ent sweepAABB collisionSubTypes ;;
           group <- foldM (gatherType ent previousAABB sweepAABB ignoredEntities againstGrid)
                          (rev collisionSubTypes) ([], snd acc) ;;
           ret (fst group :: fst acc, snd group))
        (rev collisionTypes) ([], false).

(** [findMinAxisMovement]: the record of the smallest movement over the
    shapes of the type, visited from the last to the first.  The two
    arrays are read once; [findMinShapeMovementCollision] moves the object
    [prevShapes[i]] in place, which later readers of [getPrevShapes]
    see. *)
Definition findMinAxisMovement (entityOrGroup : Collidable) (collisionType : string)
    (axis : Axis) (potentialCollidingShapes : list Shape.t) : M CollisionData.t :=
  w <- get ;;
  let shapes := getShapes entityOrGroup w collisionType in
  let prevShapes := getPrevShapes entityOrGroup w collisionType in
  foldM (fun i bestCD =>
           prevShape <- unwrap (prevShapes !! i) ;;
           shape <- unwrap (shapes !! i) ;;
           let result := findMinShapeMovementCollision prevShape shape axis
                           potentialCollidingShapes in
           modify (setPrevShape entityOrGroup collisionType i (snd result)) ;;
           let cd := fst result in
           if CollisionData.occurred cd
              && (negb (CollisionData.occurred bestCD)
                  || Qltb (CollisionData.deltaMovement cd) (CollisionData.deltaMovement bestCD))
           then ret cd
           else ret bestCD)
        (rev (seq 0 (length shapes))) CollisionData.setUp.

(** One axis of [resolveCollisionPosition]: each collision type, from the
    last to the first, offers its record to the collection. *)
Definition resolveAxis (entityOrGroup : Collidable) (axis : Axis)
    (potentialCollidingShapes : list (list Shape.t)) (collisionTypes : list string)
    (collisionDataCollection : CollisionDataContainer.t) : M CollisionDataContainer.t :=
  foldM (fun j cdc =>
           collisionType <- unwrap (collisionTypes !! j) ;;
           cd <- findMinAxisMovement entityOrGroup collisionType axis
                   (default [] (potentialCollidingShapes !! j)) ;;
           if CollisionData.occurred cd
           then ret (snd (match axis with
                          | axisX => CollisionDataContainer.tryToAddX cdc cd
                          | axisY => CollisionDataContainer.tryToAddY cdc cd
                          end))
           else ret cdc)
        (rev (seq 0 (length collisionTypes))) collisionDataCollection.

Definition resolveCollisionPosition (ent : nat) (entityOrGroup : Collidable)
    (finalMovementInfo : Q * Q) (potentialCollidingShapes : list (list Shape.t))
    (collisionDataCollection : CollisionDataContainer.t) (collisionTypes : list string)
    (entityDeltaX entityDeltaY : Q) : M (CollisionDataContainer.t * (Q * Q)) :=
  cdc <- (if Qneb entityDeltaX 0
          then resolveAxis entityOrGroup axisX potentialCollidingShapes collisionTypes
                 collisionDataCollection
          else ret collisionDataCollection) ;;
  e <- getEntity ent ;;
  let finalX :=
    match CollisionDataContainer.xData cdc with
    | cd :: _ => Entity.previousX e
                 + CollisionData.deltaMovement cd * CollisionData.direction cd
    | [] => Entity.x e
    end in
  modify (movePreviousX entityOrGroup finalX) ;;
  cdc <- (if Qneb entityDeltaY 0
          then resolveAxis entityOrGroup axisY potentialCollidingShapes collisionTypes cdc
          else ret cdc) ;;
  e <- getEntity ent ;;
  let finalY :=
    match CollisionDataContainer.yData cdc with
    | cd :: _ => Entity.previousY e
                 + CollisionData.deltaMovement cd * CollisionData.direction cd
    | [] => Entity.y e
    end in
  ret (cdc, (finalX, finalY)).

Definition processCollisionStep (ent : nat) (entityOrGroup : Collidable)
    (ignoredEntities : option (list nat))
    (collisionDataCollection : CollisionDataContainer.t) (finalMovementInfo : Q * Q)
    (entityDeltaX entityDeltaY : Q) (collisionTypes : list string)
    : M (CollisionDataContainer.t * (Q * Q)) :=
  gathered <- gatherShapes ent entityOrGroup ignoredEntities collisionTypes ;;
  if snd gathered
  then resolveCollisionPosition ent entityOrGroup finalMovementInfo (fst gathered)
         collisionDataCollection collisionTypes entityDeltaX entityDeltaY
  else ret (collisionDataCollection, finalMovementInfo).

(** The smallest width and the smallest height over the boxes of the
    collision types, starting from [Infinity]. *)
Definition smallestExtent (entityOrGroup : Collidable) (w : World)
    (collisionTypes : list string) : num * num :=
  fold_left
    (fun acc type =>
       let aabb := getAABB entityOrGroup w type in
       (Num.min (fst acc) (Fin (AABB.width aabb)), Num.min (snd acc) (Fin (AABB.height aabb))))
    (rev collisionTypes) (PInf, PInf).

(** [step = Math.ceil(Math.max(Math.abs(dX) / sW, Math.abs(dY) / sH));
    step = min(step, 100)]. *)
Definition bulletSteps (dX dY : Q) (sW sH : num) : num :=
  Num.min
    (Num.ceil (Num.max (Num.div (Fin (Qabs dX)) sW) (Num.div (Fin (Qabs dY)) sH)))
    (Fin 100).

(** [while (step--) { ... }] with a body that may [break]: [fuel] bounds
    the number of tests of the condition, [None] tells that it did not
    suffice; the second component of the result counts the turns of the
    loop. *)
Fixpoint whileStep {S : Type} (fuel : nat) (step : num) (body : S -> M (bool * S))
    (s : S) (turns : nat) : M (option (S * nat)) :=
  match fuel with
  | O => ret None
  | Datatypes.S fuel' =>
      if Num.truthy step then
        r <- body s ;;
        if fst r then ret (Some (snd r, Datatypes.S turns))
        else whileStep fuel' (Num.sub step (Fin 1)) body (snd r) (Datatypes.S turns)
      else ret (Some (s, turns))
  end.

(** The body of the stepping loop of a bullet. *)
Definition bulletStep (ent : nat) (entityOrGroup : Collidable)
    (ignoredEntities : option (list nat)) (dX dY : Q) (collisionTypes : list string)
    (s : CollisionDataContainer.t * (Q * Q)) : M (bool * (CollisionDataContainer.t * (Q * Q))) :=
  e <- getEntity ent ;;
  modify (prepareCollision entityOrGroup (Entity.previousX e + dX) (Entity.previousY e + dY)) ;;
  e <- getEntity ent ;;
  r <- processCollisionStep ent entityOrGroup ignoredEntities (fst s)
         (Entity.x e, Entity.y e) dX dY collisionTypes ;;
  e <- getEntity ent ;;
  let finalMovementInfo := snd r in
  modify (relocateEntity entityOrGroup finalMovementInfo (fst r)) ;;
  ret (Qeq_bool (fst finalMovementInfo) (Entity.previousX e)
       && Qeq_bool (snd finalMovementInfo) (Entity.previousY e), r).

(** [checkSolidEntityCollision(ent, entityOrGroup)]; the result is [None]
    when [fuel] did not suffice for the stepping loop. *)
Definition checkSolidEntityCollision (fuel : nat) (ent : nat) (entityOrGroup : Collidable)
    : M (option CollisionDataContainer.t) :=
  e <- getEntity ent ;;
  w <- get ;;
  let collisionDataCollection := CollisionDataContainer.setUp in
  let pX := Entity.previousX e in
  let pY := Entity.previousY e in
  let dX := Entity.x e - pX in
  let dY := Entity.y e - pY in
  let collisionTypes := getCollisionTypes entityOrGroup w in
  let ignoredEntities := option_map (fun f => f w) (getSolidEntities entityOrGroup) in
  let finalMovementInfo := (Entity.x e, Entity.y e) in
  let reindex (finalMovementInfo : Q * Q) : M unit :=
    if Qneb (fst finalMovementInfo) pX || Qneb (snd finalMovementInfo) pY
    then updateAgainst ent else ret tt in
  if Qneb dX 0 || Qneb dY 0 then
    if Entity.bullet e then
      let '(sW, sH) := smallestExtent entityOrGroup w collisionTypes in
      let step := bulletSteps dX dY sW sH in
      let dX' := finite (Num.div (Fin dX) step) 0 in
      let dY' := finite (Num.div (Fin dY) step) 0 in
      r <- whileStep fuel step
             (bulletStep ent entityOrGroup ignoredEntities dX' dY' collisionTypes)
             (collisionDataCollection, finalMovementInfo) 0 ;;
      match r with
      | Some (s, _) => reindex (snd s) ;; ret (Some (fst s))
      | None => ret None
      end
    else
      modify (prepareCollision entityOrGroup (pX + dX) (pY + dY)) ;;
      r <- processCollisionStep ent entityOrGroup ignoredEntities collisionDataCollection
             finalMovementInfo dX dY collisionTypes ;;
      modify (relocateEntity entityOrGroup (snd r) (fst r)) ;;
      reindex (snd r) ;;
      ret (Some (fst r))
  else ret (Some collisionDataCollection).

End Resolution.

(** ** The passes of a frame *)

(** The number [a.collisionGroup.getAllEntities()] for a live group. *)
Definition groupCount (w : World) (e : nat) : nat :=
  match entities w !! e with
  | Some ent =>
      match Entity.collisionGroup ent with
      | Some g => getAllEntities g
      | None => 0
      end
  | None => 0
  end.

(** [groupSortBySize(a, b)]. *)
Definition groupSortBySize (w : World) (a b : nat) : Z :=
  (Z.of_nat (groupCount w a) - Z.of_nat (groupCount w b))%Z.

(** [groups.sort(groupSortBySize)]: the comparator orders consistently, so
    that every sorting procedure yields a sorted arrangement of the
    groups; the stable merge sort is taken for it. *)
Definition sortsBefore (w : World) (a b : nat) : Prop := (groupSortBySize w a b <= 0)%Z.

#[global] Instance sortsBefore_dec (w : World) (a b : nat) : Decision (sortsBefore w a b).
Proof. unfold sortsBefore. apply Z_le_dec. Defined.

Definition sortGroups (w : World) (groups : list nat) : list nat :=
  merge_sort (sortsBefore w) groups.

(** [j = types.length; while (j--) { if (map.get(types[j]).length) { ...;
    break; } }]: whether a type with a non-empty list was found. *)
Definition someNonEmpty (map : gmap string (list string)) (types : list string) : M bool :=
  foldM (fun type found =>
           if (found : bool) then ret true
           else
             l <- unwrap (map !! type) ;;
             ret (match l with [] => false | _ => true end))
        (rev types) false.

Definition pushAllLive (e : nat) (w : World) : World :=
  setLive (allEntitiesLive w ++ [e]) (solidEntitiesLive w) (softEntitiesLive w)
    (nonColliders w) (groupsLive w) w.

Definition pushSolid (e : nat) (w : World) : World :=
  setLive (allEntitiesLive w) (solidEntitiesLive w ++ [e]) (softEntitiesLive w)
    (nonColliders w) (groupsLive w) w.

Definition pushSoft (e : nat) (w : World) : World :=
  setLive (allEntitiesLive w) (solidEntitiesLive w) (softEntitiesLive w ++ [e])
    (nonColliders w) (groupsLive w) w.

Definition pushNon (e : nat) (w : World) : World :=
  setLive (allEntitiesLive w) (solidEntitiesLive w) (softEntitiesLive w)
    (nonColliders w ++ [e]) (groupsLive w) w.

Definition pushGroup (e : nat) (w : World) : World :=
  setLive (allEntitiesLive w) (solidEntitiesLive w) (softEntitiesLive w)
    (nonColliders w) (groupsLive w ++ [e]) w.

(** The body of [while (i--)] in [checkCamera]. *)
Definition classify (entity : nat) : M unit :=
  ent <- getEntity entity ;;
  match Entity.collisionTypes ent with
  | Some (type :: types') =>
      let types := type :: types' in
      if negb (Entity.immobile ent) then
        modify (pushAllLive entity) ;;
        w <- get ;;
        collides <- (if negb (Nat.eqb entity (owner w))
                     then
                       found <- someNonEmpty (Entity.solidCollisionMap ent) types ;;
                       (if (found : bool) then modify (pushSolid entity) else ret tt) ;;
                       ret found
                     else ret false) ;;
        soft <- someNonEmpty (Entity.softCollisionMap ent) types ;;
        (if (soft : bool) then modify (pushSoft entity) else ret tt) ;;
        (if (collides : bool) then ret tt else modify (pushNon entity)) ;;
        match Entity.collisionGroup ent with
        | Some _ => modify (pushGroup entity)
        | None => ret tt
        end
      else ret tt
  | _ => ret tt
  end.

(** [checkCamera(camera, all)]; the function does not use [camera]. *)
Definition checkCamera (all : list nat) : M unit :=
  modify (setLive [] [] [] [] []) ;;
  whileDown all classify ;;
  modify (fun w =>
    setLive (allEntitiesLive w) (solidEntitiesLive w) (softEntitiesLive w)
      (nonColliders w) (sortGroups w (groupsLive w)) w).

Section Passes.

Context {G : Geometry}.

(** The entity as [entityOrGroup], and the facade [entity.collisionGroup]
    as [entityOrGroup]. *)
Variables (entityView groupView : nat -> Collidable).

(** The events of the records a resolution produced; [false] when the
    fuel of the resolution did not suffice. *)
Definition triggerRecords (entityCDC : option CollisionDataContainer.t) : M bool :=
  match entityCDC with
  | Some cdc =>
      whileDown (CollisionDataContainer.xData cdc) triggerX ;;
      whileDown (CollisionDataContainer.yData cdc) triggerY ;;
      ret true
  | None => ret false
  end.

(** The size [entity.collisionGroup.getSize()] of a live group. *)
Definition groupSize (w : World) (e : nat) : option nat :=
  ent ← entities w !! e;
  g ← Entity.collisionGroup ent;
  Some (getSize g).

(** The body of [while (x--)] in [checkGroupCollisions]; the flag tells
    whether the fuel has sufficed so far. *)
Definition groupTurn (fuel : nat) (entity : nat) (ok : bool) : M bool :=
  if ok then
    w <- get ;;
    size <- unwrap (groupSize w entity) ;;
    if (1 <? size)%nat then
      entityCDC <- checkSolidEntityCollision fuel entity (groupView entity) ;;
      triggerRecords entityCDC
    else ret true
  else ret false.

Definition checkGroupCollisions (fuel : nat) : M bool :=
  w <- get ;;
  foldM (groupTurn fuel) (rev (groupsLive w)) true.

Definition solidTurn (fuel : nat) (entity : nat) (ok : bool) : M bool :=
  if ok then
    entityCDC <- checkSolidEntityCollision fuel entity (entityView entity) ;;
    triggerRecords entityCDC
  else ret false.

Definition checkSolidCollisions (fuel : nat) : M bool :=
  w <- get ;;
  foldM (solidTurn fuel) (rev (solidEntitiesLive w)) true.

End Passes.
(** ** Predicates used in the statements *)

(** What the loop of [findMinShapeMovementCollision] maintains: the
    running position stays between the starting point and the goal, and a
    record that reports a collision was written for that position. *)
Definition stepInv (initialPoint goalPoint direction : Q)
    (acc : Q * CollisionData.t) : Prop :=
  let '(finalPosition, cd) := acc in
  (if Qltb initialPoint goalPoint
   then initialPoint <= finalPosition <= goalPoint
   else goalPoint <= finalPosition <= initialPoint)
  /\ (CollisionData.occurred cd = true ->
      CollisionData.position cd = finalPosition
      /\ CollisionData.direction cd = direction
      /\ CollisionData.deltaMovement cd = Qabs (finalPosition - initialPoint)).

(** The contact position of the rectangle-vs-rectangle case along x. *)
Definition rectContactX (direction : Q) (thisShape thatShape : Shape.t) : Q :=
  Shape.x thatShape
  - direction * (AABB.halfWidth (Shape.aABB thatShape) + AABB.halfWidth (Shape.aABB thisShape)).

(** The direction of travel computed by [findMinShapeMovementCollision]. *)
Definition travel (initialPoint goalPoint : Q) : Q :=
  if Qltb initialPoint goalPoint then 1 else -1.

(** [p] is met strictly before [q] when travelling in [direction]. *)
Definition earlier (direction : Q) (p : num) (q : Q) : bool :=
  if Qgtb direction 0 then Num.ltb p (Fin q) else Num.gtb p (Fin q).

Section EarliestContactStatement.

Context {G : Geometry}.

(** A rectangular body moves along x from [prevShape] to [currentShape]
    towards the rectangle [thatShape], one of the candidates: the contact
    position lies ahead of the start at a distance smaller than the
    movement, and no candidate the translated body collides with has an
    earlier contact position. *)
Definition approaches (prevShape currentShape thatShape : Shape.t)
    (pcs : list Shape.t) : Prop :=
  let initialPoint := Shape.x prevShape in
  let goalPoint := Shape.x currentShape in
  let direction := travel initialPoint goalPoint in
  let translatedShape := Shape.moveX prevShape goalPoint in
  let contact := rectContactX direction prevShape thatShape in
  Shape.type prevShape = rectangle
  /\ Shape.type thatShape = rectangle
  /\ In thatShape pcs
  /\ 0 <= direction * (contact - initialPoint) < Qabs (goalPoint - initialPoint)
  /\ forall s, In s pcs -> shapeCollides translatedShape s = true ->
       earlier direction
         (ri_position (findAxisCollisionPosition axisX (Shape.type translatedShape)
                         (Shape.type s) direction translatedShape s))
         contact = false.

(** The resolver reports a collision at the contact position, which is not
    the goal. *)
Definition settlesAtContact (prevShape currentShape thatShape : Shape.t)
    (pcs : list Shape.t) : Prop :=
  let cd := fst (findMinShapeMovementCollision prevShape currentShape axisX pcs) in
  let direction := travel (Shape.x prevShape) (Shape.x currentShape) in
  CollisionData.occurred cd = true
  /\ CollisionData.position cd == rectContactX direction prevShape thatShape
  /\ ~ CollisionData.position cd == Shape.x currentShape.

End EarliestContactStatement.

(** ** Specifications of actions *)

(** Whatever the action does, and whether it returns or throws, the world
    it leaves is related by [R] to the world it started in. *)
Definition preserves {A : Type} (R : World -> World -> Prop) (m : M A) : Prop :=
  forall w, R w (after m w).

(** From a world satisfying [P] the action returns, with a result and a
    world satisfying [Q]. *)
Definition returns {A : Type} (P : World -> Prop) (m : M A) (Q : A -> World -> Prop) : Prop :=
  forall w, P w -> exists a w', m w = Ok a w' /\ Q a w'.

(** What [updateAgainst] and [removeAgainst] leave alone: the grid
    resolution, and for the entity [e] its box, its collision types and
    the box recorded in [againstAABB]. *)
Definition sameIndexing (e : nat) (w w' : World) : Prop :=
  gridBits w' = gridBits w
  /\ forall ent, entities w !! e = Some ent ->
       exists ent', entities w' !! e = Some ent'
         /\ Entity.aabb ent' = Entity.aabb ent
         /\ Entity.collisionTypes ent' = Entity.collisionTypes ent
         /\ Entity.againstAABB ent' = Entity.againstAABB ent.

(** The entity [e] is registered with the handler: it has collision types,
    a recorded box, and the cells it holds are cells of the grid. *)
Definition registered (e : nat) (w : World) : Prop :=
  exists ent types box ag,
    entities w !! e = Some ent
    /\ Entity.collisionTypes ent = Some types
    /\ Entity.againstAABB ent = Some box
    /\ Entity.againstGrid ent = Some ag
    /\ forall key, In key ag -> is_Some (againstGrid w !! key).

(** How many times [e] occurs in the list of type [type] of the cell [key]. *)
Definition occurrences (e : nat) (key : Z) (type : string) (w : World) : nat :=
  match againstGrid w !! key with
  | Some lst => count_occ Nat.eq_dec (default [] (lst !! type)) e
  | None => 0
  end.

(** No list of any cell of the grid holds an entity: the grid was never
    populated, or every entity has been taken out of it. *)
Definition unpopulated (g : gmap Z (gmap string (list nat))) : Prop :=
  map_Forall (fun _ lst => map_Forall (fun _ (arr : list nat) => arr = []) lst) g.

(** The message [m2] delivered to the struck entity mirrors the message
    [m1] delivered to the moving entity: [x] and [y] negated, the contact
    vector inverted, the same [hitType], and the two collision types
    swapped between [type] and [myType]. *)
Definition mirrored (hitType : string) (m1 m2 : Message.t) : Prop :=
  Message.x m2 = - Message.x m1
  /\ Message.y m2 = - Message.y m1
  /\ (exists v, Message.direction m1 = Some v
                /\ Message.direction m2 = Some (Vector.getInverse v))
  /\ Message.hitType m1 = Some hitType
  /\ Message.hitType m2 = Some hitType
  /\ Message.type m2 = Message.myType m1
  /\ Message.myType m2 = Message.type m1.

(** From a world satisfying [P], the action either returns with a result
    and a world satisfying [Q], or throws in a world satisfying [E]. *)
Definition hoare {A : Type} (P : World -> Prop) (m : M A)
    (Q : A -> World -> Prop) (E : World -> Prop) : Prop :=
  forall w, P w ->
    match m w with
    | Ok a w' => Q a w'
    | Throw w' => E w'
    end.

(** The message reports no contact side. *)
Definition noSide (m : Message.t) : Prop := Message.x m = 0 /\ Message.y m = 0.

(** The events of [w'] are those of [w] followed by events whose messages
    report no contact side. *)
Definition softEventsSince (w w' : World) : Prop :=
  exists evs, events w' = events w ++ evs /\ Forall (fun ev => noSide (ev_message ev)) evs.

(** The jump-through cases of [includeEntity]: the other entity is a
    jump-through platform and the bottom of the moving body's previous box
    lies strictly below the top of the other box, or the moving body is a
    jump-through platform and the bottom of the other box lies strictly
    below the top of its previous box (y grows downwards). *)
Definition jumpThroughExcludes (this other : Entity.t) (previousAABB otherAABB : AABB.t)
    : Prop :=
  (Entity.jumpThrough other = true /\ AABB.top otherAABB < AABB.bottom previousAABB)
  \/ (Entity.jumpThrough this = true /\ AABB.top previousAABB < AABB.bottom otherAABB).

(** In the world [w] every shape of an entity names that entity as its
    owner, and no tile of the terrain is owned by the entity [o]. *)
Definition shapesOwned (o : nat) (w : World) : Prop :=
  map_Forall
    (fun e ent =>
       map_Forall (fun _ shapes => Forall (fun s => Shape.owner s = Some e) shapes)
                  (Entity.shapes ent))
    (entities w)
  /\ (forall getTileShapes sweepAABB previousAABB type s,
        terrain w = Some getTileShapes ->
        In s (getTileShapes sweepAABB previousAABB type) -> Shape.owner s <> Some o).


(** ** The index of the grid *)

(** ** Statements about the index *)

(** The grid holds the entity [e] exactly where its bookkeeping says: in
    the list of type [type] of the cell [key] as often as [key] occurs
    among the cells the entity holds, times as often as [type] occurs among
    its collision types. *)
Definition tracked (e : nat) (w : World) : Prop :=
  exists ent types box ag,
    entities w !! e = Some ent
    /\ Entity.collisionTypes ent = Some types
    /\ Entity.againstAABB ent = Some box
    /\ Entity.againstGrid ent = Some ag
    /\ (forall key, In key ag -> is_Some (againstGrid w !! key))
    /\ forall key type,
         occurrences e key type w
         = (count_occ Z.eq_dec ag key * count_occ string_dec types type)%nat.

(** The entity [e] occurs in no list of the grid. *)
Definition absent (e : nat) (w : World) : Prop :=
  forall key type, occurrences e key type w = 0%nat.

(** The keys of the cells a box covers, in the order [updateAgainst] visits
    them. *)
Definition keysOf (gb : Z) (aabb : AABB.t) : list Z :=
  map (fun cell => cellKey (fst cell) (snd cell)) (cellsOf (mapDown gb aabb)).

(** The handler of ['child-entity-updated']. *)
Definition childEntityUpdated (e : nat) : M unit :=
  removeCollisionEntity e ;; addCollisionEntity e.

(** The part of the world the index consists of: the grid resolution [gb],
    the entities, with the entity [e] being [ent] holding the cells [ag],
    cells that exist, and the number [f e' key type] of occurrences of
    every entity in every list. *)
Definition indexIs (gb : Z) (e : nat) (ent : Entity.t) (rest : gmap nat Entity.t)
    (cells : list Z) (ag : list Z) (f : nat -> Z -> string -> nat) (w : World) : Prop :=
  gridBits w = gb
  /\ entities w = <[e := Entity.setAgainstGrid (Some ag) ent]> rest
  /\ (forall key, In key cells -> is_Some (againstGrid w !! key))
  /\ forall e' key type, occurrences e' key type w = f e' key type.

(** [n] more, or [n] fewer, occurrences of [e] in the list of type [type]
    of the cell [key]. *)
Definition more (e : nat) (key : Z) (type : string) (n : nat)
    (f : nat -> Z -> string -> nat) : nat -> Z -> string -> nat :=
  fun e' k t => (f e' k t + (if decide (e' = e /\ k = key /\ t = type) then n else 0))%nat.

Definition fewer (e : nat) (key : Z) (type : string) (n : nat)
    (f : nat -> Z -> string -> nat) : nat -> Z -> string -> nat :=
  fun e' k t => (f e' k t - (if decide (e' = e /\ k = key /\ t = type) then n else 0))%nat.

(** The result [data] of a query lists the entity [x] under [type]. *)
Definition listed (x : nat) (type : string) (data : gmap string (list nat)) : Prop :=
  In x (default [] (data !! type)).

(** Some cell among [keys] holds [x] in its list of type [type]. *)
Definition heldIn (x : nat) (type : string) (keys : list Z) (w : World) : Prop :=
  exists key, In key keys /\ (0 < occurrences x key type w)%nat.

(** *** The lists of [checkCamera] *)

(** The entity takes part in collisions: it is not immobile and has a
    collision type. *)
Definition live (E : gmap nat Entity.t) (e : nat) : Prop :=
  exists ent type types,
    E !! e = Some ent /\ Entity.immobile ent = false
    /\ Entity.collisionTypes ent = Some (type :: types).

Definition grouped (E : gmap nat Entity.t) (e : nat) : Prop :=
  exists ent g, E !! e = Some ent /\ Entity.collisionGroup ent = Some g.

(** Some of the types has a non-empty list in [map]. *)
Definition anyNonEmpty (map : gmap string (list string)) (types : list string) : bool :=
  existsb (fun type => match map !! type with Some (_ :: _) => true | _ => false end) types.

(** The entities of [all] exist, and their two maps list every one of
    their collision types. *)
Definition cameraReady (all : list nat) (w : World) : Prop :=
  forall e, In e all ->
    exists ent,
      entities w !! e = Some ent
      /\ forall types type,
           Entity.collisionTypes ent = Some types -> In type types ->
           is_Some (Entity.solidCollisionMap ent !! type)
           /\ is_Some (Entity.softCollisionMap ent !! type).

(** What [checkCamera] has established of its five lists once the
    entities [done] have been classified. *)
Definition classifiedUpTo (w0 : World) (done : list nat) (w : World) : Prop :=
  entities w = entities w0 /\ owner w = owner w0
  /\ againstGrid w = againstGrid w0 /\ events w = events w0
  /\ (forall e, In e (allEntitiesLive w) <-> In e done /\ live (entities w0) e)
  /\ (forall e, count_occ Nat.eq_dec (allEntitiesLive w) e
                = (count_occ Nat.eq_dec (solidEntitiesLive w) e
                   + count_occ Nat.eq_dec (nonColliders w) e)%nat)
  /\ ~ In (owner w0) (solidEntitiesLive w)
  /\ (forall e, In e (softEntitiesLive w) -> In e (allEntitiesLive w))
  /\ (forall e, In e (groupsLive w)
                <-> In e (allEntitiesLive w) /\ grouped (entities w0) e).

(** *** The steps of a bullet *)

(** A quotient of the stepping: not a number, or not negative. *)
Definition quotientish (a : num) : Prop :=
  match a with
  | NaN | PInf => True
  | Fin q => 0 <= q
  | NInf => False
  end.

(** A width or height: not negative, or [Infinity]. *)
Definition extent (a : num) : Prop :=
  match a with
  | Fin q => 0 <= q
  | PInf => True
  | _ => False
  end.

(** The number of the stepping loop: [NaN], or an integer from 0 to 100. *)
Definition stepCount (n : Z) (step : num) : Prop :=
  exists q, step = Fin q /\ q == inject_Z n /\ (0 <= n <= 100)%Z.

(** *** Soft collisions that are real *)

Section SoftStatement.

Context {G : Geometry}.

(** The message [m] reports to the entity [e] of [E] a soft collision
    that is there: it names another entity, the two collision types, and
    a shape of the other entity's type that collides with a shape of the
    entity's type, the boxes of the two types colliding as well. *)
Definition softReal (E : gmap nat Entity.t) (e : nat) (m : Message.t) : Prop :=
  exists ent other o collisionType otherCollisionType shape,
    E !! e = Some ent /\ E !! o = Some other /\ o <> e
    /\ Message.entity m = Some o
    /\ Message.myType m = Some collisionType
    /\ Message.type m = Some otherCollisionType
    /\ Message.hitType m = Some "soft"%string
    /\ Message.shape m = Some shape
    /\ In shape (Entity.getShapes other otherCollisionType)
    /\ (exists s, In s (Entity.getShapes ent collisionType) /\ shapeCollides s shape = true)
    /\ aabbCollides (Entity.getAABB ent collisionType)
                    (Entity.getAABB other otherCollisionType) = true.

(** The events of [w'] are those of [w] followed by events that report
    to their target a soft collision that is there. *)
Definition realEventsSince (w w' : World) : Prop :=
  entities w' = entities w
  /\ exists evs,
       events w' = events w ++ evs
       /\ Forall (fun ev => softReal (entities w) (ev_target ev) (ev_message ev)
                            /\ ev_name ev = hitBy (Message.type (ev_message ev))) evs.

End SoftStatement.

(** *** The collision types of a group ([collision-group.js]) *)

(** [appendUniqueItems(hostArray, insertArray)]: an item is pushed on
    [hostArray] unless it is found among its first [length] elements,
    [length] being the length [hostArray] had at the call. *)
Definition appendUniqueItems (hostArray insertArray : list string) : list string :=
  let length := List.length hostArray in
  fold_left
    (fun hostArray item =>
       if existsb (String.eqb item) (firstn length hostArray) then hostArray
       else hostArray ++ [item])
    insertArray hostArray.

(** The method [getCollisionTypes] of the group of [owner].  A member
    that is not the owner and has a group of its own answers with the
    types of that group, any other member with its own, [types]: the
    method [getCollisionTypes] of [CollisionBasic], which is not among the
    sources. *)
Fixpoint groupCollisionTypes (types : nat -> list string) (owner : nat) (g : Group)
    : list string :=
  match g with
  | MkGroup l =>
      (fix compile (l : list GroupMember) (compiledList : list string) : list string :=
         match l with
         | [] => compiledList
         | Self :: l' => compile l' (appendUniqueItems compiledList (types owner))
         | Plain e :: l' => compile l' (appendUniqueItems compiledList (types e))
         | Nested e g' :: l' =>
             compile l' (appendUniqueItems compiledList (groupCollisionTypes types e g'))
         end) l []
  end.

(** The entities [getAllEntities] counts: the members of the group of
    [owner], those of a nested group in place of the member that owns
    it. *)
Fixpoint groupLeaves (owner : nat) (g : Group) : list nat :=
  match g with
  | MkGroup l =>
      (fix leaves (l : list GroupMember) : list nat :=
         match l with
         | [] => []
         | Self :: l' => owner :: leaves l'
         | Plain e :: l' => e :: leaves l'
         | Nested e g' :: l' => groupLeaves e g' ++ leaves l'
         end) l
  end.

Section PreviousShapes.

Context {G : Geometry}.

(** The world [findMinAxisMovement] leaves: for each index of [l] in
    turn, the previous shape of the index is the one
    [findMinShapeMovementCollision] has moved in place. *)
Definition prevShapesMoved (entityOrGroup : Collidable) (collisionType : string)
    (axis : Axis) (potentialCollidingShapes prevShapes shapes : list Shape.t)
    (l : list nat) (w : World) : World :=
  fold_left
    (fun w i =>
       match prevShapes !! i, shapes !! i with
       | Some prevShape, Some shape =>
           setPrevShape entityOrGroup collisionType i
             (snd (findMinShapeMovementCollision prevShape shape axis
                     potentialCollidingShapes)) w
       | _, _ => w
       end) l w.

End PreviousShapes.
(** An instance of [Geometry] for worlds of rectangles: two shapes collide
    when their boxes overlap. *)
Definition boxGeometry : Geometry := {|
  shapeCollides := fun a b => AABB.overlaps (Shape.aABB a) (Shape.aABB b);
  aabbCollides := AABB.overlaps;
  normalize := fun v => v;
  sqrtQ := fun q => inject_Z (Z.sqrt (Qfloor q))
|}.

(** ** Worked scenario

    Body A, a rectangle of width and height 10 owned by entity 1, starts
    at x = 0; body B, a rectangle of the same size owned by entity 2,
    stands at x = 15. *)
Definition bodyA (cx : Q) : Shape.t := Shape.rect cx 0 5 5 (Some 1%nat) "a".
Definition bodyB : Shape.t := Shape.rect 15 0 5 5 (Some 2%nat) "b".

(** An entity of collision type ["a"] covering the box [0, 300] x [0, 10],
    not yet registered with the handler. *)
Definition entityA : Entity.t :=
  Entity.mk 150 5 150 5 false false false (Some ["a"%string])
    {[ "a"%string := ["b"%string] ]} {[ "a"%string := ["b"%string] ]}
    (AABB.setBounds 0 0 300 10)
    {[ "a"%string := AABB.setBounds 0 0 300 10 ]}
    {[ "a"%string := AABB.setBounds 0 0 300 10 ]}
    ∅ ∅ None None None.

(** A handler that has not registered any entity: the grid is empty.
    Entity 1 is [entityA]. *)
Definition freshWorld : World :=
  mkWorld 8 ∅ {[ 1%nat := entityA ]} 0 None [] [] [] [] [] Message.initial [].

(** The same handler after entity 1 has been registered and indexed. *)
Definition indexedWorld : World := after (addCollisionEntity 1) freshWorld.

(** The indexed handler after entity 1 has moved to the box
    [256, 700] x [0, 10], before it is re-indexed. *)
Definition movedWorld : World :=
  setEntities
    (alter (fun ent =>
              Entity.mk (Entity.x ent) (Entity.y ent) (Entity.previousX ent)
                (Entity.previousY ent) (Entity.immobile ent) (Entity.bullet ent)
                (Entity.jumpThrough ent) (Entity.collisionTypes ent)
                (Entity.solidCollisionMap ent) (Entity.softCollisionMap ent)
                (AABB.setBounds 256 0 700 10) (Entity.typeAABB ent)
                (Entity.previousAABB ent) (Entity.shapes ent) (Entity.prevShapes ent)
                (Entity.againstGrid ent) (Entity.againstAABB ent)
                (Entity.collisionGroup ent))
           1%nat (entities indexedWorld))
    indexedWorld.

(** The indexed handler after entity 1 has been taken out of the grid by
    [removeAgainst]: the cells remain, their lists are empty. *)
Definition vacatedWorld : World := after (removeAgainst 1) indexedWorld.

(** Two overlapping entities: entity 1 of type ["a"] reports soft
    collisions against type ["b"], entity 2 is of type ["b"].  Both are
    registered; the shared message still carries the side of an earlier
    solid collision. *)
Definition softEntity (ct other : string) (cx : Q) (o : nat) : Entity.t :=
  Entity.mk cx 0 cx 0 false false false (Some [ct]) {[ ct := [] ]} {[ ct := [other] ]}
    (AABB.setBounds (cx - 5) (-5) (cx + 5) 5)
    {[ ct := AABB.setBounds (cx - 5) (-5) (cx + 5) 5 ]}
    {[ ct := AABB.setBounds (cx - 5) (-5) (cx + 5) 5 ]}
    {[ ct := [Shape.rect cx 0 5 5 (Some o) ct] ]}
    {[ ct := [Shape.rect cx 0 5 5 (Some o) ct] ]}
    None None None.

Definition overlapWorld : World :=
  after (addCollisionEntity 1 ;; addCollisionEntity 2)
    (mkWorld 8 ∅ {[ 1%nat := softEntity "a" "b" 10 1; 2%nat := softEntity "b" "a" 12 2 ]}
       0 None [1; 2]%nat [] [1; 2]%nat [1; 2]%nat []
       (Message.setXY 1 0 Message.initial) []).

(** A body of type ["a"], blocked by type ["b"], jumps up: its previous box
    is [0, 10] x [20, 30], its box is [0, 10] x [5, 15].  Entity 2 is a
    jump-through platform of type ["b"] with the box [0, 100] x [10, 12].
    Both are registered. *)
Definition jumper : Entity.t :=
  Entity.mk 5 10 5 25 false false false (Some ["a"%string])
    {[ "a"%string := ["b"%string] ]} {[ "a"%string := [] ]}
    (AABB.setBounds 0 5 10 15)
    {[ "a"%string := AABB.setBounds 0 5 10 15 ]}
    {[ "a"%string := AABB.setBounds 0 20 10 30 ]}
    {[ "a"%string := [Shape.rect 5 10 5 5 (Some 1%nat) "a"] ]}
    {[ "a"%string := [Shape.rect 5 25 5 5 (Some 1%nat) "a"] ]}
    None None None.

Definition platform : Entity.t :=
  Entity.mk 50 11 50 11 false false true (Some ["b"%string])
    {[ "b"%string := [] ]} {[ "b"%string := [] ]}
    (AABB.setBounds 0 10 100 12)
    {[ "b"%string := AABB.setBounds 0 10 100 12 ]}
    {[ "b"%string := AABB.setBounds 0 10 100 12 ]}
    {[ "b"%string := [Shape.rect 50 11 50 1 (Some 2%nat) "b"] ]}
    {[ "b"%string := [Shape.rect 50 11 50 1 (Some 2%nat) "b"] ]}
    None None None.

Definition platformWorld : World :=
  after (addCollisionEntity 1 ;; addCollisionEntity 2)
    (mkWorld 8 ∅ {[ 1%nat := jumper; 2%nat := platform ]}
       0 None [1; 2]%nat [1%nat] [] [2%nat] [] Message.initial []).

(** Three owners of collision groups.  The group of entity 1 has two
    members; the group of entity 2 has three members, one of them entity 1
    with its group, hence four entities in all; the group of entity 3 has
    three members. *)
Definition groupOwner (g : Group) : Entity.t :=
  Entity.mk 0 0 0 0 false false false (Some ["a"%string])
    {[ "a"%string := ["b"%string] ]} {[ "a"%string := [] ]}
    (AABB.setBounds 0 0 10 10)
    {[ "a"%string := AABB.setBounds 0 0 10 10 ]}
    {[ "a"%string := AABB.setBounds 0 0 10 10 ]}
    ∅ ∅ None None (Some g).

Definition groupWorld : World :=
  mkWorld 8 ∅
    {[ 1%nat := groupOwner (MkGroup [Self; Plain 7]);
       2%nat := groupOwner (MkGroup [Self; Nested 1 (MkGroup [Self; Plain 7]); Plain 8]);
       3%nat := groupOwner (MkGroup [Self; Plain 9; Plain 10]) ]}
    0 None [] [] [] [] [] Message.initial [].


(** Entity 1 as it is in [movedWorld] and in [indexedWorld]. *)
Definition movedEntity : Entity.t := default entityA (entities movedWorld !! 1%nat).
Definition indexedEntity : Entity.t := default entityA (entities indexedWorld !! 1%nat).

(** Entity 1 of type ["a"] lies in the column 5 of the grid, over the
    cells (5, -1) and (5, 0); entity 2 of type ["b"] lies in the column 0,
    over the cells (0, -1) and (0, 0).  Both are registered. *)
Definition farWorld : World :=
  after (addCollisionEntity 1 ;; addCollisionEntity 2)
    (mkWorld 8 ∅
       {[ 1%nat := softEntity "a" "b" 1440 1; 2%nat := softEntity "b" "a" 6 2 ]}
       0 None [] [] [] [] [] Message.initial []).

(** A body of type ["a"], blocked by type ["b"], moves to the right from
    x = 0 to x = 20: its previous box is [-5, 5] x [-5, 5], its box is
    [15, 25] x [-5, 5].  Entity 2 of type ["b"] stands in its way at
    x = 15, with the box [10, 20] x [-5, 5].  Both are registered. *)
Definition mover (bullet : bool) : Entity.t :=
  Entity.mk 20 0 0 0 false bullet false (Some ["a"%string])
    {[ "a"%string := ["b"%string] ]} {[ "a"%string := [] ]}
    (AABB.setBounds 15 (-5) 25 5)
    {[ "a"%string := AABB.setBounds 15 (-5) 25 5 ]}
    {[ "a"%string := AABB.setBounds (-5) (-5) 5 5 ]}
    {[ "a"%string := [bodyA 20] ]}
    {[ "a"%string := [bodyA 0] ]}
    None None None.

Definition obstacle : Entity.t :=
  Entity.mk 15 0 15 0 false false false (Some ["b"%string])
    {[ "b"%string := [] ]} {[ "b"%string := [] ]}
    (AABB.setBounds 10 (-5) 20 5)
    {[ "b"%string := AABB.setBounds 10 (-5) 20 5 ]}
    {[ "b"%string := AABB.setBounds 10 (-5) 20 5 ]}
    {[ "b"%string := [bodyB] ]}
    {[ "b"%string := [bodyB] ]}
    None None None.

Definition movingWorld : World :=
  after (addCollisionEntity 1 ;; addCollisionEntity 2)
    (mkWorld 8 ∅ {[ 1%nat := mover false; 2%nat := obstacle ]}
       0 None [1; 2]%nat [1%nat] [] [2%nat] [] Message.initial []).

(** The same world, the moving body being a bullet. *)
Definition bulletWorld : World :=
  after (addCollisionEntity 1 ;; addCollisionEntity 2)
    (mkWorld 8 ∅ {[ 1%nat := mover true; 2%nat := obstacle ]}
       0 None [1; 2]%nat [1%nat] [] [2%nat] [] Message.initial []).

(** * Properties *)

(** ** Comparisons *)

Lemma Qltb_lt (a b : Q) : Qltb a b = true <-> a < b.
Proof.
  unfold Qltb. rewrite negb_true_iff, <- not_true_iff_false, Qle_bool_iff.
  split; [apply Qnot_le_lt | apply Qlt_not_le].
Qed.

Lemma Qltb_ge (a b : Q) : Qltb a b = false <-> b <= a.
Proof.
  unfold Qltb. rewrite negb_false_iff. apply Qle_bool_iff.
Qed.

Lemma Qneb_neq (a b : Q) : Qneb a b = true <-> ~ a == b.
Proof.
  unfold Qneb. rewrite negb_true_iff, <- not_true_iff_false, Qeq_bool_iff. tauto.
Qed.

Lemma Qltb_spec (a b : Q) : reflect (a < b) (Qltb a b).
Proof.
  destruct (Qltb a b) eqn:E; constructor.
  - now apply Qltb_lt.
  - apply Qltb_ge in E. now apply Qle_not_lt.
Qed.

Lemma Num_ltb_Fin (p q : Q) : Num.ltb (Fin p) (Fin q) = Qltb p q.
Proof. reflexivity. Qed.

Section AxisResolverFacts.

Context {G : Geometry}.

Lemma shapeStep_inv axis initialPoint goalPoint translated current acc s :
  let direction := if Qltb initialPoint goalPoint then 1 else -1 in
  stepInv initialPoint goalPoint direction acc ->
  stepInv initialPoint goalPoint direction
    (shapeStep axis initialPoint direction translated current acc s).
Proof.
  intros direction. destruct acc as [final cd]. unfold stepInv, shapeStep.
  intros [Hrange Hcd].
  destruct (shapeCollides translated s); [|now split].
  set (p := ri_position _).
  subst direction.
  destruct (Qltb_spec initialPoint goalPoint) as [Hlt|Hge].
  - change (Qgtb 1 0) with true. cbv iota.
    destruct (Num.ltb p (Fin final)) eqn:Hp; [|now split].
    destruct (Num.ltb p (Fin initialPoint)) eqn:Hi.
    + simpl. repeat split; lra.
    + destruct p as [| |q|]; try discriminate.
      rewrite Num_ltb_Fin in Hp, Hi. apply Qltb_lt in Hp. apply Qltb_ge in Hi.
      simpl. repeat split; lra.
  - change (Qgtb (-1) 0) with false. cbv iota.
    unfold Num.gtb.
    destruct (Num.ltb (Fin final) p) eqn:Hp; [|now split].
    destruct (Num.ltb (Fin initialPoint) p) eqn:Hi.
    + simpl. repeat split; lra.
    + destruct p as [| |q|]; try discriminate.
      rewrite Num_ltb_Fin in Hp, Hi. apply Qltb_lt in Hp. apply Qltb_ge in Hi.
      simpl. repeat split; lra.
Qed.

Lemma shapeFold_inv axis initialPoint goalPoint translated current l acc :
  let direction := if Qltb initialPoint goalPoint then 1 else -1 in
  stepInv initialPoint goalPoint direction acc ->
  stepInv initialPoint goalPoint direction
    (fold_left (shapeStep axis initialPoint direction translated current) l acc).
Proof.
  intros direction. revert acc. induction l as [|s l IH]; intros acc H; [exact H|].
  simpl. apply IH. now apply shapeStep_inv.
Qed.

(** A record written for the starting point: the contact was clamped. *)
Local Abbreviation atStart initialPoint acc :=
  (fst acc = initialPoint
   /\ CollisionData.occurred (snd acc) = true
   /\ CollisionData.position (snd acc) = initialPoint
   /\ CollisionData.deltaMovement (snd acc) == 0).

Lemma Qabs_self (p : Q) : Qabs (p - p) == 0.
Proof.
  assert (H : p - p == 0) by ring. rewrite H. reflexivity.
Qed.

(** A candidate that collides and whose contact lies behind the starting
    point is clamped to the starting point and recorded. *)
Lemma shapeStep_clamps axis initialPoint goalPoint translated current acc s :
  let direction := if Qltb initialPoint goalPoint then 1 else -1 in
  stepInv initialPoint goalPoint direction acc ->
  shapeCollides translated s = true ->
  earlier direction
    (ri_position (findAxisCollisionPosition axis (Shape.type translated) (Shape.type s)
                    direction translated s)) initialPoint = true ->
  atStart initialPoint (shapeStep axis initialPoint direction translated current acc s).
Proof.
  intros direction. destruct acc as [final cd]. unfold stepInv, shapeStep, earlier.
  intros [Hrange _] Hcollides. rewrite Hcollides.
  set (p := ri_position _). subst direction.
  destruct (Qltb_spec initialPoint goalPoint) as [Hlt|Hge].
  - change (Qgtb 1 0) with true. cbv iota. intros Hp.
    assert (Hfinal : Num.ltb p (Fin final) = true).
    { destruct p as [| |q|]; try discriminate; [reflexivity|].
      rewrite Num_ltb_Fin in *. apply Qltb_lt in Hp. apply Qltb_lt. lra. }
    rewrite Hfinal, Hp. cbn [fst snd CollisionData.set CollisionData.occurred
                               CollisionData.position CollisionData.deltaMovement].
    repeat split; try reflexivity. apply Qabs_self.
  - change (Qgtb (-1) 0) with false. cbv iota. unfold Num.gtb. intros Hp.
    assert (Hfinal : Num.ltb (Fin final) p = true).
    { destruct p as [| |q|]; try discriminate; [|reflexivity].
      rewrite Num_ltb_Fin in *. apply Qltb_lt in Hp. apply Qltb_lt. lra. }
    rewrite Hfinal, Hp. cbn [fst snd CollisionData.set CollisionData.occurred
                               CollisionData.position CollisionData.deltaMovement].
    repeat split; try reflexivity. apply Qabs_self.
Qed.

(** Once the running position is the starting point, it stays there: a
    later candidate is recorded only if its contact lies behind the
    starting point, and is clamped in turn. *)
Lemma shapeStep_stays axis initialPoint direction translated current acc s :
  atStart initialPoint acc ->
  atStart initialPoint (shapeStep axis initialPoint direction translated current acc s).
Proof.
  destruct acc as [final cd]. cbn [fst snd]. intros (-> & Hocc & Hpos & Hdelta).
  unfold shapeStep. destruct (shapeCollides translated s); [|now repeat split].
  set (p := ri_position _).
  destruct (Qgtb direction 0).
  - destruct (Num.ltb p (Fin initialPoint)) eqn:Hp; [|now repeat split].
    cbn [fst snd CollisionData.set CollisionData.occurred
           CollisionData.position CollisionData.deltaMovement].
    repeat split; try reflexivity. apply Qabs_self.
  - destruct (Num.gtb p (Fin initialPoint)) eqn:Hp; [|now repeat split].
    cbn [fst snd CollisionData.set CollisionData.occurred
           CollisionData.position CollisionData.deltaMovement].
    repeat split; try reflexivity. apply Qabs_self.
Qed.

Lemma shapeFold_stays axis initialPoint direction translated current l acc :
  atStart initialPoint acc ->
  atStart initialPoint
    (fold_left (shapeStep axis initialPoint direction translated current) l acc).
Proof.
  revert acc. induction l as [|s l IH]; intros acc H; [exact H|].
  cbn [fold_left]. apply IH. now apply shapeStep_stays.
Qed.

Lemma shapeFold_clamps axis initialPoint goalPoint translated current l acc s :
  let direction := if Qltb initialPoint goalPoint then 1 else -1 in
  stepInv initialPoint goalPoint direction acc ->
  In s l ->
  shapeCollides translated s = true ->
  earlier direction
    (ri_position (findAxisCollisionPosition axis (Shape.type translated) (Shape.type s)
                    direction translated s)) initialPoint = true ->
  atStart initialPoint
    (fold_left (shapeStep axis initialPoint direction translated current) l acc).
Proof.
  intros direction Hinv Hin Hcollides Hbehind.
  apply in_split in Hin as (l1 & l2 & ->).
  rewrite fold_left_app. cbn [fold_left]. apply shapeFold_stays.
  apply (shapeStep_clamps axis initialPoint goalPoint); [|exact Hcollides | exact Hbehind].
  now apply shapeFold_inv.
Qed.

End AxisResolverFacts.

Section EarliestContact.

Context {G : Geometry}.

Lemma findMin_inv prevShape currentShape axis pcs :
  let initialPoint := Shape.coord axis prevShape in
  let goalPoint := Shape.coord axis currentShape in
  let cd := fst (findMinShapeMovementCollision prevShape currentShape axis pcs) in
  CollisionData.occurred cd = true ->
  exists finalPosition,
    stepInv initialPoint goalPoint (if Qltb initialPoint goalPoint then 1 else -1)
      (finalPosition, cd).
Proof.
  intros initialPoint goalPoint. unfold findMinShapeMovementCollision.
  fold initialPoint goalPoint.
  destruct (Qneb initialPoint goalPoint) eqn:Hne; [|simpl; discriminate].
  set (dir := if Qltb initialPoint goalPoint then 1 else -1).
  pose proof (shapeFold_inv axis initialPoint goalPoint
                (Shape.move axis prevShape goalPoint) currentShape (rev pcs)
                (goalPoint, CollisionData.setUp)) as H.
  fold dir in H. cbv zeta in H.
  assert (H0 : stepInv initialPoint goalPoint dir (goalPoint, CollisionData.setUp)).
  { unfold stepInv. split; [|simpl; discriminate].
    destruct (Qltb_spec initialPoint goalPoint) as [Hlt|Hge]; [lra|].
    apply Qneb_neq in Hne. lra. }
  specialize (H H0).
  destruct (fold_left _ _ _) as [final cd]. simpl. intros Hocc.
  exists final. exact H.
Qed.

(** C5.  Whenever [findMinShapeMovementCollision] reports a collision, the
    resolved position lies in the closed interval between the starting
    point and the goal, the reported [deltaMovement] is the non-negative
    distance from the starting point, and the position is never behind the
    starting point with respect to the direction of travel.  And whenever
    the body moves and a candidate that the translated shape collides with
    has its contact behind the starting point, the contact is clamped: a
    collision is reported, at the starting point itself, with a
    [deltaMovement] of zero, whatever the other candidates are. *)
Theorem findMinShapeMovementCollision_clamped prevShape currentShape axis pcs :
  let initialPoint := Shape.coord axis prevShape in
  let goalPoint := Shape.coord axis currentShape in
  let direction := travel initialPoint goalPoint in
  let translatedShape := Shape.move axis prevShape goalPoint in
  let cd := fst (findMinShapeMovementCollision prevShape currentShape axis pcs) in
  (CollisionData.occurred cd = true ->
   Qmin initialPoint goalPoint <= CollisionData.position cd <= Qmax initialPoint goalPoint
   /\ 0 <= CollisionData.deltaMovement cd
   /\ CollisionData.deltaMovement cd == Qabs (CollisionData.position cd - initialPoint)
   /\ 0 <= CollisionData.direction cd * (CollisionData.position cd - initialPoint))
  /\ (forall s,
        ~ initialPoint == goalPoint ->
        In s pcs ->
        shapeCollides translatedShape s = true ->
        earlier direction
          (ri_position (findAxisCollisionPosition axis (Shape.type translatedShape)
                          (Shape.type s) direction translatedShape s))
          initialPoint = true ->
        CollisionData.occurred cd = true
        /\ CollisionData.position cd = initialPoint
        /\ CollisionData.deltaMovement cd == 0).
Proof.
  intros initialPoint goalPoint direction translatedShape cd. split.
  - intros Hocc.
    destruct (findMin_inv prevShape currentShape axis pcs Hocc) as [final [Hrange Hcd]].
    fold initialPoint goalPoint cd in Hrange, Hcd.
    destruct (Hcd Hocc) as (Hpos & Hdir & Hdelta).
    rewrite Hpos, Hdir, Hdelta.
    destruct (Qltb_spec initialPoint goalPoint) as [Hlt|Hge].
    + rewrite (Qabs_pos (final - initialPoint)) by lra.
      rewrite (Q.min_l initialPoint goalPoint), (Q.max_r initialPoint goalPoint) by lra.
      repeat split; lra.
    + rewrite (Qabs_neg (final - initialPoint)) by lra.
      rewrite (Q.min_r initialPoint goalPoint), (Q.max_l initialPoint goalPoint) by lra.
      repeat split; lra.
  - intros s Hmoves Hin Hcollides Hbehind.
    subst cd. unfold findMinShapeMovementCollision. fold initialPoint goalPoint.
    rewrite (proj2 (Qneb_neq initialPoint goalPoint) Hmoves).
    fold translatedShape. unfold travel in direction. fold direction.
    pose proof (shapeFold_clamps axis initialPoint goalPoint translatedShape currentShape
                  (rev pcs) (goalPoint, CollisionData.setUp) s) as H.
    cbv zeta in H. fold direction in H.
    destruct (fold_left _ (rev pcs) _) as [final cd] eqn:Hfold. cbn [fst].
    destruct H as (_ & Hocc & Hpos & Hdelta).
    + unfold stepInv. split; [|cbn; discriminate]. subst direction.
      destruct (Qltb_spec initialPoint goalPoint) as [Hlt|Hge]; [lra|].
      assert (~ goalPoint == initialPoint) by (intros E; apply Hmoves; now symmetry). lra.
    + now apply in_rev in Hin.
    + exact Hcollides.
    + exact Hbehind.
    + now repeat split.
Qed.

End EarliestContact.

(** ** Earliest contact against a rectangle *)

Lemma halfWidth_moveX (a : AABB.t) (gx : Q) :
  AABB.halfWidth (AABB.moveX a gx) == AABB.halfWidth a.
Proof.
  unfold AABB.halfWidth, AABB.width, AABB.moveX. simpl.
  unfold AABB.halfWidth, AABB.width. field.
Qed.

Lemma rectContactX_moveX (direction : Q) (thisShape thatShape : Shape.t) (gx : Q) :
  rectContactX direction (Shape.moveX thisShape gx) thatShape
  == rectContactX direction thisShape thatShape.
Proof.
  unfold rectContactX. simpl. rewrite halfWidth_moveX. reflexivity.
Qed.

#[local] Arguments findAxisCollisionPosition : simpl never.

Section ContactFacts.

Context {G : Geometry}.

Variables (initialPoint goalPoint contact : Q).
Variables (translatedShape currentShape : Shape.t).

Let direction := travel initialPoint goalPoint.

Hypothesis ahead :
  0 <= direction * (contact - initialPoint) < Qabs (goalPoint - initialPoint).

(** [notBefore]: the position found so far is not before the contact, and it
    is the goal as long as no collision was recorded.  [atContact]: the
    position found so far is the contact, and it was recorded. *)
Local Abbreviation notBefore acc :=
  (0 <= direction * (fst acc - contact)
   /\ (CollisionData.occurred (snd acc) = false -> fst acc = goalPoint)).

Local Abbreviation atContact acc :=
  (fst acc == contact /\ CollisionData.occurred (snd acc) = true).

Local Abbreviation rawPosition s :=
  (ri_position (findAxisCollisionPosition axisX (Shape.type translatedShape)
                  (Shape.type s) direction translatedShape s)).

Local Abbreviation notEarlier s :=
  (shapeCollides translatedShape s = true -> earlier direction (rawPosition s) contact = false).

Lemma notBefore_start : notBefore (goalPoint, CollisionData.setUp).
Proof.
  simpl. split; [|reflexivity].
  revert ahead. unfold direction, travel.
  destruct (Qltb_spec initialPoint goalPoint) as [Hlt|Hge]; intros [H1 H2].
  - rewrite Qabs_pos in H2 by lra. lra.
  - apply Qnot_lt_le in Hge. rewrite Qabs_neg in H2 by lra. lra.
Qed.

Lemma shapeStep_notBefore acc s :
  notEarlier s -> notBefore acc ->
  notBefore (shapeStep axisX initialPoint direction translatedShape currentShape acc s).
Proof.
  unfold shapeStep, earlier.
  destruct acc as [final cd]. cbn [fst snd].
  destruct (shapeCollides translatedShape s); [|tauto].
  cbv zeta. set (p := ri_position _). clearbody p.
  intros Hs [Hfin Hocc]. specialize (Hs eq_refl).
  revert ahead Hs Hfin. unfold direction, travel.
  destruct (Qltb_spec initialPoint goalPoint) as [Hlt|Hge]; intros [H1 H2] Hs Hfin.
  - change (Qgtb 1 0) with true in *. cbv iota in *.
    destruct (Num.ltb p (Fin final)) eqn:Hp; [|cbn [fst snd]; tauto].
    destruct p as [| |r|]; try discriminate.
    rewrite Num_ltb_Fin in *. apply Qltb_ge in Hs.
    destruct (Qltb_spec r initialPoint) as [Hr|Hr];
      cbn [fst snd CollisionData.occurred CollisionData.set finite];
      split; try discriminate; lra.
  - change (Qgtb (-1) 0) with false in *. cbv iota in *. unfold Num.gtb in *.
    destruct (Num.ltb (Fin final) p) eqn:Hp; [|cbn [fst snd]; tauto].
    destruct p as [| |r|]; try discriminate.
    rewrite Num_ltb_Fin in *. apply Qltb_ge in Hs.
    destruct (Qltb_spec initialPoint r) as [Hr|Hr];
      cbn [fst snd CollisionData.occurred CollisionData.set finite];
      split; try discriminate; lra.
Qed.

Lemma shapeStep_atContact acc s :
  notEarlier s -> atContact acc ->
  atContact (shapeStep axisX initialPoint direction translatedShape currentShape acc s).
Proof.
  unfold shapeStep, earlier.
  destruct acc as [final cd]. cbn [fst snd].
  destruct (shapeCollides translatedShape s); [|tauto].
  cbv zeta. set (p := ri_position _). clearbody p.
  intros Hs [Hfin Hocc]. specialize (Hs eq_refl).
  revert Hs. unfold direction, travel.
  destruct (Qltb_spec initialPoint goalPoint) as [Hlt|Hge]; intros Hs.
  - change (Qgtb 1 0) with true in *. cbv iota in *.
    destruct (Num.ltb p (Fin final)) eqn:Hp; [|cbn [fst snd]; tauto].
    destruct p as [| |r|]; try discriminate.
    rewrite Num_ltb_Fin in *. apply Qltb_ge in Hs. apply Qltb_lt in Hp. lra.
  - change (Qgtb (-1) 0) with false in *. cbv iota in *. unfold Num.gtb in *.
    destruct (Num.ltb (Fin final) p) eqn:Hp; [|cbn [fst snd]; tauto].
    destruct p as [| |r|]; try discriminate.
    rewrite Num_ltb_Fin in *. apply Qltb_ge in Hs. apply Qltb_lt in Hp. lra.
Qed.

Lemma shapeStep_reaches acc that c :
  shapeCollides translatedShape that = true ->
  rawPosition that = Fin c -> c == contact ->
  notBefore acc ->
  atContact (shapeStep axisX initialPoint direction translatedShape currentShape acc that).
Proof.
  unfold shapeStep.
  destruct acc as [final cd]. cbn [fst snd].
  intros Hcol Hraw Hc [Hfin Hocc]. rewrite Hcol. cbv zeta. rewrite Hraw. clear Hraw.
  revert ahead Hfin. unfold direction, travel.
  destruct (Qltb_spec initialPoint goalPoint) as [Hlt|Hge]; intros [H1 H2] Hfin.
  - change (Qgtb 1 0) with true. cbv iota. rewrite !Num_ltb_Fin.
    rewrite Qabs_pos in H2 by lra.
    destruct (Qltb_spec c final) as [Hp|Hp].
    + destruct (Qltb_spec c initialPoint) as [Hr|Hr];
        cbn [fst snd CollisionData.occurred CollisionData.set finite];
        split; try reflexivity; lra.
    + cbn [fst snd]. split; [lra|].
      destruct (CollisionData.occurred cd); [reflexivity|].
      specialize (Hocc eq_refl). subst final. lra.
  - change (Qgtb (-1) 0) with false. cbv iota. unfold Num.gtb. rewrite !Num_ltb_Fin.
    apply Qnot_lt_le in Hge. rewrite Qabs_neg in H2 by lra.
    destruct (Qltb_spec final c) as [Hp|Hp].
    + destruct (Qltb_spec initialPoint c) as [Hr|Hr];
        cbn [fst snd CollisionData.occurred CollisionData.set finite];
        split; try reflexivity; lra.
    + cbn [fst snd]. split; [lra|].
      destruct (CollisionData.occurred cd); [reflexivity|].
      specialize (Hocc eq_refl). subst final. lra.
Qed.

Lemma shapeFold_keeps (P : Q * CollisionData.t -> Prop) l acc :
  (forall a s, In s l -> P a ->
     P (shapeStep axisX initialPoint direction translatedShape currentShape a s)) ->
  P acc ->
  P (fold_left (shapeStep axisX initialPoint direction translatedShape currentShape) l acc).
Proof.
  revert acc. induction l as [|s l IH]; intros acc Hstep Hacc; [exact Hacc|].
  simpl. apply IH.
  - intros a s' Hin. apply Hstep. now right.
  - apply Hstep; [now left | exact Hacc].
Qed.

Lemma shapeFold_reaches l that c :
  In that l ->
  (forall s, In s l -> notEarlier s) ->
  shapeCollides translatedShape that = true ->
  rawPosition that = Fin c -> c == contact ->
  atContact (fold_left (shapeStep axisX initialPoint direction translatedShape currentShape)
               l (goalPoint, CollisionData.setUp)).
Proof.
  intros Hin Hall Hcol Hraw Hc.
  destruct (in_split _ _ Hin) as (l1 & l2 & ->).
  rewrite fold_left_app. simpl.
  apply shapeFold_keeps.
  - intros a s Hs. apply shapeStep_atContact. apply Hall.
    apply in_or_app. right. now right.
  - apply (shapeStep_reaches _ _ c); try assumption.
    apply shapeFold_keeps; [|apply notBefore_start].
    intros a s Hs. apply shapeStep_notBefore. apply Hall.
    apply in_or_app. now left.
Qed.

End ContactFacts.

Section ContactTheorem.

Context {G : Geometry}.

(** C1, as amended.  A rectangular body moving along x towards a candidate
    rectangle whose contact position lies ahead at a distance smaller than
    the movement, with no colliding candidate met earlier, is reported at
    the contact position [thatShape.x - direction * (thatShape.halfWidth +
    thisShape.halfWidth)] and not at its goal, provided the body translated
    to its goal collides with that rectangle. *)
Theorem earliest_contact_when_goal_overlaps prevShape currentShape thatShape pcs :
  approaches prevShape currentShape thatShape pcs ->
  shapeCollides (Shape.moveX prevShape (Shape.x currentShape)) thatShape = true ->
  settlesAtContact prevShape currentShape thatShape pcs.
Proof.
  unfold approaches, settlesAtContact.
  set (initialPoint := Shape.x prevShape). set (goalPoint := Shape.x currentShape).
  set (direction := travel initialPoint goalPoint).
  set (translated := Shape.moveX prevShape goalPoint).
  set (contact := rectContactX direction prevShape thatShape).
  intros (Hthis & Hthat & Hin & Hahead & Hall) Hcol.
  assert (Hne : Qneb initialPoint goalPoint = true).
  { apply Qneb_neq. intros Heq. destruct Hahead as [H1 H2].
    rewrite Qabs_pos in H2 by lra. lra. }
  pose proof (shapeFold_reaches initialPoint goalPoint contact translated currentShape
                Hahead (rev pcs) thatShape (rectContactX direction translated thatShape))
    as Hreach.
  pose proof (shapeFold_inv axisX initialPoint goalPoint translated currentShape (rev pcs)
                (goalPoint, CollisionData.setUp)) as Hinv.
  cbv zeta in Hinv. fold (travel initialPoint goalPoint) in Hinv. fold direction in Hinv, Hreach.
  unfold findMinShapeMovementCollision. cbn [Shape.coord Shape.move].
  fold initialPoint goalPoint. rewrite Hne.
  fold (travel initialPoint goalPoint). fold direction. fold translated.
  destruct (fold_left _ _ _) as [final cd]. cbn [fst snd] in *.
  destruct Hreach as [Hfinal Hocc].
  - now apply in_rev in Hin.
  - intros s Hs. apply Hall. now apply in_rev.
  - exact Hcol.
  - unfold translated at 1. cbn [Shape.type Shape.moveX]. rewrite Hthis, Hthat.
    reflexivity.
  - apply rectContactX_moveX.
  - destruct Hinv as [_ Hcd].
    + unfold stepInv. split; [|discriminate].
      apply Qneb_neq in Hne.
      destruct (Qltb_spec initialPoint goalPoint) as [Hlt|Hge]; [lra|].
      apply Qnot_lt_le in Hge. lra.
    + destruct (Hcd Hocc) as (Hpos & _). rewrite Hpos.
      split; [exact Hocc|]. split; [exact Hfinal|].
      rewrite Hfinal. intros Heq. destruct Hahead as [H1 H2].
      unfold direction, travel in H1, H2. fold contact in Heq.
      destruct (Qltb_spec initialPoint goalPoint) as [Hlt|Hge].
      * rewrite Qabs_pos in H2 by lra. lra.
      * apply Qnot_lt_le in Hge. rewrite Qabs_neg in H2 by lra. lra.
Qed.

End ContactTheorem.

(** The scenario of the spec: A moves from x = 0 to x = 20 and is stopped at
    x = 5, where its right edge meets the left edge of B. *)
Example scenario_settles :
  let cd := fst (findMinShapeMovementCollision (G := boxGeometry)
                   (bodyA 0) (bodyA 20) axisX [bodyB]) in
  CollisionData.occurred cd = true
  /\ CollisionData.position cd == 5
  /\ CollisionData.direction cd = 1
  /\ CollisionData.deltaMovement cd == 5.
Proof. vm_compute. repeat split. Qed.

Lemma scenario_approaches (goal : Q) :
  20 <= goal -> approaches (G := boxGeometry) (bodyA 0) (bodyA goal) bodyB [bodyB].
Proof.
  intros Hgoal. unfold approaches.
  assert (Hdir : travel (Shape.x (bodyA 0)) (Shape.x (bodyA goal)) = 1).
  { unfold travel. cbn [Shape.x bodyA Shape.rect].
    destruct (Qltb_spec 0 goal) as [H|H]; [reflexivity | lra]. }
  cbv zeta. rewrite Hdir.
  split; [reflexivity|]. split; [reflexivity|]. split; [now left|]. split.
  - cbn [Shape.x bodyA Shape.rect]. rewrite Qabs_pos by lra.
    assert (Hc : rectContactX 1 (Shape.rect 0 0 5 5 (Some 1%nat) "a") bodyB == 5)
      by (vm_compute; reflexivity).
    rewrite Hc. lra.
  - intros s [<-|[]] _.
    change (earlier 1 (Fin (rectContactX 1 (Shape.moveX (bodyA 0) (Shape.x (bodyA goal))) bodyB))
              (rectContactX 1 (bodyA 0) bodyB) = false).
    unfold earlier. change (Qgtb 1 0) with true. cbv iota.
    rewrite Num_ltb_Fin. apply Qltb_ge. rewrite rectContactX_moveX. lra.
Qed.

(** Witness of C1: the scenario of the spec. *)
Lemma earliest_contact_witness :
  approaches (G := boxGeometry) (bodyA 0) (bodyA 20) bodyB [bodyB]
  /\ shapeCollides (Geometry := boxGeometry)
       (Shape.moveX (bodyA 0) (Shape.x (bodyA 20))) bodyB = true
  /\ settlesAtContact (G := boxGeometry) (bodyA 0) (bodyA 20) bodyB [bodyB].
Proof.
  assert (Ha : approaches (G := boxGeometry) (bodyA 0) (bodyA 20) bodyB [bodyB])
    by (apply scenario_approaches; lra).
  assert (Hc : shapeCollides (Geometry := boxGeometry)
                 (Shape.moveX (bodyA 0) (Shape.x (bodyA 20))) bodyB = true)
    by reflexivity.
  split; [exact Ha|]. split; [exact Hc|].
  exact (earliest_contact_when_goal_overlaps (G := boxGeometry)
           (bodyA 0) (bodyA 20) bodyB [bodyB] Ha Hc).
Defined.

(** Counterexample to C1 as stated: with the goal at x = 100 the contact at
    x = 5 lies ahead of A and closer than the movement, and B is the only
    candidate, yet A translated to its goal no longer collides with B: no
    collision is reported and A is left at its goal. *)
Lemma earliest_contact_missed_past_the_rectangle :
  approaches (G := boxGeometry) (bodyA 0) (bodyA 100) bodyB [bodyB]
  /\ ~ settlesAtContact (G := boxGeometry) (bodyA 0) (bodyA 100) bodyB [bodyB].
Proof.
  split.
  - apply scenario_approaches. lra.
  - unfold settlesAtContact. intros [Hocc _]. vm_compute in Hocc. discriminate.
Qed.

(** Witness of C5: body A moves from 12 to 14 into B, which stands at 15.
    At the goal the two overlap, and the contact with B, at 5, lies behind
    the starting point: it is clamped, and the collision is reported at 12
    with no movement. *)
Lemma findMinShapeMovementCollision_clamped_witness :
  let cd := fst (findMinShapeMovementCollision (G := boxGeometry)
                   (bodyA 12) (bodyA 14) axisX [bodyB]) in
  Num.ltb (ri_position (findAxisCollisionPosition (G := boxGeometry) axisX rectangle
                          rectangle 1 (Shape.moveX (bodyA 12) 14) bodyB)) (Fin 12) = true
  /\ CollisionData.occurred cd = true
  /\ CollisionData.position cd = 12
  /\ CollisionData.deltaMovement cd == 0
  /\ Qmin 12 14 <= CollisionData.position cd <= Qmax 12 14.
Proof.
  intros cd.
  pose proof (findMinShapeMovementCollision_clamped (G := boxGeometry)
                (bodyA 12) (bodyA 14) axisX [bodyB]) as [Hrange Hclamp].
  destruct (Hclamp bodyB) as (Hocc & Hpos & Hdelta).
  - cbn. intros H. apply Qeq_bool_iff in H. discriminate.
  - now left.
  - reflexivity.
  - reflexivity.
  - split; [reflexivity|]. split; [exact Hocc|]. split; [exact Hpos|].
    split; [exact Hdelta|]. exact (proj1 (Hrange Hocc)).
Defined.

(** The same against the direction of the axis: body A moves from 18 to 16
    into B at 15; the contact, at 25, lies behind the starting point, and
    the collision is reported at 18 with no movement. *)
Example clamped_moving_left :
  let cd := fst (findMinShapeMovementCollision (G := boxGeometry)
                   (bodyA 18) (bodyA 16) axisX [bodyB]) in
  Num.gtb (ri_position (findAxisCollisionPosition (G := boxGeometry) axisX rectangle
                          rectangle (-1) (Shape.moveX (bodyA 18) 16) bodyB)) (Fin 18) = true
  /\ CollisionData.occurred cd = true
  /\ CollisionData.position cd = 18
  /\ CollisionData.deltaMovement cd == 0.
Proof. vm_compute. repeat split. Qed.

(** ** Reasoning about actions *)

Lemma after_bind {A B : Type} (m : M A) (k : A -> M B) (w : World) :
  after (bind m k) w =
  match m w with
  | Ok a w' => after (k a) w'
  | Throw w' => w'
  end.
Proof. unfold after, bind. destruct (m w); reflexivity. Qed.

Section Preserves.

Context {R : World -> World -> Prop} {HR : PreOrder R}.

Lemma preserves_ret {A : Type} (a : A) : preserves R (ret a).
Proof. intros w. apply HR. Qed.

Lemma preserves_throw {A : Type} : preserves R (@throw A).
Proof. intros w. apply HR. Qed.

Lemma preserves_get : preserves R get.
Proof. intros w. apply HR. Qed.

Lemma preserves_unwrap {A : Type} (o : option A) : preserves R (unwrap o).
Proof. destruct o; [apply preserves_ret | apply preserves_throw]. Qed.

Lemma preserves_modify (f : World -> World) :
  (forall w, R w (f w)) -> preserves R (modify f).
Proof. intros H w. apply H. Qed.

Lemma preserves_bind {A B : Type} (m : M A) (k : A -> M B) :
  preserves R m -> (forall a, preserves R (k a)) -> preserves R (bind m k).
Proof.
  intros Hm Hk w. rewrite after_bind. specialize (Hm w). unfold after in Hm.
  destruct (m w) as [a w'|w']; [|exact Hm].
  transitivity w'; [exact Hm | apply Hk].
Qed.

Lemma preserves_foldM {A S : Type} (f : A -> S -> M S) (l : list A) (s : S) :
  (forall a s', preserves R (f a s')) -> preserves R (foldM f l s).
Proof.
  intros Hf. revert s. induction l as [|a l IH]; intros s; simpl.
  - apply preserves_ret.
  - apply preserves_bind; [apply Hf | exact IH].
Qed.

Lemma preserves_forEach {A : Type} (l : list A) (f : A -> M unit) :
  (forall a, preserves R (f a)) -> preserves R (forEach l f).
Proof. intros Hf. apply preserves_foldM. intros a _. apply Hf. Qed.

Lemma preserves_whileDown {A : Type} (l : list A) (f : A -> M unit) :
  (forall a, preserves R (f a)) -> preserves R (whileDown l f).
Proof. intros Hf. now apply preserves_forEach. Qed.

Lemma preserves_getEntity (e : nat) : preserves R (getEntity e).
Proof.
  apply preserves_bind; [apply preserves_get | intros w; apply preserves_unwrap].
Qed.

End Preserves.

Section Returns.

Lemma returns_ret {A : Type} (P : World -> Prop) (a : A) (Q : A -> World -> Prop) :
  (forall w, P w -> Q a w) -> returns P (ret a) Q.
Proof. intros H w Hw. exists a, w. split; [reflexivity | now apply H]. Qed.

Lemma returns_bind {A B : Type} (P : World -> Prop) (m : M A) (I : A -> World -> Prop)
    (k : A -> M B) (Q : B -> World -> Prop) :
  returns P m I -> (forall a, returns (I a) (k a) Q) -> returns P (bind m k) Q.
Proof.
  intros Hm Hk w Hw. destruct (Hm w Hw) as (a & w' & Hrun & Ha).
  destruct (Hk a w' Ha) as (b & w'' & Hrun' & Hb).
  exists b, w''. split; [|exact Hb]. unfold bind. now rewrite Hrun.
Qed.

Lemma returns_weaken {A : Type} (P P' : World -> Prop) (m : M A) (Q Q' : A -> World -> Prop) :
  returns P m Q -> (forall w, P' w -> P w) -> (forall a w, Q a w -> Q' a w) ->
  returns P' m Q'.
Proof.
  intros Hm HP HQ w Hw. destruct (Hm w (HP w Hw)) as (a & w' & Hrun & Ha).
  exists a, w'. split; [exact Hrun | now apply HQ].
Qed.

Lemma returns_modify (P : World -> Prop) (f : World -> World) (Q : unit -> World -> Prop) :
  (forall w, P w -> Q tt (f w)) -> returns P (modify f) Q.
Proof. intros H w Hw. exists tt, (f w). split; [reflexivity | now apply H]. Qed.

Lemma returns_get (P : World -> Prop) : returns P get (fun w0 w => w = w0 /\ P w).
Proof. intros w Hw. exists w, w. repeat split; assumption. Qed.



End Returns.

(** ** Re-indexing an entity *)

#[local] Instance sameIndexing_preorder (e : nat) : PreOrder (sameIndexing e).
Proof.
  split.
  - intros w. split; [reflexivity|]. intros ent H. now exists ent.
  - intros w1 w2 w3 [Hg1 H1] [Hg2 H2]. split; [congruence|].
    intros ent Hent. destruct (H1 ent Hent) as (ent2 & Hent2 & Ha & Ht & Hb).
    destruct (H2 ent2 Hent2) as (ent3 & Hent3 & Ha' & Ht' & Hb').
    exists ent3. repeat split; congruence.
Qed.








Lemma updateAgainst_unfold e w :
  updateAgainst e w =
  match entities w !! e with
  | None => Throw w
  | Some ent =>
      match Entity.againstAABB ent with
      | None => Throw w
      | Some box =>
          let aabb := mapDown (gridBits w) (Entity.aabb ent) in
          if AABB_equals (Cells.toAABB aabb) box then Ok tt w
          else
            (removeAgainst e ;;
             types <- unwrap (Entity.collisionTypes ent) ;;
             forEach (cellsOf aabb) (insertIntoCell e types))
              (setEntities
                 (alter (Entity.setAgainstAABB (Some (Cells.toAABB aabb))) e (entities w)) w)
      end
  end.
Proof.
  unfold updateAgainst, getEntity, get, unwrap, updateEntity, modify, AABB.set.
  unfold bind at 1 2. cbn beta iota.
  destruct (entities w !! e) as [ent|]; [|reflexivity].
  unfold ret at 1. cbn beta iota. unfold bind at 1 2. cbn beta iota.
  destruct (Entity.againstAABB ent) as [box|]; [|reflexivity].
  unfold ret at 1. cbn beta iota zeta.
  destruct (AABB_equals _ box); cbn [negb]; [reflexivity|].
  unfold bind at 1. reflexivity.
Qed.


Lemma removeAgainst_unfold e w :
  removeAgainst e w =
  match entities w !! e with
  | None => Throw w
  | Some ent =>
      match Entity.againstGrid ent with
      | None => Throw w
      | Some ag =>
          match Entity.collisionTypes ent with
          | None => Throw w
          | Some types =>
              (whileDown ag (fun key => whileDown types (removeFromCell e key)) ;;
               updateEntity e (Entity.setAgainstGrid (Some []))) w
          end
      end
  end.
Proof.
  unfold removeAgainst, getEntity, get, unwrap.
  unfold bind at 1 2. cbn beta iota.
  destruct (entities w !! e) as [ent|]; [|reflexivity].
  unfold ret at 1. cbn beta iota. unfold bind at 1. cbn beta iota.
  destruct (Entity.againstGrid ent) as [ag|]; [|reflexivity].
  unfold ret at 1. cbn beta iota. unfold bind at 1.
  destruct (Entity.collisionTypes ent) as [types|]; reflexivity.
Qed.






Lemma registered_movedWorld : registered 1 movedWorld.
Proof.
  eexists _, _, _, [0%Z; 1%Z]. split; [vm_compute; reflexivity|].
  split; [reflexivity|]. split; [reflexivity|]. split; [reflexivity|].
  intros key [<-|[<-|[]]]; eexists; vm_compute; reflexivity.
Qed.

Example movedWorld_reindexed :
  let w1 := after (updateAgainst 1) movedWorld in
  (occurrences 1 0 "a" w1, occurrences 1 1 "a" w1, occurrences 1 2 "a" w1,
   Entity.againstGrid <$> entities w1 !! 1%nat)
  = (0, 1, 1, Some (Some [1%Z; 2%Z]))%nat.
Proof. vm_compute. reflexivity. Qed.

(** ** Querying a grid that holds no entity *)

Lemma collectCell_unpopulated types lst data :
  map_Forall (fun _ (arr : list nat) => arr = []) lst ->
  collectCell types lst data = data.
Proof.
  intros Hlst. unfold collectCell. induction (rev types) as [|type l IH]; [reflexivity|].
  simpl. unfold collectType at 2.
  destruct (lst !! type) as [[|a arr]|] eqn:Harr; try exact IH.
  specialize (Hlst type (a :: arr) Harr). discriminate.
Qed.

Lemma getEntityAgainstGrid_unfold e types w :
  getEntityAgainstGrid e types w =
  match entities w !! e with
  | None => Throw w
  | Some ent =>
      match Entity.againstGrid ent with
      | None => Throw w
      | Some ag =>
          foldM (fun key data =>
                   lst <- unwrap (againstGrid w !! key) ;;
                   ret (collectCell types lst data))
                (rev ag) ∅ w
      end
  end.
Proof.
  unfold getEntityAgainstGrid, getEntity, get, unwrap.
  unfold bind at 1 2. cbn beta iota.
  destruct (entities w !! e) as [ent|]; [|reflexivity].
  unfold ret at 1. cbn beta iota. unfold bind at 1. cbn beta iota.
  destruct (Entity.againstGrid ent) as [ag|]; [|reflexivity].
  unfold ret at 1. cbn beta iota. unfold bind at 1. reflexivity.
Qed.

Lemma getAgainstGrid_unfold e sweep types w :
  getAgainstGrid e sweep types w =
  match entities w !! e with
  | None => Throw w
  | Some ent =>
      match Entity.againstAABB ent with
      | None => Throw w
      | Some box =>
          if AABB_equals sweep box then getEntityAgainstGrid e types w
          else Ok (fold_left
                     (fun data cell =>
                        match againstGrid w !! cellKey (fst cell) (snd cell) with
                        | Some lst => collectCell types lst data
                        | None => data
                        end)
                     (cellsOf (mapDown (gridBits w) sweep)) ∅) w
      end
  end.
Proof.
  unfold getAgainstGrid, getEntity, get, unwrap.
  unfold bind at 1 2. cbn beta iota.
  destruct (entities w !! e) as [ent|]; [|reflexivity].
  unfold ret at 1. cbn beta iota. unfold bind at 1 2. cbn beta iota.
  destruct (Entity.againstAABB ent) as [box|]; [|reflexivity].
  unfold ret at 1. cbn beta iota zeta.
  destruct (AABB_equals sweep box); reflexivity.
Qed.

Lemma foldM_cells_unpopulated types w (keys : list Z) data :
  (forall key, In key keys -> is_Some (againstGrid w !! key)) ->
  unpopulated (againstGrid w) ->
  foldM (fun key data =>
           lst <- unwrap (againstGrid w !! key) ;;
           ret (collectCell types lst data))
        keys data w = Ok data w.
Proof.
  intros Hkeys Hgrid. induction keys as [|key keys IH]; [reflexivity|].
  simpl. destruct (Hkeys key) as [lst Hlst]; [now left|].
  unfold bind at 1 2. rewrite Hlst. unfold unwrap, ret at 1 2.
  rewrite (collectCell_unpopulated types lst data (Hgrid key lst Hlst)).
  apply IH. intros k Hk. apply Hkeys. now right.
Qed.

Lemma fold_cells_unpopulated types w (cells : list (Z * Z)) data :
  unpopulated (againstGrid w) ->
  fold_left
    (fun data cell =>
       match againstGrid w !! cellKey (fst cell) (snd cell) with
       | Some lst => collectCell types lst data
       | None => data
       end) cells data = data.
Proof.
  intros Hgrid. induction cells as [|cell cells IH]; [reflexivity|].
  simpl. destruct (againstGrid w !! _) as [lst|] eqn:Hlst; [|exact IH].
  rewrite (collectCell_unpopulated types lst data (Hgrid _ lst Hlst)). exact IH.
Qed.

(** C8, as amended.  For an entity registered with the handler, querying a
    grid none of whose cells holds an entity returns the empty result, for
    every swept box and every list of types, and does not throw; the world
    is left as it was. *)
Theorem query_unpopulated_grid (e : nat) (sweep : AABB.t) (types : list string) (w : World) :
  registered e w ->
  unpopulated (againstGrid w) ->
  getAgainstGrid e sweep types w = Ok ∅ w
  /\ getEntityAgainstGrid e types w = Ok ∅ w.
Proof.
  intros (ent & ts & box & ag & He & Ht & Hb & Hag & Hkeys) Hgrid.
  assert (Hent : getEntityAgainstGrid e types w = Ok ∅ w).
  { rewrite getEntityAgainstGrid_unfold, He, Hag.
    apply foldM_cells_unpopulated; [|exact Hgrid].
    intros key Hkey. apply Hkeys. now apply in_rev. }
  split; [|exact Hent].
  rewrite getAgainstGrid_unfold, He, Hb.
  destruct (AABB_equals sweep box); [exact Hent|].
  now rewrite fold_cells_unpopulated.
Qed.

Lemma registered_vacatedWorld : registered 1 vacatedWorld.
Proof.
  eexists _, _, _, []. split; [vm_compute; reflexivity|].
  split; [reflexivity|]. split; [reflexivity|]. split; [reflexivity|].
  intros key [].
Qed.

Lemma unpopulated_vacatedWorld : unpopulated (againstGrid vacatedWorld).
Proof.
  apply map_Forall_to_list.
  assert (H : map_to_list (againstGrid vacatedWorld)
              = [(1%Z, {[ "a"%string := [] ]}); (0%Z, {[ "a"%string := [] ]})])
    by (vm_compute; reflexivity).
  rewrite H.
  repeat constructor; cbn [uncurry]; intros type arr Harr;
    apply lookup_singleton_Some in Harr; now destruct Harr.
Qed.

(** Witness of C8: entity 1 was indexed and then taken out of the grid. *)
Lemma query_unpopulated_grid_witness :
  registered 1 vacatedWorld
  /\ unpopulated (againstGrid vacatedWorld)
  /\ getAgainstGrid 1 (AABB.setBounds 0 0 300 10) ["a"; "b"]%string vacatedWorld
     = Ok ∅ vacatedWorld
  /\ getEntityAgainstGrid 1 ["a"; "b"]%string vacatedWorld = Ok ∅ vacatedWorld.
Proof.
  split; [exact registered_vacatedWorld|]. split; [exact unpopulated_vacatedWorld|].
  exact (query_unpopulated_grid 1 (AABB.setBounds 0 0 300 10) ["a"; "b"]%string vacatedWorld
           registered_vacatedWorld unpopulated_vacatedWorld).
Defined.

(** Counterexample to C8 as stated: the grid of [freshWorld] was never
    populated, and entity 1 was never registered, so that its [againstGrid]
    and [againstAABB] are undefined; both queries throw. *)
Lemma query_unregistered_entity_throws :
  againstGrid freshWorld = ∅
  /\ getEntityAgainstGrid 1 ["b"%string] freshWorld = Throw freshWorld
  /\ getAgainstGrid 1 (AABB.setBounds 0 0 300 10) ["b"%string] freshWorld = Throw freshWorld.
Proof. repeat split. Qed.

(** ** Paired events of a solid collision *)

Lemma triggerCollisionMessages_pair (a b : nat) (thisType thatType : string) (x y : Q)
    (hitType : string) (vector : Vector.t) (w : World) :
  exists m1 m2 w',
    triggerCollisionMessages (Some a) (Some b) thisType thatType x y hitType vector w
    = Ok tt w'
    /\ events w' = events w ++ [mkEvent a (hitBy (Some thatType)) m1;
                                 mkEvent b (hitBy (Some thisType)) m2]
    /\ Message.entity m1 = Some b /\ Message.entity m2 = Some a
    /\ Message.type m1 = Some thatType /\ Message.myType m1 = Some thisType
    /\ Message.x m1 = x /\ Message.y m1 = y
    /\ Message.direction m1 = Some vector
    /\ mirrored hitType m1 m2.
Proof.
  eexists _, _, _. split; [reflexivity|].
  cbn [events setEvents setTriggerMessage triggerMessage].
  rewrite <- app_assoc. split; [reflexivity|].
  unfold mirrored. cbn. repeat split; try reflexivity.
  exists vector. split; reflexivity.
Qed.

(** C2.  For a record of a solid collision whose two shapes have owners,
    an event is triggered on each owner, first on the moving entity and
    then on the struck one; the message of the struck entity carries [x]
    and [y] negated and the contact vector inverted, the same hit type
    ['solid'], and the two collision types swapped between [type] and
    [myType].  This holds for the records of [xData] and of [yData]. *)
Theorem solid_events_mirrored (messageData : CollisionData.t) (thisShape thatShape : Shape.t)
    (a b : nat) (w : World) :
  CollisionData.thisShape messageData = Some thisShape ->
  CollisionData.thatShape messageData = Some thatShape ->
  Shape.owner thisShape = Some a ->
  Shape.owner thatShape = Some b ->
  (exists m1 m2 w',
      triggerX messageData w = Ok tt w'
      /\ events w' = events w
           ++ [mkEvent a (hitBy (Some (Shape.collisionType thatShape))) m1;
               mkEvent b (hitBy (Some (Shape.collisionType thisShape))) m2]
      /\ Message.entity m1 = Some b /\ Message.entity m2 = Some a
      /\ Message.type m1 = Some (Shape.collisionType thatShape)
      /\ Message.myType m1 = Some (Shape.collisionType thisShape)
      /\ Message.x m1 = CollisionData.direction messageData /\ Message.y m1 = 0
      /\ Message.direction m1 = Some (CollisionData.vector messageData)
      /\ mirrored "solid" m1 m2)
  /\ (exists m1 m2 w',
      triggerY messageData w = Ok tt w'
      /\ events w' = events w
           ++ [mkEvent a (hitBy (Some (Shape.collisionType thatShape))) m1;
               mkEvent b (hitBy (Some (Shape.collisionType thisShape))) m2]
      /\ Message.entity m1 = Some b /\ Message.entity m2 = Some a
      /\ Message.type m1 = Some (Shape.collisionType thatShape)
      /\ Message.myType m1 = Some (Shape.collisionType thisShape)
      /\ Message.x m1 = 0 /\ Message.y m1 = CollisionData.direction messageData
      /\ Message.direction m1 = Some (CollisionData.vector messageData)
      /\ mirrored "solid" m1 m2).
Proof.
  intros Hthis Hthat Ha Hb. split.
  - unfold triggerX. unfold bind at 1 2. rewrite Hthis, Hthat. unfold unwrap, ret at 1 2.
    rewrite Ha, Hb. apply triggerCollisionMessages_pair.
  - unfold triggerY. unfold bind at 1 2. rewrite Hthis, Hthat. unfold unwrap, ret at 1 2.
    rewrite Ha, Hb. apply triggerCollisionMessages_pair.
Qed.

(** Witness of C2: the record of the scenario, in which A (entity 1) is
    stopped by B (entity 2). *)
Lemma solid_events_mirrored_witness :
  let cd := fst (findMinShapeMovementCollision (G := boxGeometry)
                   (bodyA 0) (bodyA 20) axisX [bodyB]) in
  CollisionData.thisShape cd = Some (bodyA 20)
  /\ CollisionData.thatShape cd = Some bodyB
  /\ exists m1 m2 w',
       triggerX cd freshWorld = Ok tt w'
       /\ events w' = [mkEvent 1 "hit-by-b" m1; mkEvent 2 "hit-by-a" m2]
       /\ Message.x m1 = 1 /\ Message.x m2 = - (1)
       /\ mirrored "solid" m1 m2.
Proof.
  intros cd.
  assert (Hthis : CollisionData.thisShape cd = Some (bodyA 20)) by reflexivity.
  assert (Hthat : CollisionData.thatShape cd = Some bodyB) by reflexivity.
  split; [exact Hthis|]. split; [exact Hthat|].
  destruct (solid_events_mirrored cd (bodyA 20) bodyB 1 2 freshWorld Hthis Hthat
              eq_refl eq_refl) as [(m1 & m2 & w' & Hrun & Hev & _ & _ & _ & _ & Hx & _ & _ & Hm) _].
  exists m1, m2, w'. split; [exact Hrun|]. split; [exact Hev|].
  split; [exact Hx|]. split; [|exact Hm].
  destruct Hm as (Hx2 & _). rewrite Hx2, Hx. reflexivity.
Defined.

(** ** The soft pass *)

Section Hoare.

Lemma hoare_ret {A : Type} (P : World -> Prop) (a : A) (Q : A -> World -> Prop)
    (E : World -> Prop) :
  (forall w, P w -> Q a w) -> hoare P (ret a) Q E.
Proof. intros H w Hw. now apply H. Qed.

Lemma hoare_throw {A : Type} (P : World -> Prop) (Q : A -> World -> Prop)
    (E : World -> Prop) :
  (forall w, P w -> E w) -> hoare P throw Q E.
Proof. intros H w Hw. now apply H. Qed.

Lemma hoare_unwrap {A : Type} (P : World -> Prop) (o : option A) (E : World -> Prop) :
  (forall w, P w -> E w) -> hoare P (unwrap o) (fun _ => P) E.
Proof. intros H. destruct o; [now apply hoare_ret | now apply hoare_throw]. Qed.

Lemma hoare_get (P : World -> Prop) (E : World -> Prop) :
  hoare P get (fun w0 w => w = w0 /\ P w) E.
Proof. intros w Hw. now split. Qed.

Lemma hoare_modify (P : World -> Prop) (f : World -> World) (Q : unit -> World -> Prop)
    (E : World -> Prop) :
  (forall w, P w -> Q tt (f w)) -> hoare P (modify f) Q E.
Proof. intros H w Hw. now apply H. Qed.

Lemma hoare_bind {A B : Type} (P : World -> Prop) (m : M A) (I : A -> World -> Prop)
    (k : A -> M B) (Q : B -> World -> Prop) (E : World -> Prop) :
  hoare P m I E -> (forall a, hoare (I a) (k a) Q E) -> hoare P (bind m k) Q E.
Proof.
  intros Hm Hk w Hw. specialize (Hm w Hw). unfold bind.
  destruct (m w) as [a w'|w']; [now apply Hk | exact Hm].
Qed.

Lemma hoare_weaken {A : Type} (P P' : World -> Prop) (m : M A) (Q Q' : A -> World -> Prop)
    (E E' : World -> Prop) :
  hoare P m Q E -> (forall w, P' w -> P w) -> (forall a w, Q a w -> Q' a w) ->
  (forall w, E w -> E' w) -> hoare P' m Q' E'.
Proof.
  intros Hm HP HQ HE w Hw. specialize (Hm w (HP w Hw)).
  destruct (m w); [now apply HQ | now apply HE].
Qed.

Lemma hoare_foldM {A S : Type} (I : S -> World -> Prop) (E : World -> Prop)
    (f : A -> S -> M S) (l : list A) (s : S) :
  (forall a s', hoare (I s') (f a s') I E) -> hoare (I s) (foldM f l s) I E.
Proof.
  intros Hf. revert s. induction l as [|a l IH]; intros s; simpl.
  - now apply hoare_ret.
  - eapply hoare_bind; [apply Hf | exact IH].
Qed.

Lemma hoare_foldM_in {A S : Type} (I : S -> World -> Prop) (E : World -> Prop)
    (f : A -> S -> M S) (l : list A) (s : S) :
  (forall a s', In a l -> hoare (I s') (f a s') I E) -> hoare (I s) (foldM f l s) I E.
Proof.
  revert s. induction l as [|a l IH]; intros s Hf; simpl.
  - now apply hoare_ret.
  - eapply hoare_bind; [apply Hf; now left |].
    intros s'. apply IH. intros a' s'' Ha'. apply Hf. now right.
Qed.

Lemma hoare_getEntity (P : World -> Prop) (e : nat) (E : World -> Prop) :
  (forall w, P w -> E w) -> hoare P (getEntity e) (fun _ => P) E.
Proof.
  intros H. unfold getEntity. eapply hoare_bind; [apply hoare_get|].
  intros w0. eapply hoare_weaken; [apply (hoare_unwrap P); exact H | | |];
    [now intros w [_ Hw] | auto | auto].
Qed.

(** [getEntityAgainstGrid] only reads. *)
Lemma hoare_getEntityAgainstGrid (P : World -> Prop) (e : nat) (types : list string)
    (E : World -> Prop) :
  (forall w, P w -> E w) -> hoare P (getEntityAgainstGrid e types) (fun _ => P) E.
Proof.
  intros H. unfold getEntityAgainstGrid.
  eapply hoare_bind; [apply hoare_getEntity; exact H | intros ent].
  eapply hoare_bind; [apply hoare_unwrap; exact H | intros ag].
  eapply hoare_bind; [apply hoare_get | intros w0].
  eapply hoare_weaken with (P := P) (Q := fun _ => P) (E := E);
    [| now intros w [_ Hw] | auto | auto].
  apply (hoare_foldM (fun _ => P)). intros key data.
  eapply hoare_bind; [apply hoare_unwrap; exact H | intros lst].
  now apply hoare_ret.
Qed.

Lemma hoare_getMessage (P : World -> Prop) (E : World -> Prop) :
  hoare P getMessage (fun m w => m = triggerMessage w /\ P w) E.
Proof. intros w Hw. now split. Qed.

End Hoare.

Section SoftFacts.

Context {G : Geometry}.

(** The loops of [checkEntityForSoftCollisions] hand to the callback
    messages that report no contact side, provided the callback leaves the
    coordinates of the shared message alone.  [I] is what the callback
    maintains; it does not depend on the shared message. *)
Lemma checkEntityForSoftCollisions_hoare {S : Type} (I : S -> World -> Prop)
    (E : World -> Prop) (e : nat) (callback : Message.t -> S -> M S) (s : S) :
  (forall s w m, I s w -> I s (setTriggerMessage m w)) ->
  (forall s w, I s w -> E w) ->
  (forall m s, noSide m ->
     hoare (fun w => triggerMessage w = m /\ I s w) (callback m s)
       (fun s' w' => noSide (triggerMessage w') /\ I s' w') E) ->
  hoare (I s) (checkEntityForSoftCollisions e callback s)
    (fun s' w' => noSide (triggerMessage w') /\ I s' w') E.
Proof.
  intros Hmsg HE Hcb. unfold checkEntityForSoftCollisions.
  set (J := fun s' w' => noSide (triggerMessage w') /\ I s' w').
  assert (HJE : forall s' w', J s' w' -> E w') by (intros s' w' [_ H]; now apply (HE s')).
  eapply hoare_bind; [apply hoare_getEntity; apply HE | intros ent].
  eapply hoare_bind; [apply hoare_unwrap; apply HE | intros types].
  eapply hoare_bind with (I := fun _ => J s).
  { apply hoare_modify. intros w Hw. split; [split; reflexivity | now apply Hmsg]. }
  intros _. apply (hoare_foldM J). intros collisionType s1.
  eapply hoare_bind; [apply hoare_getEntity; apply HJE | intros ent1].
  eapply hoare_bind; [apply hoare_unwrap; apply HJE | intros softCollisionMap].
  eapply hoare_bind; [apply hoare_getEntityAgainstGrid; apply HJE | intros againstGrid].
  apply (hoare_foldM J). intros otherCollisionType s2.
  destruct (againstGrid !! otherCollisionType) as [otherEntities|];
    [|now apply hoare_ret].
  apply (hoare_foldM J). intros otherEntity s3. unfold softCheckEntity.
  eapply hoare_bind; [apply hoare_getEntity; apply HJE | intros ent2].
  eapply hoare_bind; [apply hoare_getEntity; apply HJE | intros other].
  destruct (_ && _); [|now apply hoare_ret].
  destruct (firstHit _ _) as [shape|]; [|now apply hoare_ret].
  eapply hoare_bind with (I := fun _ => J s3).
  { apply hoare_modify. intros w [[Hx Hy] Hw]. split; [split; assumption | now apply Hmsg]. }
  intros _.
  eapply hoare_bind; [apply hoare_getMessage | intros m].
  intros w [-> [Hzero Hw]]. apply (Hcb (triggerMessage w) s3 Hzero). now split.
Qed.

End SoftFacts.

Lemma hoare_after {A : Type} (m : M A) (w : World) (Q : World -> Prop) :
  hoare (fun w0 => w0 = w) m (fun _ => Q) Q -> Q (after m w).
Proof.
  intros H. specialize (H w eq_refl). unfold after. now destruct (m w).
Qed.

Lemma softEventsSince_refl w : softEventsSince w w.
Proof. exists []. split; [now rewrite app_nil_r | constructor]. Qed.

Section SoftTheorems.

Context {G : Geometry}.

Lemma softTrigger_hoare (w0 : World) (e : nat) :
  hoare (softEventsSince w0) (checkEntityForSoftCollisions e (softTrigger e) tt)
    (fun _ => softEventsSince w0) (softEventsSince w0).
Proof.
  eapply hoare_weaken;
    [apply (checkEntityForSoftCollisions_hoare (fun _ => softEventsSince w0)
              (softEventsSince w0)) | auto | | auto].
  - intros _ w m (evs & Hev & Hall). now exists evs.
  - auto.
  - intros m [] Hm. unfold softTrigger, triggerEvent. apply hoare_modify.
    intros w [Hw (evs & Hev & Hall)]. cbn [triggerMessage setEvents events].
    split; [now rewrite Hw|].
    exists (evs ++ [mkEvent e (hitBy (Message.type m)) m]).
    split; [rewrite Hev; now rewrite app_assoc|].
    apply Forall_app. split; [exact Hall|]. constructor; [exact Hm | constructor].
  - now intros _ w [_ H].
Qed.

(** C9.  Every event the soft pass triggers, and every event one call of
    [checkEntityForSoftCollisions] triggers through the callback of the soft
    pass, carries [x = 0] and [y = 0], whatever the shared message held
    before; so does every collision [getEntityCollisions] returns. *)
Theorem soft_events_report_no_side (w : World) :
  softEventsSince w (after checkSoftCollisions w)
  /\ (forall e, softEventsSince w (after (checkEntityForSoftCollisions e (softTrigger e) tt) w))
  /\ (forall e, match getEntityCollisions e w with
                | Ok collisions _ => Forall noSide collisions
                | Throw _ => True
                end).
Proof.
  split; [|split].
  - apply hoare_after. unfold checkSoftCollisions.
    eapply hoare_bind with (I := fun _ => softEventsSince w).
    { intros w1 ->. apply softEventsSince_refl. }
    intros w1. unfold whileDown, forEach.
    apply (hoare_foldM (fun _ => softEventsSince w)). intros e [].
    apply softTrigger_hoare.
  - intros e. apply hoare_after.
    eapply hoare_weaken; [apply (softTrigger_hoare w e) | | auto | auto].
    intros w1 ->. apply softEventsSince_refl.
  - intros e.
    assert (Hrun : hoare (fun _ => Forall noSide (@nil Message.t))
                     (getEntityCollisions e)
                     (fun collisions w' => noSide (triggerMessage w') /\ Forall noSide collisions)
                     (fun _ => True)).
    { unfold getEntityCollisions.
      apply (checkEntityForSoftCollisions_hoare (fun s _ => Forall noSide s) (fun _ => True)).
      - auto.
      - auto.
      - intros m s Hm. apply hoare_ret. intros w1 [Hw Hs].
        split; [now rewrite Hw|]. apply Forall_app. split; [exact Hs|].
        constructor; [exact Hm | constructor]. }
    specialize (Hrun w ltac:(constructor)).
    destruct (getEntityCollisions e w); [apply Hrun | exact I].
Qed.

(** An overlap of two entities: the soft pass triggers one event on each,
    and both report no side although the shared message held [x = 1]. *)
Example overlapWorld_soft_events :
  map (fun ev => (ev_target ev, ev_name ev, Message.x (ev_message ev),
                  Message.y (ev_message ev), Message.hitType (ev_message ev)))
      (events (after (checkSoftCollisions (G := boxGeometry)) overlapWorld))
  = [(2%nat, "hit-by-a"%string, 0, 0, Some "soft"%string);
     (1%nat, "hit-by-b"%string, 0, 0, Some "soft"%string)].
Proof. vm_compute. reflexivity. Qed.

Lemma getEntityAgainstGrid_readonly e types w :
  after (getEntityAgainstGrid e types) w = w.
Proof.
  symmetry. apply (hoare_after _ w (fun w' => w = w')).
  eapply hoare_weaken;
    [apply (hoare_getEntityAgainstGrid (fun w' => w = w') e types (fun w' => w = w'));
       auto
    | intros w' ->; reflexivity | auto | auto].
Qed.

Lemma preserves_checkEntityForSoftCollisions {S : Type} (R : World -> World -> Prop)
    {HR : PreOrder R} (e : nat) (callback : Message.t -> S -> M S) (s : S) :
  (forall m w, R w (setTriggerMessage m w)) ->
  (forall m s', preserves R (callback m s')) ->
  preserves R (checkEntityForSoftCollisions e callback s).
Proof.
  intros Hmsg Hcb. unfold checkEntityForSoftCollisions.
  apply preserves_bind; [apply preserves_getEntity | intros ent].
  apply preserves_bind; [apply preserves_unwrap | intros types].
  apply preserves_bind; [apply preserves_modify; intros w; apply Hmsg | intros _].
  apply preserves_foldM. intros collisionType s1.
  apply preserves_bind; [apply preserves_getEntity | intros ent1].
  apply preserves_bind; [apply preserves_unwrap | intros softCollisionMap].
  apply preserves_bind.
  { intros w. rewrite getEntityAgainstGrid_readonly. reflexivity. }
  intros againstGrid. apply preserves_foldM. intros otherCollisionType s2.
  destruct (againstGrid !! otherCollisionType) as [otherEntities|];
    [|apply preserves_ret].
  apply preserves_foldM. intros otherEntity s3. unfold softCheckEntity.
  apply preserves_bind; [apply preserves_getEntity | intros ent2].
  apply preserves_bind; [apply preserves_getEntity | intros other].
  destruct (_ && _); [|apply preserves_ret].
  destruct (firstHit _ _) as [shape|]; [|apply preserves_ret].
  apply preserves_bind; [apply preserves_modify; intros w; apply Hmsg | intros _].
  apply preserves_bind; [|intros m; apply Hcb].
  unfold getMessage. apply preserves_bind; [apply preserves_get | intros w; apply preserves_ret].
Qed.

(** C4.  The soft pass leaves the store of entities as it was, whether it
    returns or throws and whatever overlaps it reports; in particular the
    position and the previous position of every entity are unchanged.  The
    same holds for one call of [checkEntityForSoftCollisions] with the
    callback of the soft pass, and for [getEntityCollisions]. *)
Theorem soft_pass_keeps_positions (w : World) :
  let unmoved (w' : World) :=
    entities w' = entities w
    /\ forall id ent, entities w !! id = Some ent ->
         exists ent', entities w' !! id = Some ent'
           /\ Entity.x ent' = Entity.x ent /\ Entity.y ent' = Entity.y ent
           /\ Entity.previousX ent' = Entity.previousX ent
           /\ Entity.previousY ent' = Entity.previousY ent in
  unmoved (after checkSoftCollisions w)
  /\ (forall e, unmoved (after (checkEntityForSoftCollisions e (softTrigger e) tt) w))
  /\ (forall e, unmoved (after (getEntityCollisions e) w)).
Proof.
  intros unmoved.
  assert (Hun : forall w', entities w' = entities w -> unmoved w').
  { intros w' Hw'. split; [exact Hw'|]. intros id ent Hent. exists ent.
    rewrite Hw'. now repeat split. }
  set (R := fun w1 w2 : World => entities w2 = entities w1).
  assert (HR : PreOrder R).
  { split; [intros w1; reflexivity | intros w1 w2 w3 H1 H2; unfold R in *; congruence]. }
  assert (Hsoft : forall e, preserves R (checkEntityForSoftCollisions e (softTrigger e) tt)).
  { intros e. apply (preserves_checkEntityForSoftCollisions R (HR := HR)); [now intros|].
    intros m []. apply preserves_modify. now intros. }
  split; [|split].
  - apply Hun. apply (preserves_bind (R := R) (HR := HR)); [apply preserves_get | intros w1].
    apply preserves_whileDown. exact Hsoft.
  - intros e. apply Hun. apply Hsoft.
  - intros e. apply Hun. unfold getEntityCollisions.
    apply (preserves_checkEntityForSoftCollisions R (HR := HR)); [now intros|].
    intros m s. apply preserves_ret.
Qed.

End SoftTheorems.

(** In the overlap of two entities the soft pass reports two collisions and
    moves nothing. *)
Example overlapWorld_unmoved :
  let w' := after (checkSoftCollisions (G := boxGeometry)) overlapWorld in
  length (events w') = 2%nat /\ entities w' = entities overlapWorld.
Proof.
  intros w'. split; [vm_compute; reflexivity|]. subst w'.
  exact (proj1 (proj1 (@soft_pass_keeps_positions boxGeometry overlapWorld))).
Qed.


(** ** Jump-through platforms *)

Section JumpThrough.

Context {G : Geometry}.

Lemma includeEntity_jumpThrough thisEntity this aabb otherEntity other otherAABB
    ignoredEntities sweepAABB :
  jumpThroughExcludes this other aabb otherAABB ->
  includeEntity thisEntity this aabb otherEntity other otherAABB ignoredEntities sweepAABB
  = false.
Proof.
  unfold jumpThroughExcludes, includeEntity. intros H.
  destruct (Nat.eqb otherEntity thisEntity); [reflexivity|].
  destruct H as [[Hj Hlt]|[Hj Hlt]].
  - rewrite Hj. unfold Qgtb. rewrite (proj2 (Qltb_lt _ _) Hlt). reflexivity.
  - destruct (_ && _); [reflexivity|].
    rewrite Hj. unfold Qgtb. rewrite (proj2 (Qltb_lt _ _) Hlt). reflexivity.
Qed.

Lemma getAgainstGrid_readonly e sweep types w :
  after (getAgainstGrid e sweep types) w = w.
Proof.
  unfold after. rewrite getAgainstGrid_unfold.
  destruct (entities w !! e) as [ent|]; [|reflexivity].
  destruct (Entity.againstAABB ent) as [box|]; [|reflexivity].
  destruct (AABB_equals sweep box); [|reflexivity].
  apply getEntityAgainstGrid_readonly.
Qed.

Lemma hoare_readonly {A : Type} (m : M A) (w : World) :
  (forall w', after m w' = w') ->
  hoare (fun w' => w' = w) m (fun _ w' => w' = w) (fun w' => w' = w).
Proof.
  intros H w' ->. specialize (H w). unfold after in H. now destruct (m w).
Qed.

(** The shapes gathered while every pair of boxes of the moving body and of
    [o] is excluded: none is owned by [o], and the world is left alone. *)
Lemma gatherEntity_excluded (o ent : nat) (this other : Entity.t) (w : World)
    previousAABB sweepAABB ignoredEntities otherCollisionType otherEntity acc :
  shapesOwned o w ->
  entities w !! ent = Some this ->
  entities w !! o = Some other ->
  jumpThroughExcludes this other previousAABB (Entity.getAABB other otherCollisionType) ->
  hoare (fun w' => w' = w /\ Forall (fun s => Shape.owner s <> Some o) (fst acc))
    (gatherEntity ent previousAABB sweepAABB ignoredEntities otherCollisionType
       otherEntity acc)
    (fun acc' w' => w' = w /\ Forall (fun s => Shape.owner s <> Some o) (fst acc'))
    (fun _ => True).
Proof.
  intros [Hown _] Hthis Hother Hex w' [-> Hacc].
  unfold gatherEntity, getEntity, bind, get, unwrap. rewrite Hthis. unfold ret at 1.
  destruct (entities w !! otherEntity) as [other'|] eqn:Ho'; [|exact I].
  unfold ret at 1.
  destruct (includeEntity _ _ _ _ _ _ _ _) eqn:Hinc; [|now split].
  split; [reflexivity|]. cbn [fst]. apply Forall_app. split; [exact Hacc|].
  apply Forall_forall. intros s Hs. apply list_elem_of_In, in_rev in Hs.
  assert (Howner : Shape.owner s = Some otherEntity).
  { specialize (Hown otherEntity other' Ho'). unfold Entity.getShapes in Hs.
    destruct (Entity.shapes other' !! otherCollisionType) as [shapes|] eqn:Hshapes;
      [|destruct Hs].
    specialize (Hown otherCollisionType shapes Hshapes). rewrite Forall_forall in Hown.
    apply Hown. now apply list_elem_of_In. }
  rewrite Howner.
  intros [= ->]. rewrite Hother in Ho'. injection Ho' as <-.
  rewrite includeEntity_jumpThrough in Hinc by exact Hex. discriminate.
Qed.

Lemma gatherType_excluded (o ent : nat) (this other : Entity.t) (w : World)
    previousAABB sweepAABB ignoredEntities againstGrid otherCollisionType acc :
  shapesOwned o w ->
  entities w !! ent = Some this ->
  entities w !! o = Some other ->
  jumpThroughExcludes this other previousAABB (Entity.getAABB other otherCollisionType) ->
  hoare (fun w' => w' = w /\ Forall (fun s => Shape.owner s <> Some o) (fst acc))
    (gatherType ent previousAABB sweepAABB ignoredEntities againstGrid
       otherCollisionType acc)
    (fun acc' w' => w' = w /\ Forall (fun s => Shape.owner s <> Some o) (fst acc'))
    (fun _ => True).
Proof.
  intros Hown Hthis Hother Hex. unfold gatherType.
  destruct (againstGrid !! otherCollisionType) as [otherEntities|].
  - apply (hoare_foldM
             (fun acc' w' => w' = w /\ Forall (fun s => Shape.owner s <> Some o) (fst acc'))).
    intros otherEntity acc'. now apply (gatherEntity_excluded o ent this other).
  - intros w' [-> Hacc]. unfold bind, get.
    destruct (terrain w) as [getTileShapes|] eqn:Ht; [|now split].
    split; [reflexivity|]. cbn [fst]. apply Forall_app. split; [exact Hacc|].
    apply Forall_forall. intros s Hs. apply list_elem_of_In, in_rev in Hs.
    exact (proj2 Hown getTileShapes _ _ _ s Ht Hs).
Qed.

Lemma gatherShapes_excluded (o ent : nat) (this other : Entity.t) (w : World)
    (entityOrGroup : Collidable) ignoredEntities collisionTypes :
  shapesOwned o w ->
  entities w !! ent = Some this ->
  entities w !! o = Some other ->
  (forall collisionType collisionSubTypes type,
     In collisionType collisionTypes ->
     getSolidCollisions entityOrGroup w collisionType = Some collisionSubTypes ->
     In type collisionSubTypes ->
     jumpThroughExcludes this other (getPreviousAABB entityOrGroup w collisionType)
       (Entity.getAABB other type)) ->
  hoare (fun w' => w' = w)
    (gatherShapes ent entityOrGroup ignoredEntities collisionTypes)
    (fun gathered w' =>
       w' = w /\ Forall (Forall (fun s => Shape.owner s <> Some o)) (fst gathered))
    (fun _ => True).
Proof.
  intros Hown Hthis Hother Hex. unfold gatherShapes.
  eapply hoare_weaken with
    (P := fun w' => w' = w /\ Forall (Forall (fun s => Shape.owner s <> Some o))
                                 (fst (@nil (list Shape.t), false)));
    [| intros w' ->; split; [reflexivity | constructor] | intros a w' H; exact H | auto].
  apply (hoare_foldM_in
           (fun acc w' => w' = w
                          /\ Forall (Forall (fun s => Shape.owner s <> Some o)) (fst acc))).
  intros collisionType acc Hct. apply in_rev in Hct.
  eapply hoare_bind; [apply hoare_get | intros w0].
  intros w' [-> [-> Hacc]].
  destruct (getSolidCollisions entityOrGroup w collisionType) as [collisionSubTypes|] eqn:Hsub;
    [|exact I].
  unfold unwrap, bind at 1, ret at 1.
  set (sweepAABB := AABB.include _ _).
  pose proof (getAgainstGrid_readonly ent sweepAABB collisionSubTypes w) as Hro.
  unfold after in Hro. unfold bind at 1.
  destruct (getAgainstGrid ent sweepAABB collisionSubTypes w) as [againstGrid w1|w1];
    [|exact I].
  subst w1.
  pose proof (hoare_foldM_in
                (fun acc' w' => w' = w /\ Forall (fun s => Shape.owner s <> Some o) (fst acc'))
                (fun _ => True)
                (gatherType ent (getPreviousAABB entityOrGroup w collisionType) sweepAABB
                   ignoredEntities againstGrid)
                (rev collisionSubTypes) ([], snd acc)) as Hinner.
  specialize (Hinner ltac:(intros ot acc' Hot; apply in_rev in Hot;
                            apply (gatherType_excluded o ent this other); eauto)
                w ltac:(split; [reflexivity | constructor])).
  unfold bind at 1.
  destruct (foldM _ _ _ w) as [group w1|w1]; [|exact I].
  destruct Hinner as [-> Hgroup].
  split; [reflexivity|]. cbn [fst]. constructor; assumption.
Qed.

(** A record names as [thatShape] one of the candidate shapes. *)
Lemma findMinShapeMovementCollision_thatShape prevShape currentShape axis pcs s :
  CollisionData.thatShape
    (fst (findMinShapeMovementCollision prevShape currentShape axis pcs)) = Some s ->
  In s pcs.
Proof.
  unfold findMinShapeMovementCollision.
  destruct (Qneb _ _); [|discriminate].
  set (step := shapeStep _ _ _ _ _).
  assert (Hfold : forall l acc,
             (forall s', CollisionData.thatShape (snd acc) = Some s' -> In s' pcs) ->
             (forall s', In s' l -> In s' pcs) ->
             forall s', CollisionData.thatShape (snd (fold_left step l acc)) = Some s' ->
                        In s' pcs).
  { induction l as [|c l IH]; intros acc Hacc Hl; [exact Hacc|].
    simpl. apply IH; [|intros s' Hs'; apply Hl; now right].
    unfold step, shapeStep. destruct acc as [final cd].
    assert (Hc : In c pcs) by (apply Hl; now left).
    destruct (shapeCollides _ c); [|exact Hacc].
    cbv zeta. destruct (Qgtb _ 0).
    - destruct (Num.ltb _ _); [|exact Hacc]. cbn. now intros s' [= <-].
    - destruct (Num.gtb _ _); [|exact Hacc]. cbn. now intros s' [= <-]. }
  specialize (Hfold (rev pcs) (Shape.coord axis currentShape, CollisionData.setUp)).
  destruct (fold_left _ _ _) as [final cd]. intros H.
  apply (Hfold ltac:(discriminate) ltac:(intros s' Hs'; now apply in_rev) s H).
Qed.

(** C10.  A pair of a moving body and another entity that falls under one
    of the jump-through cases is not included, whatever the sweep test
    says.  When every pair of boxes the gathering compares for the body
    and the entity [o] is such a pair, no shape gathered for the body is a
    shape of [o]; a record computed from shapes none of which is owned by
    [o] does not name a shape of [o]; and the events triggered for a record
    whose shapes are not owned by [o] neither reach [o] nor name it. *)
Theorem jumpThrough_pairs_are_skipped (o ent : nat) (this other : Entity.t) (w : World)
    (entityOrGroup : Collidable) (collisionTypes : list string) :
  shapesOwned o w ->
  entities w !! ent = Some this ->
  entities w !! o = Some other ->
  (forall collisionType collisionSubTypes type,
     In collisionType collisionTypes ->
     getSolidCollisions entityOrGroup w collisionType = Some collisionSubTypes ->
     In type collisionSubTypes ->
     jumpThroughExcludes this other (getPreviousAABB entityOrGroup w collisionType)
       (Entity.getAABB other type)) ->
  (forall collisionType collisionSubTypes type ignoredEntities sweepAABB,
     In collisionType collisionTypes ->
     getSolidCollisions entityOrGroup w collisionType = Some collisionSubTypes ->
     In type collisionSubTypes ->
     includeEntity ent this (getPreviousAABB entityOrGroup w collisionType)
       o other (Entity.getAABB other type) ignoredEntities sweepAABB = false)
  /\ (forall ignoredEntities,
        match gatherShapes ent entityOrGroup ignoredEntities collisionTypes w with
        | Ok gathered w' =>
            w' = w /\ forall group s, In group (fst gathered) -> In s group ->
                                      Shape.owner s <> Some o
        | Throw _ => True
        end)
  /\ (forall prevShape currentShape axis pcs that,
        (forall s, In s pcs -> Shape.owner s <> Some o) ->
        CollisionData.thatShape
          (fst (findMinShapeMovementCollision prevShape currentShape axis pcs)) = Some that ->
        Shape.owner that <> Some o)
  /\ (forall messageData thisShape thatShape w0,
        CollisionData.thisShape messageData = Some thisShape ->
        CollisionData.thatShape messageData = Some thatShape ->
        Shape.owner thisShape <> Some o -> Shape.owner thatShape <> Some o ->
        forall trigger, trigger = triggerX \/ trigger = triggerY ->
        exists evs, events (after (trigger messageData) w0) = events w0 ++ evs
                    /\ Forall (fun ev => ev_target ev <> o
                                         /\ Message.entity (ev_message ev) <> Some o) evs).
Proof.
  intros Hown Hthis Hother Hex. split; [|split; [|split]].
  - intros. apply includeEntity_jumpThrough. eauto.
  - intros ignoredEntities.
    pose proof (gatherShapes_excluded o ent this other w entityOrGroup ignoredEntities
                  collisionTypes Hown Hthis Hother Hex w eq_refl) as H.
    destruct (gatherShapes _ _ _ _ w) as [gathered w'|w']; [|exact I].
    destruct H as [-> Hall]. split; [reflexivity|].
    intros group s Hg Hs. rewrite Forall_forall in Hall.
    specialize (Hall group (proj2 (list_elem_of_In _ _) Hg)).
    rewrite Forall_forall in Hall. apply Hall. now apply list_elem_of_In.
  - intros prevShape currentShape axis pcs that Hpcs Hthat.
    apply Hpcs. now apply (findMinShapeMovementCollision_thatShape prevShape currentShape axis).
  - intros messageData thisShape thatShape w0 Ht1 Ht2 Ho1 Ho2 trigger Htrig.
    assert (Hboth : forall x y,
               exists evs,
                 events (after (triggerCollisionMessages (Shape.owner thisShape)
                                  (Shape.owner thatShape) (Shape.collisionType thisShape)
                                  (Shape.collisionType thatShape) x y "solid"
                                  (CollisionData.vector messageData)) w0)
                 = events w0 ++ evs
                 /\ Forall (fun ev => ev_target ev <> o
                                      /\ Message.entity (ev_message ev) <> Some o) evs).
    { intros x y. unfold after, triggerCollisionMessages, bind, setMessage, modify, unwrap,
        getMessage, get, triggerEvent, ret, throw.
      destruct (Shape.owner thisShape) as [a|] eqn:Ha;
        [|exists []; split; [now rewrite app_nil_r | constructor]].
      destruct (Shape.owner thatShape) as [b|] eqn:Hb; cbn.
      - eexists [_; _]. rewrite <- app_assoc. split; [reflexivity|].
        repeat constructor; cbn; congruence.
      - eexists [_]. split; [reflexivity|]. repeat constructor; cbn; congruence. }
    destruct Htrig as [-> | ->].
    + unfold after, triggerX. unfold bind at 1 2. rewrite Ht1, Ht2. unfold unwrap, ret at 1 2.
      apply Hboth.
    + unfold after, triggerY. unfold bind at 1 2. rewrite Ht1, Ht2. unfold unwrap, ret at 1 2.
      apply Hboth.
Qed.

End JumpThrough.

Lemma shapesOwned_platformWorld : shapesOwned 2 platformWorld.
Proof.
  split; [|intros ? ? ? ? ? [=]].
  apply map_Forall_to_list.
  assert (H : map (fun p => (fst p, map_to_list (Entity.shapes (snd p))))
                  (map_to_list (entities platformWorld))
              = [(2%nat, [("b"%string, [Shape.rect 50 11 50 1 (Some 2%nat) "b"])]);
                 (1%nat, [("a"%string, [Shape.rect 5 10 5 5 (Some 1%nat) "a"])])])
    by (vm_compute; reflexivity).
  destruct (map_to_list (entities platformWorld)) as [|[e1 ent1] [|[e2 ent2] [|? ?]]];
    try discriminate.
  injection H as <- H1 <- H2.
  repeat constructor; cbn [uncurry]; apply map_Forall_to_list.
  - rewrite H1. repeat constructor.
  - rewrite H2. repeat constructor.
Qed.

(** Witness of C10: a body jumps up from under a jump-through platform; its
    sweep crosses the box of the platform, and nothing is gathered. *)
Lemma jumpThrough_pairs_are_skipped_witness :
  let view := basicView 1 (fun _ _ w => w) (fun _ w => w) (fun _ _ w => w) in
  let sweepAABB := AABB.include (getAABB view platformWorld "a")
                     (getPreviousAABB view platformWorld "a") in
  aabbCollides (Geometry := boxGeometry) sweepAABB (Entity.getAABB platform "b") = true
  /\ includeEntity (G := boxGeometry) 1 jumper (getPreviousAABB view platformWorld "a")
       2 platform (Entity.getAABB platform "b") None sweepAABB = false
  /\ gatherShapes (G := boxGeometry) 1 view None ["a"%string] platformWorld
     = Ok ([[]], false) platformWorld.
Proof.
  intros view sweepAABB.
  assert (Hthis : entities platformWorld !! 1%nat
                  = Some (Entity.setAgainstAABB (Entity.againstAABB
                            (default jumper (entities platformWorld !! 1%nat)))
                            (Entity.setAgainstGrid (Entity.againstGrid
                               (default jumper (entities platformWorld !! 1%nat))) jumper)))
    by (vm_compute; reflexivity).
  assert (Hother : entities platformWorld !! 2%nat
                   = Some (Entity.setAgainstAABB (Entity.againstAABB
                             (default platform (entities platformWorld !! 2%nat)))
                             (Entity.setAgainstGrid (Entity.againstGrid
                                (default platform (entities platformWorld !! 2%nat))) platform)))
    by (vm_compute; reflexivity).
  pose proof (jumpThrough_pairs_are_skipped (G := boxGeometry) 2 1 _ _ platformWorld view
                ["a"%string] shapesOwned_platformWorld Hthis Hother) as H.
  destruct H as (Hinc & Hgather & _).
  { intros collisionType collisionSubTypes type [<-|[]] Hsub Htype.
    vm_compute in Hsub. injection Hsub as <-. destruct Htype as [<-|[]].
    left. split; [reflexivity|]. vm_compute. reflexivity. }
  split; [reflexivity|]. split.
  - apply (Hinc "a"%string ["b"%string] "b"%string None sweepAABB);
      [now left | vm_compute; reflexivity | now left].
  - vm_compute. reflexivity.
Defined.

(** ** The order in which groups are resolved *)

#[local] Instance sortsBefore_total (w : World) : Total (sortsBefore w).
Proof. intros a b. unfold sortsBefore, groupSortBySize. lia. Qed.

#[local] Instance sortsBefore_trans (w : World) : Transitive (sortsBefore w).
Proof. intros a b c. unfold sortsBefore, groupSortBySize. lia. Qed.

Lemma sortsBefore_count (w : World) (a b : nat) :
  sortsBefore w a b <-> (groupCount w a <= groupCount w b)%nat.
Proof. unfold sortsBefore, groupSortBySize. lia. Qed.

Lemma StronglySorted_lookup {A : Type} (R : relation A) (l : list A) :
  StronglySorted R l ->
  forall i j a b, (i < j)%nat -> l !! i = Some a -> l !! j = Some b -> R a b.
Proof.
  induction 1 as [|x l Hsorted IH Hall]; intros i j a b Hij Ha Hb.
  - discriminate.
  - destruct j as [|j]; [lia|]. cbn in Hb. destruct i as [|i].
    + cbn in Ha. injection Ha as <-. rewrite Forall_forall in Hall.
      apply Hall. now apply list_elem_of_lookup_2 in Hb.
    + cbn in Ha. apply (IH i j); [lia | assumption | assumption].
Qed.

(** The groups sorted by [checkCamera] and walked from the last to the
    first come in descending order of their counts. *)
Lemma sortGroups_descending (w : World) (groups : list nat) (i j a b : nat) :
  rev (sortGroups w groups) !! i = Some a ->
  rev (sortGroups w groups) !! j = Some b ->
  (groupCount w b < groupCount w a)%nat ->
  (i < j)%nat.
Proof.
  intros Ha Hb Hcount.
  assert (Hsorted : StronglySorted (flip (sortsBefore w)) (rev (sortGroups w groups))).
  { apply Sorted_StronglySorted; [intros x y z Hxy Hyz; unfold flip in *; now transitivity y|].
    rewrite rev_alt. apply (Sorted_reverse (sortsBefore w)). apply Sorted_merge_sort.
    apply sortsBefore_total. }
  destruct (Nat.lt_trichotomy i j) as [Hlt|[->|Hgt]]; [exact Hlt| |].
  - rewrite Ha in Hb. injection Hb as ->. lia.
  - pose proof (StronglySorted_lookup _ _ Hsorted j i b a Hgt Hb Ha) as H.
    unfold flip in H. apply sortsBefore_count in H. lia.
Qed.

Lemma checkCamera_groupsLive (all : list nat) (w w' : World) :
  checkCamera all w = Ok tt w' ->
  exists w1, entities w' = entities w1
             /\ groupsLive w' = sortGroups w1 (groupsLive w1).
Proof.
  unfold checkCamera. unfold bind at 1. unfold modify at 1. unfold bind at 1.
  destruct (whileDown all classify _) as [[] w1|w1]; [|discriminate].
  unfold modify. intros [= <-]. exists w1. split; reflexivity.
Qed.

Lemma groupCount_entities (w w' : World) (e : nat) :
  entities w' = entities w -> groupCount w' e = groupCount w e.
Proof. unfold groupCount. now intros ->. Qed.

Section GroupOrder.

Context {G : Geometry}.

(** C7.  After [checkCamera], the group pass walks the live groups in the
    list [order], from its first element to its last, resolving each group
    of more than one member when its turn comes; in that list a group with
    a larger count of entities ([getAllEntities], which counts through
    nested groups) stands before every group with a smaller count. *)
Theorem groups_resolved_largest_first (all : list nat) (w w' : World) :
  checkCamera all w = Ok tt w' ->
  let order := rev (groupsLive w') in
  (forall groupView fuel,
     checkGroupCollisions groupView fuel w' = foldM (groupTurn groupView fuel) order true w')
  /\ (forall i j a b,
        order !! i = Some a -> order !! j = Some b ->
        (groupCount w' b < groupCount w' a)%nat -> (i < j)%nat).
Proof.
  intros Hrun order. split; [reflexivity|].
  destruct (checkCamera_groupsLive all w w' Hrun) as (w1 & Hent & Hgroups).
  intros i j a b Ha Hb Hcount. subst order. rewrite Hgroups in Ha, Hb.
  rewrite !(groupCount_entities w1 w') in Hcount by exact Hent.
  exact (sortGroups_descending w1 _ i j a b Ha Hb Hcount).
Qed.

End GroupOrder.

(** Witness of C7: the groups of the entities 1, 2 and 3 count 2, 4 and 3
    entities; they are resolved in the order 2, 3, 1. *)
Lemma groups_resolved_largest_first_witness :
  let w' := after (checkCamera [1; 2; 3]%nat) groupWorld in
  checkCamera [1; 2; 3]%nat groupWorld = Ok tt w'
  /\ rev (groupsLive w') = [2; 3; 1]%nat
  /\ map (groupCount w') (rev (groupsLive w')) = [4; 3; 2]%nat
  /\ (forall i j a b,
        rev (groupsLive w') !! i = Some a -> rev (groupsLive w') !! j = Some b ->
        (groupCount w' b < groupCount w' a)%nat -> (i < j)%nat).
Proof.
  intros w'.
  assert (Hrun : checkCamera [1; 2; 3]%nat groupWorld = Ok tt w') by (vm_compute; reflexivity).
  split; [exact Hrun|]. split; [vm_compute; reflexivity|]. split; [vm_compute; reflexivity|].
  exact (proj2 (groups_resolved_largest_first (G := boxGeometry) [1; 2; 3]%nat
                  groupWorld w' Hrun)).
Defined.

(** ** Cells and keys *)

Lemma wrap32_small (z : Z) : (- 2 ^ 31 <= z < 2 ^ 31)%Z -> wrap32 z = z.
Proof.
  intros Hz. unfold wrap32. rewrite Z.mod_small by lia. lia.
Qed.

Lemma wrap32_range (z : Z) : (- 2 ^ 31 <= wrap32 z < 2 ^ 31)%Z.
Proof.
  unfold wrap32. pose proof (Z.mod_pos_bound (z + 2 ^ 31) (2 ^ 32) ltac:(lia)). lia.
Qed.

Lemma truncate_le (a b : Q) : a <= b -> (truncate a <= truncate b)%Z.
Proof.
  unfold truncate, Qle. destruct a as [p m], b as [q n]. cbn [Qnum Qden]. intros H.
  rewrite <- (Z.quot_mul_cancel_r p (Z.pos m) (Z.pos n)) by lia.
  rewrite <- (Z.quot_mul_cancel_r q (Z.pos n) (Z.pos m)) by lia.
  rewrite (Z.mul_comm (Z.pos n) (Z.pos m)).
  apply Z.quot_le_mono; lia.
Qed.

Lemma shiftr_le (a b n : Z) : (0 <= n)%Z -> (a <= b)%Z -> (Z.shiftr a n <= Z.shiftr b n)%Z.
Proof.
  intros Hn Hab. rewrite !Z.shiftr_div_pow2 by exact Hn.
  apply Z.div_le_mono; [apply Z.pow_pos_nonneg; lia | exact Hab].
Qed.

(** X1: [a >> gridBits] for a coordinate whose integer part fits 32
    signed bits is the floor of that integer part divided by
    [2 ^ gridBits], for every [gridBits] from 0 to 31. *)
Theorem shiftRight_floor (a : Q) (gb : Z) :
  (- 2 ^ 31 <= truncate a < 2 ^ 31)%Z -> (0 <= gb < 32)%Z ->
  shiftRight a gb = (truncate a / 2 ^ gb)%Z.
Proof.
  intros Ha Hgb. unfold shiftRight, toInt32.
  rewrite wrap32_small by exact Ha. rewrite Z.mod_small by exact Hgb.
  apply Z.shiftr_div_pow2. lia.
Qed.

Lemma shiftRight_witness :
  (- 2 ^ 31 <= truncate (-601 # 2) < 2 ^ 31)%Z /\ (0 <= 8 < 32)%Z
  /\ shiftRight (-601 # 2) 8 = (-2)%Z.
Proof.
  assert (Ha : (- 2 ^ 31 <= truncate (-601 # 2) < 2 ^ 31)%Z) by (change (truncate (-601 # 2)) with (-300)%Z; lia).
  assert (Hgb : (0 <= 8 < 32)%Z) by lia.
  split; [exact Ha|]. split; [exact Hgb|].
  rewrite (shiftRight_floor (-601 # 2) 8 Ha Hgb). reflexivity.
Defined.

Lemma shiftRight_le (a b : Q) (gb : Z) :
  (- 2 ^ 31 <= truncate a)%Z -> (truncate b < 2 ^ 31)%Z -> a <= b ->
  (shiftRight a gb <= shiftRight b gb)%Z.
Proof.
  intros Ha Hb Hab. pose proof (truncate_le a b Hab) as Ht.
  unfold shiftRight, toInt32. rewrite !wrap32_small by lia.
  apply shiftr_le; [|exact Ht]. apply Z.mod_pos_bound. lia.
Qed.

Lemma upTo_nonempty (lo hi : Z) : (lo <= hi)%Z -> In lo (upTo lo hi) /\ In hi (upTo lo hi).
Proof.
  intros H. unfold upTo. split; apply in_map_iff.
  - exists 0%nat. split; [lia|]. apply in_seq. lia.
  - exists (Z.to_nat (hi - lo)). split; [lia|]. apply in_seq. lia.
Qed.

Lemma in_cellsOf (c : Cells.t) (x y : Z) :
  In (x, y) (cellsOf c)
  <-> In x (upTo (Cells.left c) (Cells.right c)) /\ In y (upTo (Cells.top c) (Cells.bottom c)).
Proof.
  unfold cellsOf. rewrite <- !list_elem_of_In. rewrite list_elem_of_bind. split.
  - intros (x' & Hy & Hx). rewrite list_elem_of_bind in Hy.
    destruct Hy as (y' & Hxy & Hy). apply list_elem_of_singleton in Hxy.
    injection Hxy as -> ->. now split.
  - intros [Hx Hy]. exists x. split; [|exact Hx].
    rewrite list_elem_of_bind. exists y. split; [|exact Hy]. now apply list_elem_of_singleton.
Qed.

(** X2: [mapDown] keeps the order of the bounds: a box whose bounds fit 32
    signed bits and are in order is mapped to a range of cells that is not
    empty, and the loops over the cells visit the cells of its corners. *)
Theorem mapDown_ordered (gb : Z) (aabb : AABB.t) :
  (- 2 ^ 31 <= truncate (AABB.left aabb))%Z -> (truncate (AABB.right aabb) < 2 ^ 31)%Z ->
  (- 2 ^ 31 <= truncate (AABB.top aabb))%Z -> (truncate (AABB.bottom aabb) < 2 ^ 31)%Z ->
  AABB.left aabb <= AABB.right aabb -> AABB.top aabb <= AABB.bottom aabb ->
  let cells := mapDown gb aabb in
  (Cells.left cells <= Cells.right cells)%Z
  /\ (Cells.top cells <= Cells.bottom cells)%Z
  /\ In (Cells.left cells, Cells.top cells) (cellsOf cells)
  /\ In (Cells.right cells, Cells.bottom cells) (cellsOf cells).
Proof.
  intros Hl Hr Ht Hb Hlr Htb cells.
  assert (Hx : (Cells.left cells <= Cells.right cells)%Z) by now apply shiftRight_le.
  assert (Hy : (Cells.top cells <= Cells.bottom cells)%Z) by now apply shiftRight_le.
  split; [exact Hx|]. split; [exact Hy|].
  destruct (upTo_nonempty _ _ Hx) as [Hx1 Hx2]. destruct (upTo_nonempty _ _ Hy) as [Hy1 Hy2].
  split; apply in_cellsOf; now split.
Qed.

Lemma mapDown_ordered_witness :
  let cells := mapDown 8 (AABB.setBounds 0 0 300 10) in
  (Cells.left cells <= Cells.right cells)%Z
  /\ cellsOf cells = [(0, 0); (1, 0)]%Z.
Proof.
  pose proof (mapDown_ordered 8 (AABB.setBounds 0 0 300 10)) as H.
  cbn [AABB.left AABB.right AABB.top AABB.bottom AABB.setBounds] in H.
  change (truncate 0) with 0%Z in H. change (truncate 300) with 300%Z in H.
  change (truncate 10) with 10%Z in H.
  specialize (H ltac:(lia) ltac:(lia) ltac:(lia) ltac:(lia) ltac:(lra) ltac:(lra)).
  intros cells. split; [exact (proj1 H) | reflexivity].
Defined.

Lemma lxor_shifted (y x : Z) :
  (0 <= x < 2 ^ 16)%Z -> Z.lxor (y * 2 ^ 16) x = (y * 2 ^ 16 + x)%Z.
Proof.
  intros Hx. symmetry. apply Z.add_nocarry_lxor.
  apply Z.bits_inj'. intros n Hn. rewrite Z.land_spec, Z.bits_0.
  destruct (Z.lt_ge_cases n 16) as [Hlt|Hge].
  - rewrite <- Z.shiftl_mul_pow2 by lia. rewrite Z.shiftl_spec_low by exact Hlt. reflexivity.
  - assert (Hbit : Z.testbit x n = false).
    { destruct (Z.eq_dec x 0%Z) as [->|Hx0]; [apply Z.bits_0|].
      apply Z.bits_above_log2; [lia|].
      assert (Z.log2 x < 16)%Z by (apply Z.log2_lt_pow2; lia). lia. }
    rewrite Hbit. apply andb_false_r.
Qed.

Lemma cellKey_small (x y : Z) :
  (0 <= x < 2 ^ 16)%Z -> (- 2 ^ 15 <= y < 2 ^ 15)%Z ->
  cellKey x y = ((y * 2 ^ 16 + x) mod 2 ^ 32)%Z.
Proof.
  intros Hx Hy. unfold cellKey.
  rewrite (wrap32_small y) by lia. rewrite (wrap32_small (y * 2 ^ 16)) by lia.
  rewrite (wrap32_small x) by lia. now rewrite lxor_shifted.
Qed.

Lemma packed_inj (x y x' y' : Z) :
  (0 <= x < 2 ^ 16)%Z -> (- 2 ^ 15 <= y < 2 ^ 15)%Z ->
  (0 <= x' < 2 ^ 16)%Z -> (- 2 ^ 15 <= y' < 2 ^ 15)%Z ->
  ((y * 2 ^ 16 + x) mod 2 ^ 32 = (y' * 2 ^ 16 + x') mod 2 ^ 32)%Z -> x = x' /\ y = y'.
Proof.
  intros Hx Hy Hx' Hy' Hkey.
  assert (Heq : (y * 2 ^ 16 + x = y' * 2 ^ 16 + x')%Z).
  { rewrite !Z.mod_eq in Hkey by lia.
    assert (((y * 2 ^ 16 + x) / 2 ^ 32 = -1 \/ (y * 2 ^ 16 + x) / 2 ^ 32 = 0)%Z).
    { pose proof (Z.div_le_lower_bound (y * 2 ^ 16 + x) (2 ^ 32) (-1) ltac:(lia) ltac:(lia)).
      pose proof (Z.div_lt_upper_bound (y * 2 ^ 16 + x) (2 ^ 32) 1 ltac:(lia) ltac:(lia)). lia. }
    assert (((y' * 2 ^ 16 + x') / 2 ^ 32 = -1 \/ (y' * 2 ^ 16 + x') / 2 ^ 32 = 0)%Z).
    { pose proof (Z.div_le_lower_bound (y' * 2 ^ 16 + x') (2 ^ 32) (-1) ltac:(lia) ltac:(lia)).
      pose proof (Z.div_lt_upper_bound (y' * 2 ^ 16 + x') (2 ^ 32) 1 ltac:(lia) ltac:(lia)). lia. }
    pose proof (Z.div_lt_upper_bound (y * 2 ^ 16 + x) (2 ^ 32) 0 ltac:(lia)).
    pose proof (Z.div_lt_upper_bound (y' * 2 ^ 16 + x') (2 ^ 32) 0 ltac:(lia)).
    pose proof (Z.div_le_lower_bound (y * 2 ^ 16 + x) (2 ^ 32) 0 ltac:(lia)).
    pose proof (Z.div_le_lower_bound (y' * 2 ^ 16 + x') (2 ^ 32) 0 ltac:(lia)).
    lia. }
  lia.
Qed.

(** X3: cells whose column is in [0, 2^16) and whose row is in
    [-2^15, 2^15) have distinct keys [((y << 16) ^ x) >>> 0]. *)
Theorem cellKey_injective (x y x' y' : Z) :
  (0 <= x < 2 ^ 16)%Z -> (- 2 ^ 15 <= y < 2 ^ 15)%Z ->
  (0 <= x' < 2 ^ 16)%Z -> (- 2 ^ 15 <= y' < 2 ^ 15)%Z ->
  cellKey x y = cellKey x' y' -> x = x' /\ y = y'.
Proof.
  intros Hx Hy Hx' Hy' Hkey. rewrite !cellKey_small in Hkey by assumption.
  now apply packed_inj.
Qed.

Lemma cellKey_injective_witness :
  cellKey 3 (-2) = cellKey 3 (-2) /\ (3 = 3 /\ -2 = -2)%Z.
Proof.
  split; [reflexivity|].
  apply (cellKey_injective 3 (-2) 3 (-2)); [lia | lia | lia | lia | reflexivity].
Defined.

(** Beyond that range keys alias: the cells (65536, 0) and (0, 1) share
    their key. *)
Example cellKey_aliases : cellKey 65536 0 = cellKey 0 1.
Proof. reflexivity. Qed.

Lemma upTo_NoDup (lo hi : Z) : List.NoDup (upTo lo hi).
Proof.
  unfold upTo. apply NoDup_map_NoDup_ForallPairs; [|apply seq_NoDup].
  intros i j _ _ H. lia.
Qed.

Lemma in_upTo (lo hi x : Z) : In x (upTo lo hi) <-> (lo <= x <= hi)%Z.
Proof.
  unfold upTo. rewrite in_map_iff. split.
  - intros (i & <- & Hi). apply in_seq in Hi. lia.
  - intros Hx. exists (Z.to_nat (x - lo)). split; [lia|]. apply in_seq. lia.
Qed.

Lemma cellsOf_NoDup (c : Cells.t) : List.NoDup (cellsOf c).
Proof.
  apply NoDup_ListNoDup. unfold cellsOf.
  apply NoDup_bind; [| |apply NoDup_ListNoDup, upTo_NoDup].
  - intros x1 x2 [x y] _ _ H1 H2.
    apply list_elem_of_bind in H1 as (y1 & H1 & _). apply list_elem_of_singleton in H1.
    apply list_elem_of_bind in H2 as (y2 & H2 & _). apply list_elem_of_singleton in H2.
    congruence.
  - intros x _. apply NoDup_bind; [| |apply NoDup_ListNoDup, upTo_NoDup].
    + intros y1 y2 [x' y] _ _ H1 H2.
      apply list_elem_of_singleton in H1. apply list_elem_of_singleton in H2. congruence.
    + intros y _. apply NoDup_singleton.
Qed.

(** The cells a box covers have distinct keys when its columns are in
    [0, 2^16) and its rows in [-2^15, 2^15). *)
Lemma keysOf_NoDup (gb : Z) (aabb : AABB.t) :
  (0 <= Cells.left (mapDown gb aabb))%Z -> (Cells.right (mapDown gb aabb) < 2 ^ 16)%Z ->
  (- 2 ^ 15 <= Cells.top (mapDown gb aabb))%Z -> (Cells.bottom (mapDown gb aabb) < 2 ^ 15)%Z ->
  List.NoDup (keysOf gb aabb).
Proof.
  intros Hl Hr Ht Hb. unfold keysOf.
  apply NoDup_map_NoDup_ForallPairs; [|apply cellsOf_NoDup].
  intros [x y] [x' y'] Hin Hin' Hkey. cbn [fst snd] in Hkey.
  apply in_cellsOf in Hin as [Hx Hy]. apply in_cellsOf in Hin' as [Hx' Hy'].
  apply in_upTo in Hx, Hy, Hx', Hy'.
  rewrite !cellKey_small in Hkey by lia.
  destruct (packed_inj x y x' y') as [-> ->]; try lia. reflexivity.
Qed.

(** ** The bookkeeping of the index *)

Lemma occurrences_setGrid_other (e : nat) (key k : Z) (type : string) (lst : gmap string (list nat))
    (w : World) :
  k <> key ->
  occurrences e k type (setGrid (<[key := lst]> (againstGrid w)) w) = occurrences e k type w.
Proof.
  intros Hk. unfold occurrences. cbn [againstGrid setGrid].
  now rewrite lookup_insert_ne by congruence.
Qed.

Lemma count_occ_removeFirst (e e' : nat) (arr : list nat) :
  count_occ Nat.eq_dec (removeFirst e arr) e'
  = (count_occ Nat.eq_dec arr e' - (if Nat.eq_dec e e' then 1 else 0))%nat.
Proof.
  induction arr as [|a arr IH]; [now destruct (Nat.eq_dec e e')|].
  cbn [removeFirst]. destruct (Nat.eqb_spec a e) as [->|Hne].
  - cbn [count_occ]. destruct (Nat.eq_dec e e'); lia.
  - cbn [count_occ]. rewrite IH. destruct (Nat.eq_dec a e'), (Nat.eq_dec e e'); lia.
Qed.

Lemma existsb_count_occ (e : nat) (arr : list nat) :
  existsb (Nat.eqb e) arr = false -> count_occ Nat.eq_dec arr e = 0%nat.
Proof.
  intros H. apply count_occ_not_In. intros Hin.
  assert (existsb (Nat.eqb e) arr = true); [|congruence].
  apply existsb_exists. exists e. split; [exact Hin | apply Nat.eqb_refl].
Qed.

(** The effect of one turn of the inner loop of [removeAgainst]. *)
Lemma removeFromCell_spec (e : nat) (key : Z) (type : string) (w : World) :
  is_Some (againstGrid w !! key) ->
  exists w',
    removeFromCell e key type w = Ok tt w'
    /\ entities w' = entities w /\ gridBits w' = gridBits w
    /\ (forall k, is_Some (againstGrid w !! k) -> is_Some (againstGrid w' !! k))
    /\ forall e' k t,
         occurrences e' k t w'
         = (occurrences e' k t w
            - (if decide (e' = e /\ k = key /\ t = type) then 1 else 0))%nat.
Proof.
  intros [lst Hlst]. unfold removeFromCell, bind, get, unwrap. rewrite Hlst. unfold ret at 1.
  destruct (lst !! type) as [arr|] eqn:Harr.
  - destruct (existsb (Nat.eqb e) arr) eqn:Hex.
    + eexists. split; [reflexivity|]. split; [reflexivity|]. split; [reflexivity|]. split.
      * intros k Hk. cbn [againstGrid setGrid]. rewrite lookup_insert_is_Some.
        destruct (decide (key = k)); [now left | now right].
      * intros e' k t. destruct (decide (k = key)) as [->|Hk].
        -- unfold occurrences. cbn [againstGrid setGrid]. rewrite lookup_insert_eq, Hlst.
           destruct (decide (t = type)) as [->|Ht].
           ++ rewrite lookup_insert_eq, Harr. cbn [default id]. rewrite count_occ_removeFirst.
              case_decide as Hd; destruct (Nat.eq_dec e e') as [He|He];
                first [lia | exfalso; apply Hd; repeat split; congruence
                      | destruct Hd as [Hd _]; congruence].
           ++ rewrite lookup_insert_ne by congruence.
              case_decide as Hd; [destruct Hd as (_ & _ & Hd); congruence | lia].
        -- rewrite occurrences_setGrid_other by exact Hk.
           case_decide as Hd; [destruct Hd as (_ & Hd & _); congruence | lia].
    + exists w. repeat split; try reflexivity; [auto|].
      intros e' k t. case_decide as Hd; [|lia]. destruct Hd as (-> & -> & ->).
      unfold occurrences. rewrite Hlst, Harr. cbn [default id].
      rewrite (existsb_count_occ e arr Hex). reflexivity.
  - exists w. repeat split; try reflexivity; [auto|].
    intros e' k t. case_decide as Hd; [|lia]. destruct Hd as (-> & -> & ->).
    unfold occurrences. rewrite Hlst, Harr. reflexivity.
Qed.

(** A loop whose turns transform an index [x] of the invariant. *)
Lemma returns_forEach_fold {A X : Type} (P : X -> World -> Prop) (step : X -> A -> X)
    (l : list A) (f : A -> M unit) (x : X) :
  (forall a x', In a l -> returns (P x') (f a) (fun _ => P (step x' a))) ->
  returns (P x) (forEach l f) (fun _ => P (fold_left step l x)).
Proof.
  unfold forEach. revert x. induction l as [|a l IH]; intros x Hf; simpl.
  - now apply returns_ret.
  - eapply returns_bind; [apply Hf; now left|].
    intros []. apply IH. intros a' x' Ha'. apply Hf. now right.
Qed.

Section IndexLoops.

Variables (gb : Z) (e : nat) (ent : Entity.t) (rest : gmap nat Entity.t).

Lemma indexIs_ext cells ag f g w :
  (forall e' k t, f e' k t = g e' k t) ->
  indexIs gb e ent rest cells ag f w -> indexIs gb e ent rest cells ag g w.
Proof.
  intros Hfg (H1 & H2 & H3 & H4). repeat split; try assumption.
  intros e' k t. now rewrite H4.
Qed.

Lemma removeFromCell_index cells ag f key type :
  In key cells ->
  returns (indexIs gb e ent rest cells ag f) (removeFromCell e key type)
    (fun _ => indexIs gb e ent rest cells ag (fewer e key type 1 f)).
Proof.
  intros Hkey w (H1 & H2 & H3 & H4).
  destruct (removeFromCell_spec e key type w (H3 key Hkey)) as (w' & Hrun & He & Hg & Hd & Ho).
  exists tt, w'. split; [exact Hrun|]. repeat split.
  - congruence.
  - congruence.
  - intros k Hk. apply Hd. now apply H3.
  - intros e' k t. rewrite Ho, H4. reflexivity.
Qed.

Lemma fold_fewer (l : list string) (key : Z) f e' k t :
  fold_left (fun g type => fewer e key type 1 g) l f e' k t
  = (f e' k t - (if decide (e' = e /\ k = key) then count_occ string_dec l t else 0))%nat.
Proof.
  revert f. induction l as [|type l IH]; intros f; cbn [fold_left count_occ].
  - case_decide; lia.
  - rewrite IH. unfold fewer.
    destruct (string_dec type t) as [->|Hne]; repeat case_decide; try lia;
      try (exfalso; intuition congruence).
Qed.

(** The inner loop of [removeAgainst] for one cell. *)
Lemma removeFromCells_index cells ag f key (types : list string) :
  In key cells ->
  returns (indexIs gb e ent rest cells ag f)
    (whileDown types (removeFromCell e key))
    (fun _ => indexIs gb e ent rest cells ag
                (fun e' k t =>
                   (f e' k t - (if decide (e' = e /\ k = key)
                                then count_occ string_dec types t else 0))%nat)).
Proof.
  intros Hkey w Hw. unfold whileDown.
  destruct (returns_forEach_fold (indexIs gb e ent rest cells ag)
              (fun g type => fewer e key type 1 g) (rev types) (removeFromCell e key) f)
    with (w := w) as (u & w' & Hrun & Hw').
  - intros type g _. now apply removeFromCell_index.
  - exact Hw.
  - exists u, w'. split; [exact Hrun|]. revert Hw'. apply indexIs_ext. intros e' k t.
    rewrite fold_fewer, count_occ_rev. reflexivity.
Qed.

Lemma fold_fewer_keys (l : list Z) (types : list string) f e' k t :
  fold_left (fun g key => fun e' k t =>
               (g e' k t - (if decide (e' = e /\ k = key)
                            then count_occ string_dec types t else 0))%nat) l f e' k t
  = (f e' k t - (if decide (e' = e)
                 then count_occ Z.eq_dec l k * count_occ string_dec types t else 0))%nat.
Proof.
  revert f. induction l as [|key l IH]; intros f; cbn [fold_left count_occ].
  - case_decide; lia.
  - rewrite IH.
    destruct (Z.eq_dec key k) as [->|Hne]; repeat case_decide; try lia;
      try (exfalso; intuition congruence).
Qed.

(** [removeAgainst] takes the entity out of the lists of the cells it
    holds, once for each cell and each of its types, and leaves it holding
    no cell. *)
Lemma removeAgainst_index cells ag f (types : list string) :
  Entity.collisionTypes ent = Some types ->
  (forall key, In key ag -> In key cells) ->
  returns (indexIs gb e ent rest cells ag f) (removeAgainst e)
    (fun _ => indexIs gb e ent rest cells []
                (fun e' k t =>
                   (f e' k t - (if decide (e' = e)
                                then count_occ Z.eq_dec ag k * count_occ string_dec types t
                                else 0))%nat)).
Proof.
  intros Htypes Hag w Hw. pose proof Hw as (H1 & H2 & H3 & H4).
  rewrite removeAgainst_unfold, H2, lookup_insert_eq.
  cbn [Entity.againstGrid Entity.collisionTypes Entity.setAgainstGrid]. rewrite Htypes.
  pose proof (returns_forEach_fold (indexIs gb e ent rest cells ag)
                (fun g key => fun e' k t =>
                   (g e' k t - (if decide (e' = e /\ k = key)
                                then count_occ string_dec types t else 0))%nat)
                (rev ag) (fun key => whileDown types (removeFromCell e key)) f) as Hloop.
  destruct Hloop with (w := w) as ([] & w1 & Hrun & Hw1).
  - intros key g Hkey. apply removeFromCells_index. apply Hag. now apply in_rev.
  - exact Hw.
  - unfold bind, whileDown at 1. rewrite Hrun. eexists tt, _. split; [reflexivity|].
    destruct Hw1 as (G1 & G2 & G3 & G4). repeat split.
    + exact G1.
    + cbn [entities setEntities]. rewrite G2, alter_insert_eq. reflexivity.
    + exact G3.
    + intros e' k t. change (occurrences e' k t (setEntities _ w1)) with (occurrences e' k t w1).
      rewrite G4, fold_fewer_keys, count_occ_rev. reflexivity.
Qed.


Lemma pushEntity_index cells ag f cid type :
  In cid cells ->
  returns (indexIs gb e ent rest cells ag f) (pushEntity e cid type)
    (fun _ => indexIs gb e ent rest cells ag (more e cid type 1 f)).
Proof.
  intros Hid. apply returns_modify. intros w (H1 & H2 & H3 & H4).
  destruct (H3 cid Hid) as [lst Hlst].
  repeat split.
  - exact H1.
  - exact H2.
  - intros k Hk. cbn [againstGrid setGrid].
    destruct (decide (k = cid)) as [->|Hne].
    + rewrite lookup_alter_eq, Hlst. now eexists.
    + rewrite lookup_alter_ne by congruence. now apply H3.
  - intros e' k t. unfold more. rewrite <- H4. unfold occurrences. cbn [againstGrid setGrid].
    destruct (decide (k = cid)) as [->|Hne].
    + rewrite lookup_alter_eq, Hlst. cbn [fmap option_fmap option_map].
      destruct (decide (t = type)) as [->|Hnt].
      * rewrite lookup_insert_eq. cbn [default id]. rewrite count_occ_app. cbn [count_occ].
        destruct (Nat.eq_dec e e'); case_decide; try lia; naive_solver.
      * rewrite lookup_insert_ne by congruence.
        case_decide; [naive_solver | lia].
    + rewrite lookup_alter_ne by congruence.
      case_decide; [naive_solver | lia].
Qed.

Lemma fold_more (l : list string) (key : Z) f e' k t :
  fold_left (fun g type => more e key type 1 g) l f e' k t
  = (f e' k t + (if decide (e' = e /\ k = key) then count_occ string_dec l t else 0))%nat.
Proof.
  revert f. induction l as [|type l IH]; intros f; cbn [fold_left count_occ].
  - case_decide; lia.
  - rewrite IH. unfold more.
    destruct (string_dec type t) as [->|Hne]; repeat case_decide; try lia;
      try (exfalso; intuition congruence).
Qed.

(** One turn of the inner [for] loop of [updateAgainst]: the cell exists
    afterwards, holds the entity once more for each of its types, and is
    appended to the cells the entity holds. *)
Lemma insertIntoCell_index cells ag f (types : list string) cell :
  returns (indexIs gb e ent rest cells ag f) (insertIntoCell e types cell)
    (fun _ => indexIs gb e ent rest (cellKey (fst cell) (snd cell) :: cells)
                (ag ++ [cellKey (fst cell) (snd cell)])
                (fun e' k t =>
                   (f e' k t + (if decide (e' = e /\ k = cellKey (fst cell) (snd cell))
                                then count_occ string_dec types t else 0))%nat)).
Proof.
  unfold insertIntoCell. set (cid := cellKey (fst cell) (snd cell)). cbv zeta.
  eapply returns_bind with (I := fun _ => indexIs gb e ent rest (cid :: cells) ag f).
  { apply returns_modify. intros w (H1 & H2 & H3 & H4).
    destruct (againstGrid w !! cid) as [lst|] eqn:Hlst.
    - repeat split; try assumption.
      intros k [<-|Hk]; [rewrite Hlst; now eexists | now apply H3].
    - repeat split; try assumption.
      + intros k Hk. cbn [againstGrid setGrid].
        destruct (decide (k = cid)) as [->|Hne].
        * rewrite lookup_insert_eq. now eexists.
        * rewrite lookup_insert_ne by congruence.
          destruct Hk as [Hk|Hk]; [congruence | now apply H3].
      + intros e' k t. rewrite <- H4. unfold occurrences. cbn [againstGrid setGrid].
        destruct (decide (k = cid)) as [->|Hne].
        * rewrite lookup_insert_eq, Hlst. rewrite lookup_empty. reflexivity.
        * rewrite lookup_insert_ne by congruence. reflexivity. }
  intros _.
  eapply returns_bind with
    (I := fun _ => indexIs gb e ent rest (cid :: cells) ag
                     (fun e' k t =>
                        (f e' k t + (if decide (e' = e /\ k = cid)
                                     then count_occ string_dec types t else 0))%nat)).
  { intros w Hw. unfold whileDown.
    destruct (returns_forEach_fold (indexIs gb e ent rest (cid :: cells) ag)
                (fun g type => more e cid type 1 g) (rev types) (pushEntity e cid) f)
      with (w := w) as (u & w' & Hrun & Hw').
    - intros type g _. apply pushEntity_index. now left.
    - exact Hw.
    - exists u, w'. split; [exact Hrun|]. revert Hw'. apply indexIs_ext. intros e' k t.
      rewrite fold_more, count_occ_rev. reflexivity. }
  intros _. apply returns_modify. intros w (H1 & H2 & H3 & H4).
  repeat split; try assumption.
  cbn [entities setEntities]. rewrite H2, alter_insert_eq. reflexivity.
Qed.

Lemma fold_more_cells (l : list (Z * Z)) (types : list string) cells ag f :
  fold_left (fun (x : list Z * list Z * (nat -> Z -> string -> nat)) cell =>
               let '(cells, ag, f) := x in
               (cellKey (fst cell) (snd cell) :: cells,
                ag ++ [cellKey (fst cell) (snd cell)],
                fun e' k t =>
                  (f e' k t + (if decide (e' = e /\ k = cellKey (fst cell) (snd cell))
                               then count_occ string_dec types t else 0))%nat))
            l (cells, ag, f)
  = (rev (map (fun cell => cellKey (fst cell) (snd cell)) l) ++ cells,
     ag ++ map (fun cell => cellKey (fst cell) (snd cell)) l,
     fold_left (fun f cell => fun e' k t =>
                  (f e' k t + (if decide (e' = e /\ k = cellKey (fst cell) (snd cell))
                               then count_occ string_dec types t else 0))%nat) l f).
Proof.
  revert cells ag f. induction l as [|cell l IH]; intros cells ag f; cbn [fold_left map rev].
  - now rewrite app_nil_r.
  - rewrite IH. rewrite <- !app_assoc. reflexivity.
Qed.

Lemma fold_more_keys (l : list (Z * Z)) (types : list string) f e' k t :
  fold_left (fun f cell => fun e' k t =>
               (f e' k t + (if decide (e' = e /\ k = cellKey (fst cell) (snd cell))
                            then count_occ string_dec types t else 0))%nat) l f e' k t
  = (f e' k t
     + (if decide (e' = e)
        then count_occ Z.eq_dec (map (fun cell => cellKey (fst cell) (snd cell)) l) k
             * count_occ string_dec types t
        else 0))%nat.
Proof.
  revert f. induction l as [|cell l IH]; intros f; cbn [fold_left map count_occ].
  - case_decide; lia.
  - rewrite IH.
    destruct (Z.eq_dec (cellKey (fst cell) (snd cell)) k) as [Hk|Hne];
      repeat case_decide; try lia; try (exfalso; intuition congruence).
Qed.

(** The insertion loops of [updateAgainst]. *)
Lemma insertLoop_index cells ag f (types : list string) (l : list (Z * Z)) :
  returns (indexIs gb e ent rest cells ag f) (forEach l (insertIntoCell e types))
    (fun _ w =>
       exists cells',
         indexIs gb e ent rest cells'
           (ag ++ map (fun cell => cellKey (fst cell) (snd cell)) l)
           (fun e' k t =>
              (f e' k t
               + (if decide (e' = e)
                  then count_occ Z.eq_dec (map (fun cell => cellKey (fst cell) (snd cell)) l) k
                       * count_occ string_dec types t
                  else 0))%nat) w
         /\ (forall key, In key cells -> In key cells')
         /\ forall key, In key (map (fun cell => cellKey (fst cell) (snd cell)) l) ->
               In key cells').
Proof.
  intros w Hw.
  destruct (returns_forEach_fold
              (fun x : list Z * list Z * (nat -> Z -> string -> nat) =>
                 let '(cells, ag, f) := x in indexIs gb e ent rest cells ag f)
              (fun x cell =>
                 let '(cells, ag, f) := x in
                 (cellKey (fst cell) (snd cell) :: cells,
                  ag ++ [cellKey (fst cell) (snd cell)],
                  fun e' k t =>
                    (f e' k t + (if decide (e' = e /\ k = cellKey (fst cell) (snd cell))
                                 then count_occ string_dec types t else 0))%nat))
              l (insertIntoCell e types) (cells, ag, f))
    with (w := w) as (u & w' & Hrun & Hw').
  - intros cell [[cells0 ag0] f0] _. apply insertIntoCell_index.
  - exact Hw.
  - exists u, w'. split; [exact Hrun|]. rewrite fold_more_cells in Hw'.
    exists (rev (map (fun cell => cellKey (fst cell) (snd cell)) l) ++ cells).
    split; [|split].
    + revert Hw'. apply indexIs_ext. intros e' k t. apply fold_more_keys.
    + intros key Hk. apply in_or_app. now right.
    + intros key Hk. apply in_or_app. left. now apply in_rev in Hk.
Qed.

End IndexLoops.

(** ** The index kept by [updateAgainst], [addCollisionEntity] and
    [removeCollisionEntity] *)

Lemma setAgainstGrid_same (ent : Entity.t) (ag : list Z) :
  Entity.againstGrid ent = Some ag -> Entity.setAgainstGrid (Some ag) ent = ent.
Proof. destruct ent. cbn. now intros ->. Qed.

Lemma alter_as_insert {A : Type} (f : A -> A) (m : gmap nat A) (i : nat) (x : A) :
  m !! i = Some x -> alter f i m = <[i := f x]> m.
Proof.
  intros Hx. apply map_eq. intros j. destruct (decide (j = i)) as [->|Hne].
  - now rewrite lookup_alter_eq, lookup_insert_eq, Hx.
  - now rewrite lookup_alter_ne, lookup_insert_ne by congruence.
Qed.

Lemma indexIs_start (e : nat) (ent : Entity.t) (ag : list Z) (w : World) :
  entities w !! e = Some ent ->
  Entity.againstGrid ent = Some ag ->
  (forall key, In key ag -> is_Some (againstGrid w !! key)) ->
  indexIs (gridBits w) e ent (entities w) ag ag (fun e' k t => occurrences e' k t w) w.
Proof.
  intros He Hag Hcells. repeat split; try assumption; try reflexivity.
  rewrite (setAgainstGrid_same _ _ Hag). symmetry. now apply insert_id.
Qed.

Lemma occurrences_setEntities (e : nat) (k : Z) (t : string) (E : gmap nat Entity.t)
    (w : World) :
  occurrences e k t (setEntities E w) = occurrences e k t w.
Proof. reflexivity. Qed.

(** What [removeAgainst] does to the index. *)
Lemma removeAgainst_spec (e : nat) (w : World) (ent : Entity.t) (ag : list Z)
    (types : list string) :
  entities w !! e = Some ent ->
  Entity.againstGrid ent = Some ag ->
  Entity.collisionTypes ent = Some types ->
  (forall key, In key ag -> is_Some (againstGrid w !! key)) ->
  exists w',
    removeAgainst e w = Ok tt w'
    /\ gridBits w' = gridBits w
    /\ entities w' = <[e := Entity.setAgainstGrid (Some []) ent]> (entities w)
    /\ (forall key, In key ag -> is_Some (againstGrid w' !! key))
    /\ forall e' k t,
         occurrences e' k t w'
         = (occurrences e' k t w
            - (if decide (e' = e)
               then count_occ Z.eq_dec ag k * count_occ string_dec types t else 0))%nat.
Proof.
  intros He Hag Htypes Hcells.
  destruct (removeAgainst_index (gridBits w) e ent (entities w) ag ag
              (fun e' k t => occurrences e' k t w) types Htypes (fun _ H => H) w
              (indexIs_start e ent ag w He Hag Hcells))
    as ([] & w' & Hrun & H1 & H2 & H3 & H4).
  exists w'. repeat split; assumption.
Qed.

(** What [updateAgainst] does to the index when the cells of the entity
    have changed. *)
Lemma updateAgainst_spec (e : nat) (w : World) (ent : Entity.t) (ag : list Z)
    (types : list string) (box : AABB.t) :
  entities w !! e = Some ent ->
  Entity.againstGrid ent = Some ag ->
  Entity.collisionTypes ent = Some types ->
  Entity.againstAABB ent = Some box ->
  (forall key, In key ag -> is_Some (againstGrid w !! key)) ->
  AABB_equals (Cells.toAABB (mapDown (gridBits w) (Entity.aabb ent))) box = false ->
  let keys := keysOf (gridBits w) (Entity.aabb ent) in
  exists w',
    updateAgainst e w = Ok tt w'
    /\ gridBits w' = gridBits w
    /\ entities w'
       = <[e := Entity.setAgainstGrid (Some keys)
                  (Entity.setAgainstAABB
                     (Some (Cells.toAABB (mapDown (gridBits w) (Entity.aabb ent)))) ent)]>
           (entities w)
    /\ (forall key, In key keys -> is_Some (againstGrid w' !! key))
    /\ forall e' k t,
         occurrences e' k t w'
         = (occurrences e' k t w
            - (if decide (e' = e)
               then count_occ Z.eq_dec ag k * count_occ string_dec types t else 0)
            + (if decide (e' = e)
               then count_occ Z.eq_dec keys k * count_occ string_dec types t else 0))%nat.
Proof.
  intros He Hag Htypes Hbox Hcells Hne keys.
  rewrite updateAgainst_unfold, He, Hbox. cbv zeta. rewrite Hne.
  set (box' := Cells.toAABB (mapDown (gridBits w) (Entity.aabb ent))).
  set (ent1 := Entity.setAgainstAABB (Some box') ent).
  set (w1 := setEntities (alter (Entity.setAgainstAABB (Some box')) e (entities w)) w).
  assert (He1 : entities w1 = <[e := ent1]> (entities w)).
  { subst w1. cbn [entities setEntities].
    now apply alter_as_insert. }
  assert (Hstart : indexIs (gridBits w) e ent1 (entities w) ag ag
                     (fun e' k t => occurrences e' k t w) w1).
  { repeat split; try assumption; try reflexivity.
    rewrite He1. f_equal. symmetry. now apply setAgainstGrid_same. }
  destruct (removeAgainst_index (gridBits w) e ent1 (entities w) ag ag
              (fun e' k t => occurrences e' k t w) types Htypes (fun _ H => H) w1 Hstart)
    as ([] & w2 & Hrun2 & Hw2).
  destruct (insertLoop_index (gridBits w) e ent1 (entities w) ag [] _ types
              (cellsOf (mapDown (gridBits w) (Entity.aabb ent))) w2 Hw2)
    as ([] & w3 & Hrun3 & cells' & (G1 & G2 & G3 & G4) & Hold & Hnew).
  exists w3. split; [|repeat split].
  - unfold bind. rewrite Hrun2. rewrite Htypes. cbn [unwrap ret]. exact Hrun3.
  - exact G1.
  - exact G2.
  - intros key Hkey. apply G3. now apply Hnew.
  - intros e' k t. rewrite G4. reflexivity.
Qed.

Lemma tracked_unfold (e : nat) (w : World) (ent : Entity.t) :
  tracked e w -> entities w !! e = Some ent ->
  exists types box ag,
    Entity.collisionTypes ent = Some types
    /\ Entity.againstAABB ent = Some box
    /\ Entity.againstGrid ent = Some ag
    /\ (forall key, In key ag -> is_Some (againstGrid w !! key))
    /\ forall key type,
         occurrences e key type w
         = (count_occ Z.eq_dec ag key * count_occ string_dec types type)%nat.
Proof.
  intros (ent' & types & box & ag & He & H) He'. rewrite He in He'.
  injection He' as <-. now exists types, box, ag.
Qed.

Lemma addCollisionEntity_unfold (e : nat) (w : World) (ent : Entity.t) (types : list string) :
  entities w !! e = Some ent ->
  Entity.collisionTypes ent = Some types ->
  addCollisionEntity e w
  = updateAgainst e
      (setEntities
         (<[e := Entity.setAgainstAABB (Some AABB.setUp)
                   (Entity.setAgainstGrid (Some []) ent)]> (entities w)) w).
Proof.
  intros He Htypes.
  unfold addCollisionEntity, getEntity, get, updateEntity, modify, bind, unwrap, ret.
  rewrite He, Htypes. now rewrite (alter_as_insert _ _ _ _ He).
Qed.

Lemma AABB_equals_setUp (a : AABB.t) : AABB_equals a AABB.setUp = false.
Proof. unfold AABB_equals. cbn [AABB.empty AABB.setUp negb]. now rewrite andb_false_r. Qed.

(** X4: [updateAgainst] on a tracked entity returns and keeps it tracked:
    afterwards the entity occurs in the list of each of its types in each
    cell it holds, as often as it holds the cell and has the type, and
    nowhere else.  Every other entity, and its occurrences in the grid,
    are left as they were. *)
Theorem updateAgainst_keeps_index (e : nat) (w : World) :
  tracked e w ->
  exists w',
    updateAgainst e w = Ok tt w'
    /\ tracked e w'
    /\ forall e', e' <> e ->
         entities w' !! e' = entities w !! e'
         /\ forall key type, occurrences e' key type w' = occurrences e' key type w.
Proof.
  intros Ht. pose proof Ht as (ent & types & box & ag & He & Htypes & Hbox & Hag & Hcells & Hocc).
  destruct (AABB_equals (Cells.toAABB (mapDown (gridBits w) (Entity.aabb ent))) box) eqn:Heq.
  - exists w. split; [|split; [exact Ht | now split]].
    rewrite updateAgainst_unfold, He, Hbox. cbv zeta. now rewrite Heq.
  - destruct (updateAgainst_spec e w ent ag types box He Hag Htypes Hbox Hcells Heq)
      as (w' & Hrun & Hgb & Hents & Hnew & Hocc').
    exists w'. split; [exact Hrun|]. split.
    + eexists _, types, _, _. split; [rewrite Hents; apply lookup_insert_eq|].
      split; [exact Htypes|]. split; [reflexivity|]. split; [reflexivity|].
      split; [exact Hnew|].
      intros key type. rewrite Hocc', Hocc. rewrite !decide_True by reflexivity. lia.
    + intros e' Hne. split.
      * rewrite Hents. now rewrite lookup_insert_ne by congruence.
      * intros key type. rewrite Hocc'. rewrite !decide_False by exact Hne. lia.
Qed.

(** X5: when the cells under the box of a tracked entity are not the ones
    recorded for it, [updateAgainst] records the new box, and the entity
    then holds the cells of [keysOf], in the order the two [for] loops
    visit them, and occurs in their lists accordingly. *)
Theorem updateAgainst_reindexes (e : nat) (w : World) (ent : Entity.t) (types : list string)
    (box : AABB.t) :
  tracked e w ->
  entities w !! e = Some ent ->
  Entity.collisionTypes ent = Some types ->
  Entity.againstAABB ent = Some box ->
  AABB_equals (Cells.toAABB (mapDown (gridBits w) (Entity.aabb ent))) box = false ->
  exists w' ent',
    updateAgainst e w = Ok tt w'
    /\ entities w' !! e = Some ent'
    /\ Entity.againstAABB ent'
       = Some (Cells.toAABB (mapDown (gridBits w) (Entity.aabb ent)))
    /\ Entity.againstGrid ent' = Some (keysOf (gridBits w) (Entity.aabb ent))
    /\ Entity.aabb ent' = Entity.aabb ent
    /\ forall key type,
         occurrences e key type w'
         = (count_occ Z.eq_dec (keysOf (gridBits w) (Entity.aabb ent)) key
            * count_occ string_dec types type)%nat.
Proof.
  intros Ht He Htypes Hbox Heq.
  destruct (tracked_unfold e w ent Ht He) as (types' & box' & ag & Htypes' & Hbox' & Hag & Hcells & Hocc).
  rewrite Htypes in Htypes'. injection Htypes' as <-.
  destruct (updateAgainst_spec e w ent ag types box He Hag Htypes Hbox Hcells Heq)
    as (w' & Hrun & Hgb & Hents & Hnew & Hocc').
  eexists w', _. split; [exact Hrun|]. split; [rewrite Hents; apply lookup_insert_eq|].
  split; [reflexivity|]. split; [reflexivity|]. split; [reflexivity|].
  intros key type. rewrite Hocc', Hocc. rewrite !decide_True by reflexivity. lia.
Qed.

(** X6: [addCollisionEntity] for an entity with collision types that
    occurs nowhere in the grid returns and leaves it tracked; every other
    entity, and its occurrences in the grid, are left as they were. *)
Theorem addCollisionEntity_tracks (e : nat) (w : World) (ent : Entity.t)
    (types : list string) :
  entities w !! e = Some ent ->
  Entity.collisionTypes ent = Some types ->
  absent e w ->
  exists w',
    addCollisionEntity e w = Ok tt w'
    /\ tracked e w'
    /\ forall e', e' <> e ->
         entities w' !! e' = entities w !! e'
         /\ forall key type, occurrences e' key type w' = occurrences e' key type w.
Proof.
  intros He Htypes Habs.
  set (ent1 := Entity.setAgainstAABB (Some AABB.setUp) (Entity.setAgainstGrid (Some []) ent)).
  set (w1 := setEntities (<[e := ent1]> (entities w)) w).
  assert (Hrun : addCollisionEntity e w = updateAgainst e w1)
    by exact (addCollisionEntity_unfold e w ent types He Htypes).
  destruct (updateAgainst_spec e w1 ent1 [] types AABB.setUp)
    as (w' & Hrun' & Hgb' & Hents' & Hcells' & Hocc').
  { apply lookup_insert_eq. }
  { reflexivity. }
  { exact Htypes. }
  { reflexivity. }
  { intros key []. }
  { apply AABB_equals_setUp. }
  exists w'. split; [now rewrite Hrun|]. split.
  - eexists _, types, _, _. split; [rewrite Hents'; apply lookup_insert_eq|].
    split; [exact Htypes|]. split; [reflexivity|]. split; [reflexivity|].
    split; [exact Hcells'|].
    intros key type. rewrite Hocc'. rewrite !decide_True by reflexivity.
    change (occurrences e key type w1) with (occurrences e key type w).
    rewrite (Habs key type). cbn [count_occ]. lia.
  - intros e' Hne. split.
    + rewrite Hents'. rewrite lookup_insert_ne by congruence.
      subst w1. cbn [entities setEntities]. now rewrite lookup_insert_ne by congruence.
    + intros key type. rewrite Hocc'. rewrite !decide_False by exact Hne.
      change (occurrences e' key type w1) with (occurrences e' key type w). lia.
Qed.

(** X7: [addCollisionEntity] does not look for entries the entity already
    has: for a tracked entity it forgets the cells held and indexes the
    entity again, so that the entries of before stay in the grid beside
    the new ones. *)
Theorem addCollisionEntity_again_duplicates (e : nat) (w : World) (ent : Entity.t)
    (types : list string) (ag : list Z) :
  tracked e w ->
  entities w !! e = Some ent ->
  Entity.collisionTypes ent = Some types ->
  Entity.againstGrid ent = Some ag ->
  exists w',
    addCollisionEntity e w = Ok tt w'
    /\ forall key type,
         occurrences e key type w'
         = ((count_occ Z.eq_dec ag key
             + count_occ Z.eq_dec (keysOf (gridBits w) (Entity.aabb ent)) key)
            * count_occ string_dec types type)%nat.
Proof.
  intros Ht He Htypes Hag.
  destruct (tracked_unfold e w ent Ht He) as (types' & box' & ag' & Htypes' & Hbox' & Hag' & Hcells & Hocc).
  rewrite Htypes in Htypes'. injection Htypes' as <-.
  rewrite Hag in Hag'. injection Hag' as <-.
  set (ent1 := Entity.setAgainstAABB (Some AABB.setUp) (Entity.setAgainstGrid (Some []) ent)).
  set (w1 := setEntities (<[e := ent1]> (entities w)) w).
  assert (Hrun : addCollisionEntity e w = updateAgainst e w1)
    by exact (addCollisionEntity_unfold e w ent types He Htypes).
  destruct (updateAgainst_spec e w1 ent1 [] types AABB.setUp) as (w' & Hrun' & _ & _ & _ & Hocc').
  - apply lookup_insert_eq.
  - reflexivity.
  - exact Htypes.
  - reflexivity.
  - intros key [].
  - apply AABB_equals_setUp.
  - exists w'. split; [now rewrite Hrun|]. intros key type.
    rewrite Hocc'. rewrite !decide_True by reflexivity.
    change (occurrences e key type w1) with (occurrences e key type w). rewrite Hocc.
    cbn [count_occ]. change (gridBits w1) with (gridBits w).
    change (Entity.aabb ent1) with (Entity.aabb ent). lia.
Qed.

(** X8: [removeCollisionEntity] on a tracked entity returns, takes every
    occurrence of the entity out of the grid and leaves it without cells
    and without recorded box; every other entity, and its occurrences in
    the grid, are left as they were.  Removing the entity once more
    changes nothing. *)
Theorem removeCollisionEntity_clears (e : nat) (w : World) :
  tracked e w ->
  exists w' ent',
    removeCollisionEntity e w = Ok tt w'
    /\ absent e w'
    /\ entities w' !! e = Some ent'
    /\ Entity.againstGrid ent' = None
    /\ Entity.againstAABB ent' = None
    /\ (forall e', e' <> e ->
          entities w' !! e' = entities w !! e'
          /\ forall key type, occurrences e' key type w' = occurrences e' key type w)
    /\ removeCollisionEntity e w' = Ok tt w'.
Proof.
  intros (ent & types & box & ag & He & Htypes & Hbox & Hag & Hcells & Hocc).
  destruct (removeAgainst_spec e w ent ag types He Hag Htypes Hcells)
    as (w1 & Hrun & Hgb & Hents & _ & Hocc1).
  set (ent' := Entity.setAgainstAABB None
                 (Entity.setAgainstGrid None (Entity.setAgainstGrid (Some []) ent))).
  exists (setEntities (<[e := ent']> (entities w)) w1), ent'.
  split; [|split; [|split; [|split; [|split; [|split]]]]].
  - unfold removeCollisionEntity, getEntity, get, updateEntity, modify, bind, unwrap, ret.
    rewrite He, Hag. unfold bind. rewrite Hrun. do 2 f_equal.
    rewrite Hents. now rewrite alter_insert_eq.
  - intros key type. rewrite occurrences_setEntities, Hocc1, Hocc.
    rewrite decide_True by reflexivity. lia.
  - apply lookup_insert_eq.
  - reflexivity.
  - reflexivity.
  - intros e' Hne. split.
    + cbn [entities setEntities]. now rewrite lookup_insert_ne by congruence.
    + intros key type. rewrite occurrences_setEntities, Hocc1.
      rewrite decide_False by exact Hne. lia.
  - unfold removeCollisionEntity, getEntity, get, bind, unwrap, ret.
    cbn [entities setEntities]. now rewrite lookup_insert_eq.
Qed.

(** X22: the handler of ['child-entity-updated'], [removeCollisionEntity]
    followed by [addCollisionEntity], indexes a tracked entity afresh: it
    returns, the entity is tracked and holds the cells under its box, and
    every other entity, and its occurrences in the grid, are left as they
    were. *)
Theorem childEntityUpdated_reindexes (e : nat) (w : World) (ent : Entity.t) :
  tracked e w ->
  entities w !! e = Some ent ->
  exists w' ent',
    childEntityUpdated e w = Ok tt w'
    /\ tracked e w'
    /\ entities w' !! e = Some ent'
    /\ Entity.againstGrid ent' = Some (keysOf (gridBits w) (Entity.aabb ent))
    /\ forall e', e' <> e ->
         entities w' !! e' = entities w !! e'
         /\ forall key type, occurrences e' key type w' = occurrences e' key type w.
Proof.
  intros Ht He.
  destruct (tracked_unfold e w ent Ht He) as (types & box & ag & Htypes & Hbox & Hag & Hcells & Hocc).
  destruct (removeAgainst_spec e w ent ag types He Hag Htypes Hcells)
    as (wR & HrunR & HgbR & HentsR & _ & HoccR).
  set (entR := Entity.setAgainstAABB None
                 (Entity.setAgainstGrid None (Entity.setAgainstGrid (Some []) ent))).
  set (w1 := setEntities (<[e := entR]> (entities w)) wR).
  assert (Hrun1 : removeCollisionEntity e w = Ok tt w1).
  { unfold removeCollisionEntity, getEntity, get, updateEntity, modify, bind, unwrap, ret.
    rewrite He, Hag. unfold bind. rewrite HrunR. subst w1. do 2 f_equal.
    rewrite HentsR. now rewrite alter_insert_eq. }
  set (ent1 := Entity.setAgainstAABB (Some AABB.setUp) (Entity.setAgainstGrid (Some []) entR)).
  set (w2 := setEntities (<[e := ent1]> (entities w1)) w1).
  assert (He1 : entities w1 !! e = Some entR) by apply lookup_insert_eq.
  assert (Hrun2 : addCollisionEntity e w1 = updateAgainst e w2)
    by exact (addCollisionEntity_unfold e w1 entR types He1 Htypes).
  destruct (updateAgainst_spec e w2 ent1 [] types AABB.setUp)
    as (w3 & Hrun3 & Hgb3 & Hents3 & Hcells3 & Hocc3).
  { apply lookup_insert_eq. }
  { reflexivity. }
  { exact Htypes. }
  { reflexivity. }
  { intros key []. }
  { apply AABB_equals_setUp. }
  change (gridBits w2) with (gridBits wR) in *. rewrite HgbR in *.
  change (Entity.aabb ent1) with (Entity.aabb ent) in *.
  assert (Hocc2 : forall e' k t,
             occurrences e' k t w2
             = (occurrences e' k t w
                - (if decide (e' = e)
                   then count_occ Z.eq_dec ag k * count_occ string_dec types t else 0))%nat).
  { intros e' k t. exact (HoccR e' k t). }
  eexists w3, _. split; [|split; [|split; [|split]]].
  - unfold childEntityUpdated, bind. rewrite Hrun1, Hrun2. exact Hrun3.
  - eexists _, types, _, _. split; [rewrite Hents3; apply lookup_insert_eq|].
    split; [exact Htypes|]. split; [reflexivity|]. split; [reflexivity|].
    split; [exact Hcells3|].
    intros key type. rewrite Hocc3, Hocc2, Hocc. rewrite !decide_True by reflexivity.
    cbn [count_occ]. lia.
  - rewrite Hents3. apply lookup_insert_eq.
  - reflexivity.
  - intros e' Hne. split.
    + rewrite Hents3. rewrite lookup_insert_ne by congruence.
      subst w2 w1. cbn [entities setEntities]. now rewrite !lookup_insert_ne by congruence.
    + intros key type. rewrite Hocc3, Hocc2. rewrite !decide_False by exact Hne. lia.
Qed.

(** X9: re-indexing an entity whose types are pairwise distinct and whose
    box covers columns in [0, 2^16) and rows in [-2^15, 2^15) enters it at
    most once in any list of the grid. *)
Theorem updateAgainst_no_duplicates (e : nat) (w : World) (ent : Entity.t)
    (types : list string) (box : AABB.t) :
  tracked e w ->
  entities w !! e = Some ent ->
  Entity.collisionTypes ent = Some types ->
  Entity.againstAABB ent = Some box ->
  AABB_equals (Cells.toAABB (mapDown (gridBits w) (Entity.aabb ent))) box = false ->
  List.NoDup types ->
  (0 <= Cells.left (mapDown (gridBits w) (Entity.aabb ent)))%Z ->
  (Cells.right (mapDown (gridBits w) (Entity.aabb ent)) < 2 ^ 16)%Z ->
  (- 2 ^ 15 <= Cells.top (mapDown (gridBits w) (Entity.aabb ent)))%Z ->
  (Cells.bottom (mapDown (gridBits w) (Entity.aabb ent)) < 2 ^ 15)%Z ->
  exists w',
    updateAgainst e w = Ok tt w'
    /\ forall key type, (occurrences e key type w' <= 1)%nat.
Proof.
  intros Ht He Htypes Hbox Heq Hnd Hl Hr Htop Hb.
  destruct (tracked_unfold e w ent Ht He)
    as (types' & box' & ag & Htypes' & Hbox' & Hag & Hcells & Hocc).
  rewrite Htypes in Htypes'. injection Htypes' as <-.
  destruct (updateAgainst_spec e w ent ag types box He Hag Htypes Hbox Hcells Heq)
    as (w' & Hrun & _ & _ & _ & Hocc').
  exists w'. split; [exact Hrun|]. intros key type.
  rewrite Hocc', Hocc. rewrite !decide_True by reflexivity.
  pose proof (proj1 (NoDup_count_occ string_dec types) Hnd type).
  pose proof (proj1 (NoDup_count_occ Z.eq_dec _) (keysOf_NoDup _ _ Hl Hr Htop Hb) key).
  nia.
Qed.

(** *** The worked scenario *)

Lemma absent_freshWorld : absent 1 freshWorld.
Proof. intros key type. reflexivity. Qed.

Lemma indexedWorld_grid :
  againstGrid indexedWorld
  = <[1%Z := {[ "a"%string := [1%nat] ]}]> (<[0%Z := {[ "a"%string := [1%nat] ]}]> ∅).
Proof. vm_compute. reflexivity. Qed.

Lemma occurrences_indexedWorld (key : Z) (type : string) :
  occurrences 1 key type indexedWorld
  = (count_occ Z.eq_dec [0; 1]%Z key * count_occ string_dec ["a"%string] type)%nat.
Proof.
  unfold occurrences. rewrite indexedWorld_grid. cbn [count_occ].
  destruct (Z.eq_dec 1%Z key) as [<-|H1].
  - rewrite lookup_insert_eq. destruct (Z.eq_dec 0%Z 1%Z) as [|_]; [lia|].
    destruct (string_dec "a" type) as [<-|Ha]; [reflexivity|].
    now rewrite lookup_singleton_ne by congruence.
  - rewrite lookup_insert_ne by congruence.
    destruct (Z.eq_dec 0%Z key) as [<-|H0].
    + rewrite lookup_insert_eq.
      destruct (string_dec "a" type) as [<-|Ha]; [reflexivity|].
      now rewrite lookup_singleton_ne by congruence.
    + rewrite lookup_insert_ne by congruence. rewrite lookup_empty. reflexivity.
Qed.

Lemma tracked_indexedWorld : tracked 1 indexedWorld.
Proof.
  eexists _, ["a"%string], _, [0; 1]%Z.
  split; [vm_compute; reflexivity|]. split; [reflexivity|]. split; [reflexivity|].
  split; [reflexivity|]. split.
  - intros key Hkey. rewrite indexedWorld_grid.
    destruct Hkey as [<-|[<-|[]]]; eexists; reflexivity.
  - exact occurrences_indexedWorld.
Qed.

Lemma tracked_movedWorld : tracked 1 movedWorld.
Proof.
  eexists _, ["a"%string], _, [0; 1]%Z.
  split; [vm_compute; reflexivity|]. split; [reflexivity|]. split; [reflexivity|].
  split; [reflexivity|]. split.
  - intros key Hkey. change (againstGrid movedWorld) with (againstGrid indexedWorld).
    rewrite indexedWorld_grid.
    destruct Hkey as [<-|[<-|[]]]; eexists; reflexivity.
  - exact occurrences_indexedWorld.
Qed.

Lemma movedWorld_entity : entities movedWorld !! 1%nat = Some movedEntity.
Proof. vm_compute. reflexivity. Qed.

Lemma movedEntity_types : Entity.collisionTypes movedEntity = Some ["a"%string].
Proof. reflexivity. Qed.

Lemma movedEntity_box :
  Entity.againstAABB movedEntity = Some (Cells.toAABB (Cells.mk 0 0 1 0)).
Proof. vm_compute. reflexivity. Qed.

Lemma movedEntity_differs :
  AABB_equals (Cells.toAABB (mapDown (gridBits movedWorld) (Entity.aabb movedEntity)))
    (Cells.toAABB (Cells.mk 0 0 1 0)) = false.
Proof. vm_compute. reflexivity. Qed.

Lemma movedEntity_cells :
  mapDown (gridBits movedWorld) (Entity.aabb movedEntity) = Cells.mk 1 0 2 0.
Proof. vm_compute. reflexivity. Qed.

Lemma indexedWorld_entity : entities indexedWorld !! 1%nat = Some indexedEntity.
Proof. vm_compute. reflexivity. Qed.

Lemma indexedEntity_cells : Entity.againstGrid indexedEntity = Some [0; 1]%Z.
Proof. vm_compute. reflexivity. Qed.

Lemma updateAgainst_keeps_index_witness :
  tracked 1 movedWorld
  /\ exists w',
       updateAgainst 1 movedWorld = Ok tt w'
       /\ tracked 1 w'
       /\ forall e', e' <> 1%nat ->
            entities w' !! e' = entities movedWorld !! e'
            /\ forall key type, occurrences e' key type w' = occurrences e' key type movedWorld.
Proof.
  split; [exact tracked_movedWorld|].
  exact (updateAgainst_keeps_index 1 movedWorld tracked_movedWorld).
Defined.

Lemma updateAgainst_reindexes_witness :
  tracked 1 movedWorld
  /\ exists w' ent',
       updateAgainst 1 movedWorld = Ok tt w'
       /\ entities w' !! 1%nat = Some ent'
       /\ Entity.againstAABB ent'
          = Some (Cells.toAABB (mapDown (gridBits movedWorld) (Entity.aabb movedEntity)))
       /\ Entity.againstGrid ent' = Some (keysOf (gridBits movedWorld) (Entity.aabb movedEntity))
       /\ Entity.aabb ent' = Entity.aabb movedEntity
       /\ forall key type,
            occurrences 1 key type w'
            = (count_occ Z.eq_dec (keysOf (gridBits movedWorld) (Entity.aabb movedEntity)) key
               * count_occ string_dec ["a"%string] type)%nat.
Proof.
  split; [exact tracked_movedWorld|].
  exact (updateAgainst_reindexes 1 movedWorld movedEntity ["a"%string]
           (Cells.toAABB (Cells.mk 0 0 1 0)) tracked_movedWorld movedWorld_entity
           movedEntity_types movedEntity_box movedEntity_differs).
Defined.

Lemma addCollisionEntity_tracks_witness :
  absent 1 freshWorld
  /\ exists w',
       addCollisionEntity 1 freshWorld = Ok tt w'
       /\ tracked 1 w'
       /\ forall e', e' <> 1%nat ->
            entities w' !! e' = entities freshWorld !! e'
            /\ forall key type, occurrences e' key type w' = occurrences e' key type freshWorld.
Proof.
  split; [exact absent_freshWorld|].
  exact (addCollisionEntity_tracks 1 freshWorld entityA ["a"%string] eq_refl eq_refl
           absent_freshWorld).
Defined.

Lemma addCollisionEntity_again_duplicates_witness :
  tracked 1 indexedWorld
  /\ exists w',
       addCollisionEntity 1 indexedWorld = Ok tt w'
       /\ forall key type,
            occurrences 1 key type w'
            = ((count_occ Z.eq_dec [0; 1]%Z key
                + count_occ Z.eq_dec
                    (keysOf (gridBits indexedWorld) (Entity.aabb indexedEntity)) key)
               * count_occ string_dec ["a"%string] type)%nat.
Proof.
  split; [exact tracked_indexedWorld|].
  exact (addCollisionEntity_again_duplicates 1 indexedWorld indexedEntity ["a"%string]
           [0; 1]%Z tracked_indexedWorld indexedWorld_entity eq_refl indexedEntity_cells).
Defined.

(** Entity 1 of [indexedWorld], added once more, is twice in the list of
    type ["a"] of each of its two cells. *)
Example indexedWorld_added_again :
  let w := after (addCollisionEntity 1) indexedWorld in
  (occurrences 1 0 "a" w, occurrences 1 1 "a" w) = (2, 2)%nat.
Proof. vm_compute. reflexivity. Qed.

Lemma removeCollisionEntity_clears_witness :
  tracked 1 indexedWorld
  /\ exists w' ent',
       removeCollisionEntity 1 indexedWorld = Ok tt w'
       /\ absent 1 w'
       /\ entities w' !! 1%nat = Some ent'
       /\ Entity.againstGrid ent' = None
       /\ Entity.againstAABB ent' = None
       /\ (forall e', e' <> 1%nat ->
             entities w' !! e' = entities indexedWorld !! e'
             /\ forall key type,
                  occurrences e' key type w' = occurrences e' key type indexedWorld)
       /\ removeCollisionEntity 1 w' = Ok tt w'.
Proof.
  split; [exact tracked_indexedWorld|].
  exact (removeCollisionEntity_clears 1 indexedWorld tracked_indexedWorld).
Defined.

Lemma updateAgainst_no_duplicates_witness :
  tracked 1 movedWorld
  /\ exists w',
       updateAgainst 1 movedWorld = Ok tt w'
       /\ forall key type, (occurrences 1 key type w' <= 1)%nat.
Proof.
  split; [exact tracked_movedWorld|].
  pose proof movedEntity_cells as Hc.
  refine (updateAgainst_no_duplicates 1 movedWorld movedEntity ["a"%string]
            (Cells.toAABB (Cells.mk 0 0 1 0)) tracked_movedWorld movedWorld_entity
            movedEntity_types movedEntity_box movedEntity_differs _ _ _ _ _).
  - repeat constructor. intros [].
  - rewrite Hc. cbn [Cells.left]. lia.
  - rewrite Hc. cbn [Cells.right]. lia.
  - rewrite Hc. cbn [Cells.top]. lia.
  - rewrite Hc. cbn [Cells.bottom]. lia.
Defined.

Lemma childEntityUpdated_reindexes_witness :
  tracked 1 movedWorld
  /\ exists w' ent',
       childEntityUpdated 1 movedWorld = Ok tt w'
       /\ tracked 1 w'
       /\ entities w' !! 1%nat = Some ent'
       /\ Entity.againstGrid ent'
          = Some (keysOf (gridBits movedWorld) (Entity.aabb movedEntity))
       /\ forall e', e' <> 1%nat ->
            entities w' !! e' = entities movedWorld !! e'
            /\ forall key type,
                 occurrences e' key type w' = occurrences e' key type movedWorld.
Proof.
  split; [exact tracked_movedWorld|].
  exact (childEntityUpdated_reindexes 1 movedWorld movedEntity tracked_movedWorld
           movedWorld_entity).
Defined.
(** ** Re-indexing twice *)





(** ** What the queries of the grid find *)

Lemma in_union (x : nat) (tList arr : list nat) :
  In x (union tList arr) <-> In x tList \/ In x arr.
Proof.
  unfold union. revert tList. induction arr as [|a arr IH]; intros tList; cbn [fold_left].
  - cbn [In]. tauto.
  - rewrite IH. destruct (existsb (Nat.eqb a) tList) eqn:Hex.
    + apply existsb_exists in Hex as (b & Hb & Hab). apply Nat.eqb_eq in Hab. subst b.
      cbn [In]. split; [tauto|]. intros [H|[<-|H]]; tauto.
    + rewrite in_app_iff. cbn [In]. tauto.
Qed.

Lemma listed_collectType (x : nat) (t type : string) (lst data : gmap string (list nat)) :
  listed x t (collectType lst data type)
  <-> listed x t data \/ (t = type /\ In x (default [] (lst !! type))).
Proof.
  unfold listed, collectType.
  destruct (lst !! type) as [[|a arr]|] eqn:Hlst; cbn [default id In]; try tauto.
  destruct (decide (t = type)) as [->|Hne].
  - destruct (data !! type) as [tList|] eqn:Hdata.
    + rewrite lookup_insert_eq. cbn [default id]. rewrite in_union. cbn [In]. tauto.
    + rewrite lookup_insert_eq. cbn [default id In]. tauto.
  - destruct (data !! type) as [tList|] eqn:Hdata;
      rewrite lookup_insert_ne by congruence; tauto.
Qed.

Lemma listed_collectCell (x : nat) (t : string) (types : list string)
    (lst data : gmap string (list nat)) :
  listed x t (collectCell types lst data)
  <-> listed x t data \/ (In t types /\ In x (default [] (lst !! t))).
Proof.
  unfold collectCell.
  assert (H : forall l data,
             listed x t (fold_left (collectType lst) l data)
             <-> listed x t data \/ (In t l /\ In x (default [] (lst !! t)))).
  { induction l as [|type l IH]; intros data'; cbn [fold_left In]; [tauto|].
    rewrite IH, listed_collectType. split.
    - intros [[H|[-> H]]|[H1 H2]]; tauto.
    - intros [H|[[->|H1] H2]]; tauto. }
  rewrite H. rewrite <- in_rev. reflexivity.
Qed.

Lemma occurrences_pos (x : nat) (key : Z) (t : string) (w : World) (lst : gmap string (list nat)) :
  againstGrid w !! key = Some lst ->
  (0 < occurrences x key t w)%nat <-> In x (default [] (lst !! t)).
Proof.
  intros Hlst. unfold occurrences. rewrite Hlst. symmetry. apply count_occ_In.
Qed.

Lemma occurrences_missing (x : nat) (key : Z) (t : string) (w : World) :
  againstGrid w !! key = None -> occurrences x key t w = 0%nat.
Proof. intros H. unfold occurrences. now rewrite H. Qed.

Lemma foldM_cells_listed (types : list string) (w : World) (keys : list Z)
    (data : gmap string (list nat)) :
  (forall key, In key keys -> is_Some (againstGrid w !! key)) ->
  exists data',
    foldM (fun key data =>
             lst <- unwrap (againstGrid w !! key) ;;
             ret (collectCell types lst data))
          keys data w = Ok data' w
    /\ forall x t, listed x t data' <-> listed x t data \/ (In t types /\ heldIn x t keys w).
Proof.
  revert data. induction keys as [|key keys IH]; intros data Hkeys.
  - exists data. split; [reflexivity|]. intros x t. split; [tauto|].
    intros [H|[_ (key & [] & _)]]. exact H.
  - destruct (Hkeys key) as [lst Hlst]; [now left|].
    destruct (IH (collectCell types lst data)) as (data' & Hrun & Hdata').
    { intros k Hk. apply Hkeys. now right. }
    exists data'. split.
    + cbn [foldM]. unfold bind at 1 2. rewrite Hlst. unfold unwrap, ret at 1 2. exact Hrun.
    + intros x t. rewrite Hdata', listed_collectCell. split.
      * intros [[H|[Ht Hx]]|[Ht (k & Hk & Hx)]]; [tauto| |].
        -- right. split; [exact Ht|]. exists key. split; [now left|].
           now apply (occurrences_pos x key t w lst Hlst).
        -- right. split; [exact Ht|]. exists k. split; [now right | exact Hx].
      * intros [H|[Ht (k & [<-|Hk] & Hx)]]; [tauto| |].
        -- left. right. split; [exact Ht|]. now apply (occurrences_pos x key t w lst Hlst).
        -- right. split; [exact Ht|]. now exists k.
Qed.

Lemma fold_cells_listed (types : list string) (w : World) (cells : list (Z * Z))
    (data : gmap string (list nat)) (x : nat) (t : string) :
  listed x t
    (fold_left
       (fun data cell =>
          match againstGrid w !! cellKey (fst cell) (snd cell) with
          | Some lst => collectCell types lst data
          | None => data
          end) cells data)
  <-> listed x t data
      \/ (In t types
          /\ heldIn x t (map (fun cell => cellKey (fst cell) (snd cell)) cells) w).
Proof.
  revert data. induction cells as [|cell cells IH]; intros data; cbn [fold_left map].
  - split; [tauto|]. intros [H|[_ (key & [] & _)]]. exact H.
  - rewrite IH. destruct (againstGrid w !! cellKey (fst cell) (snd cell)) as [lst|] eqn:Hlst.
    + rewrite listed_collectCell. split.
      * intros [[H|[Ht Hx]]|[Ht (k & Hk & Hx)]]; [tauto| |].
        -- right. split; [exact Ht|]. eexists. split; [now left|].
           now apply (occurrences_pos x _ t w lst Hlst).
        -- right. split; [exact Ht|]. exists k. split; [now right | exact Hx].
      * intros [H|[Ht (k & [<-|Hk] & Hx)]]; [tauto| |].
        -- left. right. split; [exact Ht|]. now apply (occurrences_pos x _ t w lst Hlst).
        -- right. split; [exact Ht|]. now exists k.
    + split.
      * intros [H|[Ht (k & Hk & Hx)]]; [tauto|].
        right. split; [exact Ht|]. exists k. split; [now right | exact Hx].
      * intros [H|[Ht (k & [<-|Hk] & Hx)]]; [tauto| |].
        -- rewrite (occurrences_missing x _ t w Hlst) in Hx. lia.
        -- right. split; [exact Ht|]. now exists k.
Qed.

Lemma listed_empty (x : nat) (t : string) : ~ listed x t ∅.
Proof. unfold listed. rewrite lookup_empty. intros []. Qed.

Lemma heldIn_rev (x : nat) (t : string) (keys : list Z) (w : World) :
  heldIn x t (rev keys) w <-> heldIn x t keys w.
Proof.
  unfold heldIn. split; intros (key & Hk & Hx); exists key; (split; [|exact Hx]).
  - now apply in_rev.
  - now apply in_rev in Hk.
Qed.

(** X10: for a registered entity, [getEntityAgainstGrid] returns, leaves
    the world as it was, and lists an entity under a type exactly when the
    type was requested and a cell held by the registered entity has it in
    its list of that type. *)
Theorem getEntityAgainstGrid_lists (e : nat) (types : list string) (w : World)
    (ent : Entity.t) (ag : list Z) :
  entities w !! e = Some ent ->
  Entity.againstGrid ent = Some ag ->
  (forall key, In key ag -> is_Some (againstGrid w !! key)) ->
  exists data,
    getEntityAgainstGrid e types w = Ok data w
    /\ forall x t, listed x t data <-> In t types /\ heldIn x t ag w.
Proof.
  intros He Hag Hcells.
  destruct (foldM_cells_listed types w (rev ag) ∅) as (data & Hrun & Hdata).
  { intros key Hkey. apply Hcells. now apply in_rev. }
  exists data. split; [now rewrite getEntityAgainstGrid_unfold, He, Hag|].
  intros x t. rewrite Hdata, heldIn_rev. pose proof (listed_empty x t). tauto.
Qed.

(** X11: for a box that is not the one recorded for the entity,
    [getAgainstGrid] returns, leaves the world as it was, and lists an
    entity under a type exactly when the type was requested and a cell
    under the box has it in its list of that type; cells the grid does not
    have are passed over. *)
Theorem getAgainstGrid_lists (e : nat) (sweep : AABB.t) (types : list string) (w : World)
    (ent : Entity.t) (box : AABB.t) :
  entities w !! e = Some ent ->
  Entity.againstAABB ent = Some box ->
  AABB_equals sweep box = false ->
  exists data,
    getAgainstGrid e sweep types w = Ok data w
    /\ forall x t, listed x t data <-> In t types /\ heldIn x t (keysOf (gridBits w) sweep) w.
Proof.
  intros He Hbox Hne. eexists. split.
  - rewrite getAgainstGrid_unfold, He, Hbox, Hne. reflexivity.
  - intros x t. rewrite fold_cells_listed. pose proof (listed_empty x t).
    unfold keysOf. tauto.
Qed.

(** X12: a tracked entity that shares a cell with the registered entity
    [e] and has one of the requested types is listed under that type by
    [getEntityAgainstGrid]; the entity [e] itself is no exception. *)
Theorem getEntityAgainstGrid_lists_neighbours (e e' : nat) (types : list string) (w : World)
    (ent ent' : Entity.t) (ag ag' : list Z) (types' : list string) (key : Z) (t : string) :
  entities w !! e = Some ent ->
  Entity.againstGrid ent = Some ag ->
  (forall k, In k ag -> is_Some (againstGrid w !! k)) ->
  tracked e' w ->
  entities w !! e' = Some ent' ->
  Entity.againstGrid ent' = Some ag' ->
  Entity.collisionTypes ent' = Some types' ->
  In key ag -> In key ag' ->
  In t types' -> In t types ->
  exists data,
    getEntityAgainstGrid e types w = Ok data w /\ listed e' t data.
Proof.
  intros He Hag Hcells Ht' He' Hag' Htypes' Hk Hk' Htt' Htt.
  destruct (tracked_unfold e' w ent' Ht' He')
    as (ts & box & ag0 & Hts & _ & Hag0 & _ & Hocc).
  rewrite Hag' in Hag0. injection Hag0 as <-. rewrite Htypes' in Hts. injection Hts as <-.
  destruct (foldM_cells_listed types w (rev ag) ∅) as (data & Hrun & Hdata).
  { intros k Hin. apply Hcells. now apply in_rev. }
  exists data. split; [now rewrite getEntityAgainstGrid_unfold, He, Hag|].
  apply Hdata. right. split; [exact Htt|]. apply heldIn_rev. exists key. split; [exact Hk|].
  rewrite Hocc.
  apply (count_occ_In Z.eq_dec) in Hk'. apply (count_occ_In string_dec) in Htt'. nia.
Qed.

Lemma indexedWorld_cells (key : Z) :
  In key [0; 1]%Z -> is_Some (againstGrid indexedWorld !! key).
Proof.
  intros Hkey. rewrite indexedWorld_grid.
  destruct Hkey as [<-|[<-|[]]]; eexists; reflexivity.
Qed.

Lemma indexedEntity_box :
  Entity.againstAABB indexedEntity = Some (Cells.toAABB (Cells.mk 0 0 1 0)).
Proof. vm_compute. reflexivity. Qed.

Lemma getEntityAgainstGrid_lists_witness :
  exists data,
    getEntityAgainstGrid 1 ["a"; "b"]%string indexedWorld = Ok data indexedWorld
    /\ forall x t,
         listed x t data <-> In t ["a"; "b"]%string /\ heldIn x t [0; 1]%Z indexedWorld.
Proof.
  exact (getEntityAgainstGrid_lists 1 ["a"; "b"]%string indexedWorld indexedEntity [0; 1]%Z
           indexedWorld_entity indexedEntity_cells indexedWorld_cells).
Defined.

Lemma getAgainstGrid_lists_witness :
  exists data,
    getAgainstGrid 1 (AABB.setBounds 256 0 700 10) ["a"%string] indexedWorld
    = Ok data indexedWorld
    /\ forall x t,
         listed x t data
         <-> In t ["a"%string]
             /\ heldIn x t (keysOf (gridBits indexedWorld) (AABB.setBounds 256 0 700 10))
                  indexedWorld.
Proof.
  exact (getAgainstGrid_lists 1 (AABB.setBounds 256 0 700 10) ["a"%string] indexedWorld
           indexedEntity (Cells.toAABB (Cells.mk 0 0 1 0))
           indexedWorld_entity indexedEntity_box eq_refl).
Defined.

Lemma getEntityAgainstGrid_lists_neighbours_witness :
  exists data,
    getEntityAgainstGrid 1 ["a"%string] indexedWorld = Ok data indexedWorld
    /\ listed 1 "a" data.
Proof.
  refine (getEntityAgainstGrid_lists_neighbours 1 1 ["a"%string] indexedWorld
            indexedEntity indexedEntity [0; 1]%Z [0; 1]%Z ["a"%string] 1%Z "a"%string
            indexedWorld_entity indexedEntity_cells indexedWorld_cells tracked_indexedWorld
            indexedWorld_entity indexedEntity_cells eq_refl _ _ _ _);
    cbn [In]; tauto.
Defined.

(** ** The lists of [checkCamera] *)

Lemma someNonEmpty_fold (map : gmap string (list string)) (l : list string) (found : bool)
    (w : World) :
  (forall type, In type l -> is_Some (map !! type)) ->
  foldM (fun type found =>
           if (found : bool) then ret true
           else
             l <- unwrap (map !! type) ;;
             ret (match l with [] => false | _ => true end))
        l found w
  = Ok (found || anyNonEmpty map l) w.
Proof.
  revert found. induction l as [|type l IH]; intros found Hl.
  - cbn [foldM anyNonEmpty existsb]. now rewrite orb_false_r.
  - cbn [foldM]. unfold bind at 1. destruct found.
    + unfold ret at 1. rewrite IH by (intros t Ht; apply Hl; now right). reflexivity.
    + destruct (Hl type) as [arr Harr]; [now left|].
      unfold bind at 1. rewrite Harr. unfold unwrap, ret at 1 2.
      rewrite IH by (intros t Ht; apply Hl; now right).
      unfold anyNonEmpty. cbn [existsb orb]. rewrite Harr. now destruct arr.
Qed.

Lemma existsb_reversed {A : Type} (f : A -> bool) (l : list A) :
  existsb f (rev l) = existsb f l.
Proof.
  induction l as [|a l IH]; [reflexivity|].
  cbn [rev existsb]. rewrite existsb_app, IH. cbn [existsb].
  rewrite orb_false_r. apply orb_comm.
Qed.

Lemma someNonEmpty_spec (map : gmap string (list string)) (types : list string) (w : World) :
  (forall type, In type types -> is_Some (map !! type)) ->
  someNonEmpty map types w = Ok (anyNonEmpty map types) w.
Proof.
  intros H. unfold someNonEmpty. rewrite someNonEmpty_fold.
  - unfold anyNonEmpty. now rewrite existsb_reversed.
  - intros type Ht. apply H. now apply in_rev.
Qed.

(** The world one turn of the loop of [checkCamera] leaves for a live
    entity. *)
Local Abbreviation classified e ent types w :=
  (let w1 := pushAllLive e w in
   let collides :=
     negb (Nat.eqb e (owner w1)) && anyNonEmpty (Entity.solidCollisionMap ent) types in
   let w2 := if collides then pushSolid e w1 else w1 in
   let w3 := if anyNonEmpty (Entity.softCollisionMap ent) types then pushSoft e w2 else w2 in
   let w4 := if collides then w3 else pushNon e w3 in
   match Entity.collisionGroup ent with
   | Some _ => pushGroup e w4
   | None => w4
   end).

Lemma classify_live (e : nat) (w : World) (ent : Entity.t) (type : string)
    (types : list string) :
  entities w !! e = Some ent ->
  Entity.collisionTypes ent = Some (type :: types) ->
  Entity.immobile ent = false ->
  (forall t, In t (type :: types) ->
     is_Some (Entity.solidCollisionMap ent !! t) /\ is_Some (Entity.softCollisionMap ent !! t)) ->
  classify e w = Ok tt (classified e ent (type :: types) w).
Proof.
  intros He Htypes Him Hmaps.
  unfold classify, getEntity, get. unfold bind at 1 2. rewrite He. unfold unwrap, ret at 1.
  rewrite Htypes, Him. cbn [negb].
  unfold bind at 1. unfold modify at 1. unfold bind at 1. unfold bind at 1.
  change (owner (pushAllLive e w)) with (owner w). cbv zeta.
  change (owner (pushAllLive e w)) with (owner w).
  destruct (Nat.eqb e (owner w)); cbn [negb andb].
  - unfold ret at 1. unfold bind at 1.
    rewrite someNonEmpty_spec by (intros t Ht; apply Hmaps; exact Ht).
    unfold bind at 1.
    destruct (anyNonEmpty (Entity.softCollisionMap ent) (type :: types));
      unfold modify, ret, bind; destruct (Entity.collisionGroup ent); reflexivity.
  - unfold bind at 1. unfold bind at 1.
    rewrite someNonEmpty_spec by (intros t Ht; apply Hmaps; exact Ht).
    unfold bind at 1.
    destruct (anyNonEmpty (Entity.solidCollisionMap ent) (type :: types)).
    + unfold modify at 1. unfold ret at 1. unfold bind at 1.
      rewrite someNonEmpty_spec by (intros t Ht; apply Hmaps; exact Ht).
      unfold bind at 1.
      destruct (anyNonEmpty (Entity.softCollisionMap ent) (type :: types));
        unfold modify, ret, bind; destruct (Entity.collisionGroup ent); reflexivity.
    + unfold ret at 1 2. unfold bind at 1.
      rewrite someNonEmpty_spec by (intros t Ht; apply Hmaps; exact Ht).
      unfold bind at 1.
      destruct (anyNonEmpty (Entity.softCollisionMap ent) (type :: types));
        unfold modify, ret, bind; destruct (Entity.collisionGroup ent); reflexivity.
Qed.

Lemma classify_skipped (e : nat) (w : World) (ent : Entity.t) :
  entities w !! e = Some ent ->
  ~ live (entities w) e ->
  classify e w = Ok tt w.
Proof.
  intros He Hnot. unfold classify, getEntity, get. unfold bind at 1 2. rewrite He.
  unfold unwrap, ret at 1.
  destruct (Entity.collisionTypes ent) as [[|type types]|] eqn:Htypes; try reflexivity.
  destruct (Entity.immobile ent) eqn:Him; [reflexivity|].
  exfalso. apply Hnot. now exists ent, type, types.
Qed.

Lemma classified_lists (e : nat) (ent : Entity.t) (types : list string) (w : World) :
  let collides :=
    negb (Nat.eqb e (owner w)) && anyNonEmpty (Entity.solidCollisionMap ent) types in
  let w' := classified e ent types w in
  entities w' = entities w /\ owner w' = owner w
  /\ againstGrid w' = againstGrid w /\ events w' = events w
  /\ allEntitiesLive w' = allEntitiesLive w ++ [e]
  /\ solidEntitiesLive w' = solidEntitiesLive w ++ (if collides then [e] else [])
  /\ nonColliders w' = nonColliders w ++ (if collides then [] else [e])
  /\ softEntitiesLive w'
     = softEntitiesLive w
       ++ (if anyNonEmpty (Entity.softCollisionMap ent) types then [e] else [])
  /\ groupsLive w'
     = groupsLive w ++ (match Entity.collisionGroup ent with Some _ => [e] | None => [] end).
Proof.
  cbv zeta. change (owner (pushAllLive e w)) with (owner w).
  destruct (negb (Nat.eqb e (owner w)) && anyNonEmpty (Entity.solidCollisionMap ent) types),
    (anyNonEmpty (Entity.softCollisionMap ent) types), (Entity.collisionGroup ent);
    cbn; rewrite ?app_nil_r; repeat split; reflexivity.
Qed.

Lemma classifiedUpTo_skip (w0 : World) (done : list nat) (e : nat) (w : World) :
  classifiedUpTo w0 done w -> ~ live (entities w0) e -> classifiedUpTo w0 (e :: done) w.
Proof.
  intros (HE & Hown & Hgrid & Hev & Hall & Hrest) Hnot.
  split; [exact HE|]. split; [exact Hown|]. split; [exact Hgrid|]. split; [exact Hev|].
  split; [|exact Hrest].
  intros x. rewrite Hall. cbn [In]. split; [tauto|].
  intros [[<-|H] Hl]; tauto.
Qed.

Lemma classify_step (w0 : World) (done : list nat) (e : nat) :
  cameraReady [e] w0 ->
  returns (classifiedUpTo w0 done) (classify e) (fun _ => classifiedUpTo w0 (e :: done)).
Proof.
  intros Hready w Hinv.
  pose proof Hinv as (HE & Hown & Hgrid & Hev & Hall & Hcount & Hsolid & Hsoft & Hgroup).
  destruct (Hready e) as (ent & He & Hmaps); [now left|].
  assert (He' : entities w !! e = Some ent) by now rewrite HE.
  destruct (Entity.collisionTypes ent) as [[|type types]|] eqn:Htypes;
    [| destruct (Entity.immobile ent) eqn:Him |].
  1, 2, 4:
    (exists tt, w;
     assert (Hnot : ~ live (entities w0) e)
       by (intros (ent' & t & ts & He2 & Him2 & Ht2); congruence);
     split;
     [ apply (classify_skipped e w ent He'); now rewrite HE
     | apply classifiedUpTo_skip;
       [exact Hinv | exact Hnot] ]).
  exists tt, (classified e ent (type :: types) w). split.
  { apply classify_live; try assumption. intros t Ht. now apply (Hmaps _ t eq_refl). }
  pose proof (classified_lists e ent (type :: types) w) as HL. cbv zeta in HL. cbv zeta.
  change (owner (pushAllLive e w)) with (owner w) in *.
  set (w' := match Entity.collisionGroup ent with Some _ => _ | None => _ end) in *.
  destruct HL as (L1 & L2 & L3 & L4 & L5 & L6 & L7 & L8 & L9).
  assert (Hlive : live (entities w0) e) by now exists ent, type, types.
  split; [congruence|]. split; [congruence|]. split; [congruence|]. split; [congruence|].
  split; [|split; [|split; [|split]]].
  - intros x. rewrite L5, in_app_iff, Hall. cbn [In]. split.
    + intros [[H1 H2]|[<-|[]]]; tauto.
    + intros [[<-|H1] H2]; tauto.
  - intros x. rewrite L5, L6, L7, !count_occ_app, Hcount.
    destruct (negb (Nat.eqb e (owner w)) && _); cbn [count_occ]; destruct (Nat.eq_dec e x); lia.
  - rewrite L6, in_app_iff. intros [H|H]; [tauto|].
    destruct (Nat.eqb_spec e (owner w)) as [Heq|Hne]; cbn [negb andb] in H; [destruct H|].
    destruct (anyNonEmpty _ _); [|destruct H]. destruct H as [H|[]]. congruence.
  - intros x. rewrite L8, L5, !in_app_iff. intros [H|H]; [left; now apply Hsoft|].
    destruct (anyNonEmpty (Entity.softCollisionMap ent) _); [|destruct H]. now right.
  - intros x. rewrite L9, L5, !in_app_iff, Hgroup. split.
    + intros [[H1 H2]|H]; [tauto|].
      destruct (Entity.collisionGroup ent) as [g|] eqn:Hg; [|destruct H].
      destruct H as [<-|[]]. split; [right; now left|]. now exists ent, g.
    + intros [[H|[<-|[]]] Hgr]; [tauto|]. right.
      destruct Hgr as (ent' & g & He2 & Hg). rewrite He in He2. injection He2 as <-.
      rewrite Hg. now left.
Qed.

Lemma in_fold_cons {A : Type} (x : A) (l acc : list A) :
  In x (fold_left (fun done e => e :: done) l acc) <-> In x l \/ In x acc.
Proof.
  revert acc. induction l as [|a l IH]; intros acc; cbn [fold_left In]; [tauto|].
  rewrite IH. cbn [In]. tauto.
Qed.

(** X13: when the entities of [all] exist and their maps list their
    types, [checkCamera] returns, and of the lists it leaves: the live
    entities are the entities of [all] that are not immobile and have a
    collision type, whatever the lists held before; every live entity is,
    as often as it is live, on exactly one of the lists of solid entities
    and of non-colliders; the owner of the handler is never a solid
    entity; the soft entities are live; the groups are the live entities
    with a collision group.  Entities, grid and events are left as they
    were. *)
Theorem checkCamera_classifies (all : list nat) (w : World) :
  cameraReady all w ->
  exists w',
    checkCamera all w = Ok tt w'
    /\ entities w' = entities w /\ againstGrid w' = againstGrid w /\ events w' = events w
    /\ (forall e, In e (allEntitiesLive w') <-> In e all /\ live (entities w) e)
    /\ (forall e, count_occ Nat.eq_dec (allEntitiesLive w') e
                  = (count_occ Nat.eq_dec (solidEntitiesLive w') e
                     + count_occ Nat.eq_dec (nonColliders w') e)%nat)
    /\ ~ In (owner w) (solidEntitiesLive w')
    /\ (forall e, In e (softEntitiesLive w') -> In e (allEntitiesLive w'))
    /\ (forall e, In e (groupsLive w')
                  <-> In e (allEntitiesLive w') /\ grouped (entities w) e).
Proof.
  intros Hready.
  set (w1 := setLive [] [] [] [] [] w).
  assert (H1 : classifiedUpTo w [] w1).
  { split; [reflexivity|]. split; [reflexivity|]. split; [reflexivity|].
    split; [reflexivity|].
    split; [intros x; split; [intros [] | intros [[] _]]|].
    split; [intros x; reflexivity|]. split; [intros []|]. split; [intros x []|].
    intros x. split; [intros [] | intros [[] _]]. }
  destruct (returns_forEach_fold (classifiedUpTo w) (fun done e => e :: done)
              (rev all) classify []) with (w := w1) as ([] & w2 & Hrun & H2).
  - intros e done He. apply classify_step. intros e' [<-|[]].
    apply Hready. now apply in_rev.
  - exact H1.
  - destruct H2 as (HE & Hown & Hgrid & Hev & Hall & Hcount & Hsolid & Hsoft & Hgroup).
    eexists. split.
    { unfold checkCamera. unfold bind at 1. unfold modify at 1. unfold bind at 1.
      unfold whileDown. fold w1. rewrite Hrun. reflexivity. }
    cbn [entities againstGrid events allEntitiesLive solidEntitiesLive nonColliders
           softEntitiesLive groupsLive setLive].
    assert (Hsorted : forall x, In x (sortGroups w2 (groupsLive w2)) <-> In x (groupsLive w2)).
    { intros x. unfold sortGroups. rewrite <- !list_elem_of_In.
      now rewrite (merge_sort_Permutation (sortsBefore w2)). }
    split; [exact HE|]. split; [exact Hgrid|]. split; [exact Hev|]. split.
    { intros x. rewrite Hall, in_fold_cons, <- in_rev. cbn [In]. tauto. }
    split; [exact Hcount|]. split; [exact Hsolid|]. split; [exact Hsoft|].
    intros x. rewrite Hsorted. apply Hgroup.
Qed.

Lemma cameraReady_platformWorld : cameraReady [1; 2]%nat platformWorld.
Proof.
  intros e [<-|[<-|[]]].
  - exists (Entity.setAgainstAABB (Some (Cells.toAABB (Cells.mk 0 0 0 0)))
              (Entity.setAgainstGrid (Some [0%Z]) jumper)).
    split; [vm_compute; reflexivity|].
    intros types type Ht Hin. injection Ht as <-. destruct Hin as [<-|[]].
    split; eexists; reflexivity.
  - exists (Entity.setAgainstAABB (Some (Cells.toAABB (Cells.mk 0 0 0 0)))
              (Entity.setAgainstGrid (Some [0%Z]) platform)).
    split; [vm_compute; reflexivity|].
    intros types type Ht Hin. injection Ht as <-. destruct Hin as [<-|[]].
    split; eexists; reflexivity.
Qed.

Lemma checkCamera_classifies_witness :
  cameraReady [1; 2]%nat platformWorld
  /\ exists w',
       checkCamera [1; 2]%nat platformWorld = Ok tt w'
       /\ entities w' = entities platformWorld
       /\ againstGrid w' = againstGrid platformWorld
       /\ events w' = events platformWorld
       /\ (forall e, In e (allEntitiesLive w')
                     <-> In e [1; 2]%nat /\ live (entities platformWorld) e)
       /\ (forall e, count_occ Nat.eq_dec (allEntitiesLive w') e
                     = (count_occ Nat.eq_dec (solidEntitiesLive w') e
                        + count_occ Nat.eq_dec (nonColliders w') e)%nat)
       /\ ~ In (owner platformWorld) (solidEntitiesLive w')
       /\ (forall e, In e (softEntitiesLive w') -> In e (allEntitiesLive w'))
       /\ (forall e, In e (groupsLive w')
                     <-> In e (allEntitiesLive w') /\ grouped (entities platformWorld) e).
Proof.
  split; [exact cameraReady_platformWorld|].
  exact (checkCamera_classifies [1; 2]%nat platformWorld cameraReady_platformWorld).
Defined.

(** In [platformWorld] the jumper is blocked by the type of the platform
    and is a solid entity; the platform is blocked by nothing and is a
    non-collider. *)
Example platformWorld_lists :
  let w := after (checkCamera [1; 2]%nat) platformWorld in
  (allEntitiesLive w, solidEntitiesLive w, softEntitiesLive w, nonColliders w, groupsLive w)
  = ([2; 1], [1], [], [2], [])%nat.
Proof. vm_compute. reflexivity. Qed.

(** ** Solid resolution: bodies at rest and the steps of a bullet *)

Section Resting.

Context {G : Geometry}.

(** X14: an entity that is where it was, [x = previousX] and
    [y = previousY], is not resolved: [checkSolidEntityCollision] returns
    an empty collection of records and leaves the world as it was,
    whether the entity is a bullet or not and whatever is around it. *)
Theorem checkSolidEntityCollision_at_rest (fuel : nat) (ent : nat)
    (entityOrGroup : Collidable) (w : World) (e : Entity.t) :
  entities w !! ent = Some e ->
  Entity.x e == Entity.previousX e ->
  Entity.y e == Entity.previousY e ->
  checkSolidEntityCollision fuel ent entityOrGroup w
  = Ok (Some CollisionDataContainer.setUp) w.
Proof.
  intros He Hx Hy.
  unfold checkSolidEntityCollision, getEntity, get. unfold bind at 1 2. rewrite He.
  unfold unwrap, ret at 1. unfold bind at 1. cbv zeta.
  assert (HdX : Qneb (Entity.x e - Entity.previousX e) 0 = false).
  { unfold Qneb. apply negb_false_iff. apply Qeq_bool_iff. rewrite Hx. ring. }
  assert (HdY : Qneb (Entity.y e - Entity.previousY e) 0 = false).
  { unfold Qneb. apply negb_false_iff. apply Qeq_bool_iff. rewrite Hy. ring. }
  rewrite HdX, HdY. reflexivity.
Qed.

End Resting.

Lemma checkSolidEntityCollision_at_rest_witness :
  checkSolidEntityCollision (G := boxGeometry) 0 1
    (basicView 1 (fun _ _ w => w) (fun _ w => w) (fun _ _ w => w)) freshWorld
  = Ok (Some CollisionDataContainer.setUp) freshWorld.
Proof.
  apply (checkSolidEntityCollision_at_rest (G := boxGeometry) 0 1 _ freshWorld entityA).
  - reflexivity.
  - reflexivity.
  - reflexivity.
Defined.

(** *** The number of steps of a bullet *)

Lemma Qceiling_nonneg (q : Q) : 0 <= q -> (0 <= Qceiling q)%Z.
Proof.
  intros Hq. pose proof (Qle_ceiling q) as H.
  assert (H0 : (0 # 1) <= inject_Z (Qceiling q)) by (eapply Qle_trans; eauto).
  unfold Qle in H0. cbn in H0. lia.
Qed.

Lemma Qdiv_nonneg (p q : Q) : 0 <= p -> 0 <= q -> 0 <= p / q.
Proof.
  intros Hp Hq. destruct (Qeq_dec q 0) as [H0|Hne].
  - unfold Qdiv. rewrite H0. unfold Qinv. cbn. rewrite Qmult_0_r. apply Qle_refl.
  - apply Qle_shift_div_l; [|now rewrite Qmult_0_l].
    destruct (Qlt_le_dec 0 q) as [Hlt|Hle]; [exact Hlt|].
    exfalso. apply Hne. now apply Qle_antisym.
Qed.

Lemma div_quotientish (p : Q) (s : num) : extent s -> quotientish (Num.div (Fin (Qabs p)) s).
Proof.
  destruct s as [| |q|]; cbn [extent Num.div]; try tauto.
  - intros Hq. destruct (Qeq_bool q 0).
    + pose proof (Qabs_nonneg p) as Hp. unfold Num.sign.
      destruct (Qnum (Qabs p)) eqn:Hn; cbn [Z.sgn quotientish]; try exact I.
      unfold Qle in Hp. cbn in Hp. rewrite Hn in Hp. lia.
    + cbn [quotientish]. apply Qdiv_nonneg; [apply Qabs_nonneg | exact Hq].
  - intros _. cbn [quotientish]. apply Qle_refl.
Qed.

Lemma max_quotientish (a b : num) : quotientish a -> quotientish b -> quotientish (Num.max a b).
Proof.
  destruct a, b; cbn [quotientish Num.max Num.ltb]; try tauto;
    intros Ha Hb; try (destruct (Qltb _ _)); cbn [quotientish]; tauto.
Qed.

Lemma min_ceil_stepCount (a : num) :
  quotientish a ->
  Num.min (Num.ceil a) (Fin 100) = NaN \/ exists n, stepCount n (Num.min (Num.ceil a) (Fin 100)).
Proof.
  destruct a as [| |q|]; cbn [quotientish Num.ceil Num.min Num.ltb]; try tauto.
  - intros Hq. right. destruct (Qltb 100 (inject_Z (Qceiling q))) eqn:Hlt.
    + exists 100%Z, 100. split; [reflexivity|]. split; [reflexivity | lia].
    + exists (Qceiling q). eexists. split; [reflexivity|]. split; [reflexivity|].
      split; [now apply Qceiling_nonneg|].
      apply Qltb_ge in Hlt. unfold Qle in Hlt. cbn in Hlt. lia.
  - intros _. right. exists 100%Z, 100. split; [reflexivity|]. split; [reflexivity | lia].
Qed.

(** X15: for extents that are not negative, the number of steps
    [bulletSteps] computes is [NaN] or an integer from 0 to 100. *)
Theorem bulletSteps_bounded (dX dY : Q) (sW sH : num) :
  extent sW -> extent sH ->
  bulletSteps dX dY sW sH = NaN \/ exists n, stepCount n (bulletSteps dX dY sW sH).
Proof.
  intros HW HH. unfold bulletSteps. apply min_ceil_stepCount.
  apply max_quotientish; now apply div_quotientish.
Qed.

Lemma bulletSteps_bounded_witness :
  bulletSteps 35 0 (Fin 10) (Fin 10) = NaN
  \/ exists n, stepCount n (bulletSteps 35 0 (Fin 10) (Fin 10)).
Proof.
  apply (bulletSteps_bounded 35 0 (Fin 10) (Fin 10)); cbn [extent]; lra.
Defined.

(** A movement of 35 against the smallest width 10 takes 4 steps; a
    movement of 35000 is capped at 100 steps. *)
Example bulletSteps_examples :
  bulletSteps 35 0 (Fin 10) (Fin 10) = Fin (inject_Z 4)
  /\ bulletSteps 35000 0 (Fin 10) (Fin 10) = Fin 100.
Proof. split; reflexivity. Qed.

Lemma whileStep_within {S : Type} (fuel : nat) (n : Z) (q : Q) (body : S -> M (bool * S))
    (s : S) (turns : nat) :
  q == inject_Z n -> (0 <= n)%Z -> (Z.to_nat n < fuel)%nat ->
  hoare (fun _ => True) (whileStep fuel (Fin q) body s turns)
    (fun r _ => exists s' turns', r = Some (s', turns') /\ (turns' <= turns + Z.to_nat n)%nat)
    (fun _ => True).
Proof.
  revert n q s turns. induction fuel as [|fuel IH]; intros n q s turns Hq Hn Hfuel; [lia|].
  cbn [whileStep Num.truthy]. unfold Qneb.
  destruct (Qeq_bool q 0) eqn:Hz; cbn [negb].
  - intros w _. exists s, turns. split; [reflexivity | lia].
  - assert (Hpos : (0 < n)%Z).
    { destruct (Z.eq_dec n 0%Z) as [->|Hne]; [|lia].
      exfalso. rewrite (proj2 (Qeq_bool_iff q 0)) in Hz; [discriminate | exact Hq]. }
    eapply hoare_bind with (I := fun _ _ => True).
    { intros w _. destruct (body s w); exact I. }
    intros [stop s']. cbn [fst snd]. destruct stop.
    + intros w _. exists s', (Datatypes.S turns). split; [reflexivity | lia].
    + cbn [Num.sub Num.neg Num.add].
      eapply hoare_weaken; [apply (IH (n - 1)%Z) | auto | | auto].
      * rewrite Hq. unfold Qeq. cbn. lia.
      * lia.
      * lia.
      * intros r w (s'' & turns' & -> & Hle). exists s'', turns'. split; [reflexivity | lia].
Qed.

(** X16: when the number of steps is [NaN] or an integer from 0 to 100,
    the stepping loop [while (step--)] is over after at most 100 turns:
    fuel for 101 tests of its condition suffices, whatever its body does. *)
Theorem whileStep_at_most_100 {S : Type} (fuel : nat) (step : num)
    (body : S -> M (bool * S)) (s : S) :
  step = NaN \/ (exists n, stepCount n step) ->
  (100 < fuel)%nat ->
  hoare (fun _ => True) (whileStep fuel step body s 0)
    (fun r _ => exists s' turns, r = Some (s', turns) /\ (turns <= 100)%nat)
    (fun _ => True).
Proof.
  intros [->|(n & q & -> & Hq & Hn)] Hfuel.
  - destruct fuel as [|fuel]; [lia|]. intros w _. exists s, 0%nat. split; [reflexivity | lia].
  - eapply hoare_weaken; [apply (whileStep_within fuel n q body s 0 Hq) | auto | | auto].
    + lia.
    + lia.
    + intros r w (s' & turns & -> & Hle). exists s', turns. split; [reflexivity | lia].
Qed.

Lemma whileStep_at_most_100_witness :
  hoare (fun _ => True)
    (whileStep 101 (bulletSteps 35000 0 (Fin 10) (Fin 10))
       (fun s : nat => ret (false, Datatypes.S s)) 0%nat 0)
    (fun r _ => exists s' turns, r = Some (s', turns) /\ (turns <= 100)%nat)
    (fun _ => True).
Proof.
  apply (whileStep_at_most_100 101 (bulletSteps 35000 0 (Fin 10) (Fin 10))).
  - right. exists 100%Z, 100. split; [reflexivity|]. split; [reflexivity | lia].
  - lia.
Defined.

(** A bullet that is capped at 100 steps runs the body 100 times. *)
Example whileStep_capped :
  whileStep 101 (bulletSteps 35000 0 (Fin 10) (Fin 10))
    (fun s : nat => ret (false, Datatypes.S s)) 0%nat 0 freshWorld
  = Ok (Some (100, 100)%nat) freshWorld.
Proof. vm_compute. reflexivity. Qed.

Section BulletFuel.

Context {G : Geometry}.

Lemma Num_min_extent (a : num) (q : Q) : extent a -> 0 <= q -> extent (Num.min a (Fin q)).
Proof.
  destruct a as [| |p|]; cbn [extent Num.min Num.ltb]; try tauto.
  intros Hp Hq. destruct (Qltb q p); cbn [extent]; assumption.
Qed.

Lemma smallestExtent_extent (entityOrGroup : Collidable) (w : World)
    (collisionTypes : list string) :
  (forall type, In type collisionTypes ->
     0 <= AABB.width (getAABB entityOrGroup w type)
     /\ 0 <= AABB.height (getAABB entityOrGroup w type)) ->
  extent (fst (smallestExtent entityOrGroup w collisionTypes))
  /\ extent (snd (smallestExtent entityOrGroup w collisionTypes)).
Proof.
  intros H. unfold smallestExtent.
  assert (Hfold : forall l acc,
             (forall type, In type l -> In type collisionTypes) ->
             extent (fst acc) /\ extent (snd acc) ->
             extent (fst (fold_left
                            (fun acc type =>
                               let aabb := getAABB entityOrGroup w type in
                               (Num.min (fst acc) (Fin (AABB.width aabb)),
                                Num.min (snd acc) (Fin (AABB.height aabb)))) l acc))
             /\ extent (snd (fold_left
                               (fun acc type =>
                                  let aabb := getAABB entityOrGroup w type in
                                  (Num.min (fst acc) (Fin (AABB.width aabb)),
                                   Num.min (snd acc) (Fin (AABB.height aabb)))) l acc))).
  { induction l as [|type l IH]; intros acc Hl Hacc; [exact Hacc|].
    cbn [fold_left]. apply IH; [intros t Ht; apply Hl; now right|].
    destruct (H type) as [Hw Hh]; [apply Hl; now left|].
    cbn [fst snd]. split; apply Num_min_extent; tauto. }
  apply Hfold; [intros type Ht; now apply in_rev | split; exact I].
Qed.

(** X17: when the boxes of the moving body have no negative width or
    height, fuel for 101 tests suffices for [checkSolidEntityCollision]:
    the stepping of a bullet takes at most 100 turns, so that a result,
    when there is one, is a collection of records. *)
Theorem checkSolidEntityCollision_fuel_suffices (fuel : nat) (ent : nat)
    (entityOrGroup : Collidable) (w : World) :
  (100 < fuel)%nat ->
  (forall type, In type (getCollisionTypes entityOrGroup w) ->
     0 <= AABB.width (getAABB entityOrGroup w type)
     /\ 0 <= AABB.height (getAABB entityOrGroup w type)) ->
  hoare (fun w' => w' = w) (checkSolidEntityCollision fuel ent entityOrGroup)
    (fun r _ => exists cdc, r = Some cdc) (fun _ => True).
Proof.
  intros Hfuel Hboxes. unfold checkSolidEntityCollision.
  eapply hoare_bind with (I := fun _ w' => w' = w).
  { apply hoare_getEntity. auto. }
  intros e. eapply hoare_bind; [apply hoare_get|]. intros w0.
  intros w' [-> ->]. cbv zeta.
  destruct (Qneb _ 0 || Qneb _ 0); [|now eexists].
  destruct (Entity.bullet e).
  - destruct (smallestExtent_extent entityOrGroup w (getCollisionTypes entityOrGroup w) Hboxes)
      as [HW HH].
    destruct (smallestExtent entityOrGroup w (getCollisionTypes entityOrGroup w))
      as [sW sH] eqn:Hs. cbn [fst snd] in HW, HH.
    assert (Hstep : bulletSteps (Entity.x e - Entity.previousX e)
                      (Entity.y e - Entity.previousY e) sW sH = NaN
                    \/ exists n, stepCount n (bulletSteps (Entity.x e - Entity.previousX e)
                                                (Entity.y e - Entity.previousY e) sW sH)).
    { unfold bulletSteps. apply min_ceil_stepCount.
      apply max_quotientish; now apply div_quotientish. }
    match goal with
    | |- context [whileStep fuel ?step _ _ 0] => set (st := step) in *
    end.
    match goal with
    | |- context [whileStep fuel st ?body ?s 0] => set (b := body); set (s0 := s)
    end.
    clearbody b. clearbody st.
    assert (Hloop : match whileStep fuel st b s0 0 w with
                    | Ok r _ => exists s' turns, r = Some (s', turns)
                    | Throw _ => True
                    end).
    { destruct Hstep as [->|(n & q & -> & Hq & Hn)].
      - destruct fuel as [|fuel']; [lia|]. now eexists _, _.
      - pose proof (whileStep_within fuel n q b s0 0 Hq ltac:(lia) ltac:(lia) w I) as Hw.
        destruct (whileStep fuel (Fin q) b s0 0 w) as [r w1|w1]; [|exact I].
        destruct Hw as (s' & turns & -> & _). now eexists _, _. }
    unfold bind at 1. destruct (whileStep fuel st b s0 0 w) as [r w1|w1]; [|exact I].
    destruct Hloop as (s' & turns & ->).
    unfold bind at 1. destruct (_ w1) as [u w2|w2]; [|exact I]. now eexists.
  - unfold bind at 1. unfold modify at 1. unfold bind at 1.
    destruct (processCollisionStep _ _ _ _ _ _ _ _ _) as [r w1|w1]; [|exact I].
    unfold bind at 1. unfold modify at 1. unfold bind at 1.
    destruct (_ (relocateEntity entityOrGroup (snd r) (fst r) w1)) as [u w2|w2]; [|exact I].
    now eexists.
Qed.

End BulletFuel.

(** Witness of X17: a bullet that moves by 20 with a box 10 wide is
    stepped twice.  Fuel for two tests of the loop does not suffice; with
    fuel for 101 the collision with the obstacle is recorded. *)
Lemma checkSolidEntityCollision_fuel_suffices_witness :
  let view := basicView 1 (fun _ _ w => w) (fun _ w => w) (fun _ _ w => w) in
  option_map Entity.bullet (entities bulletWorld !! 1%nat) = Some true
  /\ (exists w', checkSolidEntityCollision (G := boxGeometry) 2 1 view bulletWorld
                 = Ok None w')
  /\ exists cdc w',
       checkSolidEntityCollision (G := boxGeometry) 101 1 view bulletWorld = Ok (Some cdc) w'
       /\ length (CollisionDataContainer.xData cdc) = 1%nat.
Proof.
  intros view.
  split; [vm_compute; reflexivity|]. split; [eexists; vm_compute; reflexivity|].
  assert (Hboxes : forall type, In type (getCollisionTypes view bulletWorld) ->
                     0 <= AABB.width (getAABB view bulletWorld type)
                     /\ 0 <= AABB.height (getAABB view bulletWorld type)).
  { intros type Hin. vm_compute in Hin. destruct Hin as [<-|[]].
    vm_compute. split; discriminate. }
  pose proof (checkSolidEntityCollision_fuel_suffices (G := boxGeometry) 101 1 view
                bulletWorld ltac:(lia) Hboxes bulletWorld eq_refl) as H.
  destruct (checkSolidEntityCollision 101 1 view bulletWorld) as [r w'|w'] eqn:Hrun.
  - destruct H as [cdc ->]. exists cdc, w'. split; [reflexivity|].
    pose proof (f_equal (fun o => match o with
                                  | Ok (Some c) _ => length (CollisionDataContainer.xData c)
                                  | _ => 0%nat
                                  end) Hrun) as Hlen.
    vm_compute in Hlen. symmetry. exact Hlen.
  - vm_compute in Hrun. discriminate.
Defined.

(** ** The candidates of a step never include the body itself or the
    entities of its group *)

Section OwnGroup.

Context {G : Geometry}.

Lemma includeEntity_never (ent o : nat) (this other : Entity.t) (aabb otherAABB : AABB.t)
    (ignoredEntities : option (list nat)) (sweepAABB : AABB.t) :
  o = ent \/ (exists ignored, ignoredEntities = Some ignored /\ In o ignored) ->
  includeEntity ent this aabb o other otherAABB ignoredEntities sweepAABB = false.
Proof.
  intros H. unfold includeEntity.
  destruct (Nat.eqb_spec o ent) as [_|Hne]; [reflexivity|].
  destruct (_ && _); [reflexivity|]. destruct (_ && _); [reflexivity|].
  destruct H as [H|(ignored & -> & Hin)]; [contradiction|].
  assert (Hex : existsb (Nat.eqb o) ignored = true).
  { apply existsb_exists. exists o. split; [exact Hin | apply Nat.eqb_refl]. }
  now rewrite Hex.
Qed.

Lemma gatherEntity_never (o ent : nat) (w : World) previousAABB sweepAABB ignoredEntities
    otherCollisionType otherEntity acc :
  shapesOwned o w ->
  o = ent \/ (exists ignored, ignoredEntities = Some ignored /\ In o ignored) ->
  hoare (fun w' => w' = w /\ Forall (fun s => Shape.owner s <> Some o) (fst acc))
    (gatherEntity ent previousAABB sweepAABB ignoredEntities otherCollisionType
       otherEntity acc)
    (fun acc' w' => w' = w /\ Forall (fun s => Shape.owner s <> Some o) (fst acc'))
    (fun _ => True).
Proof.
  intros [Hown _] Hex w' [-> Hacc].
  unfold gatherEntity, getEntity, bind, get, unwrap.
  destruct (entities w !! ent) as [this|]; [|exact I]. unfold ret at 1.
  destruct (entities w !! otherEntity) as [other'|] eqn:Ho'; [|exact I].
  unfold ret at 1.
  destruct (includeEntity _ _ _ _ _ _ _ _) eqn:Hinc; [|now split].
  split; [reflexivity|]. cbn [fst]. apply Forall_app. split; [exact Hacc|].
  apply Forall_forall. intros s Hs. apply list_elem_of_In, in_rev in Hs.
  assert (Howner : Shape.owner s = Some otherEntity).
  { specialize (Hown otherEntity other' Ho'). unfold Entity.getShapes in Hs.
    destruct (Entity.shapes other' !! otherCollisionType) as [shapes|] eqn:Hshapes;
      [|destruct Hs].
    specialize (Hown otherCollisionType shapes Hshapes). rewrite Forall_forall in Hown.
    apply Hown. now apply list_elem_of_In. }
  rewrite Howner. intros [= ->].
  rewrite includeEntity_never in Hinc by exact Hex. discriminate.
Qed.

Lemma gatherType_never (o ent : nat) (w : World) previousAABB sweepAABB ignoredEntities
    againstGrid otherCollisionType acc :
  shapesOwned o w ->
  o = ent \/ (exists ignored, ignoredEntities = Some ignored /\ In o ignored) ->
  hoare (fun w' => w' = w /\ Forall (fun s => Shape.owner s <> Some o) (fst acc))
    (gatherType ent previousAABB sweepAABB ignoredEntities againstGrid
       otherCollisionType acc)
    (fun acc' w' => w' = w /\ Forall (fun s => Shape.owner s <> Some o) (fst acc'))
    (fun _ => True).
Proof.
  intros Hown Hex. unfold gatherType.
  destruct (againstGrid !! otherCollisionType) as [otherEntities|].
  - apply (hoare_foldM
             (fun acc' w' => w' = w /\ Forall (fun s => Shape.owner s <> Some o) (fst acc'))).
    intros otherEntity acc'. now apply gatherEntity_never.
  - intros w' [-> Hacc]. unfold bind, get.
    destruct (terrain w) as [getTileShapes|] eqn:Ht; [|now split].
    split; [reflexivity|]. cbn [fst]. apply Forall_app. split; [exact Hacc|].
    apply Forall_forall. intros s Hs. apply list_elem_of_In, in_rev in Hs.
    exact (proj2 Hown getTileShapes _ _ _ s Ht Hs).
Qed.

(** X18: the shapes [processCollisionStep] gathers as candidates are never
    shapes of the moving entity itself, nor of an entity listed in
    [ignoredEntities], the members of its group: whatever the grid holds
    and wherever the boxes are, and the gathering leaves the world as it
    was. *)
Theorem gatherShapes_skips_own_group (o ent : nat) (w : World)
    (entityOrGroup : Collidable) (ignoredEntities : option (list nat))
    (collisionTypes : list string) :
  shapesOwned o w ->
  o = ent \/ (exists ignored, ignoredEntities = Some ignored /\ In o ignored) ->
  hoare (fun w' => w' = w)
    (gatherShapes ent entityOrGroup ignoredEntities collisionTypes)
    (fun gathered w' =>
       w' = w /\ Forall (Forall (fun s => Shape.owner s <> Some o)) (fst gathered))
    (fun _ => True).
Proof.
  intros Hown Hex. unfold gatherShapes.
  eapply hoare_weaken with
    (P := fun w' => w' = w /\ Forall (Forall (fun s => Shape.owner s <> Some o))
                                 (fst (@nil (list Shape.t), false)));
    [| intros w' ->; split; [reflexivity | constructor] | intros a w' H; exact H | auto].
  apply (hoare_foldM
           (fun acc w' => w' = w
                          /\ Forall (Forall (fun s => Shape.owner s <> Some o)) (fst acc))).
  intros collisionType acc.
  eapply hoare_bind; [apply hoare_get | intros w0].
  intros w' [-> [-> Hacc]].
  destruct (getSolidCollisions entityOrGroup w collisionType) as [collisionSubTypes|] eqn:Hsub;
    [|exact I].
  unfold unwrap, bind at 1, ret at 1.
  set (sweepAABB := AABB.include _ _).
  pose proof (getAgainstGrid_readonly ent sweepAABB collisionSubTypes w) as Hro.
  unfold after in Hro. unfold bind at 1.
  destruct (getAgainstGrid ent sweepAABB collisionSubTypes w) as [againstGrid w1|w1];
    [|exact I].
  subst w1.
  pose proof (hoare_foldM
                (fun acc' w' => w' = w /\ Forall (fun s => Shape.owner s <> Some o) (fst acc'))
                (fun _ => True)
                (gatherType ent (getPreviousAABB entityOrGroup w collisionType) sweepAABB
                   ignoredEntities againstGrid)
                (rev collisionSubTypes) ([], snd acc)) as Hinner.
  specialize (Hinner ltac:(intros ot acc'; now apply gatherType_never)
                w ltac:(split; [reflexivity | constructor])).
  unfold bind at 1.
  destruct (foldM _ _ _ w) as [group w1|w1]; [|exact I].
  destruct Hinner as [-> Hgroup].
  split; [reflexivity|]. cbn [fst]. constructor; assumption.
Qed.

End OwnGroup.

Lemma shapesOwned_movingWorld : shapesOwned 2 movingWorld.
Proof.
  split; [|intros ? ? ? ? ? Hterrain; vm_compute in Hterrain; discriminate].
  apply map_Forall_to_list.
  assert (H : map (fun p => (fst p, map_to_list (Entity.shapes (snd p))))
                  (map_to_list (entities movingWorld))
              = [(2%nat, [("b"%string, [bodyB])]); (1%nat, [("a"%string, [bodyA 20])])])
    by (vm_compute; reflexivity).
  destruct (map_to_list (entities movingWorld)) as [|[e1 ent1] [|[e2 ent2] [|? ?]]];
    try discriminate.
  injection H as He1 H1 He2 H2. subst e1 e2.
  repeat constructor; cbn [uncurry]; apply map_Forall_to_list.
  - rewrite H1. repeat constructor.
  - rewrite H2. repeat constructor.
Qed.

(** Witness of X18: the sweep of the moving body crosses the obstacle.
    With no list of entities to ignore the shape of the obstacle is
    gathered; with the obstacle in the list nothing is. *)
Lemma gatherShapes_skips_own_group_witness :
  let view := basicView 1 (fun _ _ w => w) (fun _ w => w) (fun _ _ w => w) in
  gatherShapes (G := boxGeometry) 1 view None ["a"%string] movingWorld
  = Ok ([[bodyB]], true) movingWorld
  /\ gatherShapes (G := boxGeometry) 1 view (Some [2%nat]) ["a"%string] movingWorld
     = Ok ([[]], false) movingWorld
  /\ hoare (fun w' => w' = movingWorld)
       (gatherShapes (G := boxGeometry) 1 view (Some [2%nat]) ["a"%string])
       (fun gathered w' =>
          w' = movingWorld
          /\ Forall (Forall (fun s => Shape.owner s <> Some 2%nat)) (fst gathered))
       (fun _ => True).
Proof.
  intros view.
  split; [vm_compute; reflexivity|]. split; [vm_compute; reflexivity|].
  apply (gatherShapes_skips_own_group (G := boxGeometry) 2 1 movingWorld view
           (Some [2%nat]) ["a"%string] shapesOwned_movingWorld).
  right. exists [2%nat]. split; [reflexivity | now left].
Defined.

(** ** The record of the smallest movement *)

Section MinAxis.

Context {G : Geometry}.

Variables (prevShapes shapes : list Shape.t) (axis : Axis) (pcs : list Shape.t).

(** The record of the shape of index [i]. *)
Local Abbreviation recordOf cd i :=
  (exists prevShape shape,
     prevShapes !! i = Some prevShape /\ shapes !! i = Some shape
     /\ cd = fst (findMinShapeMovementCollision prevShape shape axis pcs)).

Variable put : nat -> Shape.t -> World -> World.

(** The world after the turns of the indices [l]. *)
Local Abbreviation moved l w :=
  (fold_left
     (fun w i =>
        match prevShapes !! i, shapes !! i with
        | Some prevShape, Some shape =>
            put i (snd (findMinShapeMovementCollision prevShape shape axis pcs)) w
        | _, _ => w
        end) l w).

Lemma minAxis_fold (l : list nat) (bestCD : CollisionData.t) (w : World) :
  (forall i, In i l -> (i < length shapes)%nat /\ (i < length prevShapes)%nat) ->
  exists best',
    foldM (fun i bestCD =>
             prevShape <- unwrap (prevShapes !! i) ;;
             shape <- unwrap (shapes !! i) ;;
             let result := findMinShapeMovementCollision prevShape shape axis pcs in
             modify (put i (snd result)) ;;
             let cd := fst result in
             if CollisionData.occurred cd
                && (negb (CollisionData.occurred bestCD)
                    || Qltb (CollisionData.deltaMovement cd) (CollisionData.deltaMovement bestCD))
             then ret cd
             else ret bestCD) l bestCD w = Ok best' (moved l w)
    /\ (forall i cd, In i l -> recordOf cd i -> CollisionData.occurred cd = true ->
          CollisionData.occurred best' = true
          /\ CollisionData.deltaMovement best' <= CollisionData.deltaMovement cd)
    /\ (CollisionData.occurred bestCD = true ->
          CollisionData.occurred best' = true
          /\ CollisionData.deltaMovement best' <= CollisionData.deltaMovement bestCD)
    /\ (best' = bestCD
        \/ exists i, In i l /\ recordOf best' i /\ CollisionData.occurred best' = true).
Proof.
  revert bestCD w. induction l as [|i l IH]; intros bestCD w Hl.
  - exists bestCD. split; [reflexivity|]. split; [intros i cd []|].
    split; [|now left]. intros H. split; [exact H | apply Qle_refl].
  - destruct (Hl i (or_introl eq_refl)) as [Hs Hp].
    apply lookup_lt_is_Some in Hs as [shape Hshape].
    apply lookup_lt_is_Some in Hp as [prevShape Hprev].
    set (cd := fst (findMinShapeMovementCollision prevShape shape axis pcs)).
    set (best1 := if CollisionData.occurred cd
                     && (negb (CollisionData.occurred bestCD)
                         || Qltb (CollisionData.deltaMovement cd)
                              (CollisionData.deltaMovement bestCD))
                  then cd else bestCD).
    set (w1 := put i (snd (findMinShapeMovementCollision prevShape shape axis pcs)) w).
    destruct (IH best1 w1) as (best' & Hrun & Hall & Hbest & Hfrom).
    { intros j Hj. apply Hl. now right. }
    assert (H1 : (CollisionData.occurred cd = true ->
                  CollisionData.occurred best1 = true
                  /\ CollisionData.deltaMovement best1 <= CollisionData.deltaMovement cd)
                 /\ (CollisionData.occurred bestCD = true ->
                     CollisionData.occurred best1 = true
                     /\ CollisionData.deltaMovement best1
                        <= CollisionData.deltaMovement bestCD)
                 /\ (best1 = bestCD \/ (best1 = cd /\ CollisionData.occurred cd = true))).
    { subst best1. destruct (CollisionData.occurred cd) eqn:Hocc; cbn [andb].
      - destruct (CollisionData.occurred bestCD) eqn:Hob; cbn [negb orb].
        + destruct (Qltb _ _) eqn:Hlt.
          * split; [intros _; split; [exact Hocc | apply Qle_refl]|].
            split; [|right; now split].
            intros _. split; [exact Hocc|]. apply Qlt_le_weak. now apply Qltb_lt.
          * split; [intros _; split; [exact Hob | now apply Qltb_ge]|].
            split; [|now left]. intros _. split; [exact Hob | apply Qle_refl].
        + split; [intros _; split; [exact Hocc | apply Qle_refl]|].
          split; [discriminate | right; now split].
      - split; [discriminate|]. split; [|now left].
        intros H. split; [exact H | apply Qle_refl]. }
    destruct H1 as (Hcd & Hold & Hpick).
    exists best'. split; [|split; [|split]].
    + cbn [foldM].
      match goal with
      | |- bind ?m _ w = _ =>
          assert (Hstep : m w = Ok best1 w1);
          [ unfold bind; rewrite Hprev, Hshape; unfold unwrap, ret, modify; cbv zeta;
            fold cd; fold w1; subst best1; now destruct (_ && _)
          | unfold bind at 1; rewrite Hstep; cbn [fold_left]; rewrite Hprev, Hshape;
            exact Hrun ]
      end.
    + intros j cd' [<-|Hj] Hrec Hocc; [|now apply (Hall j cd')].
      destruct Hrec as (p & s & Hp' & Hs' & ->).
      rewrite Hprev in Hp'. injection Hp' as <-. rewrite Hshape in Hs'. injection Hs' as <-.
      destruct (Hcd Hocc) as [H1 H2]. destruct (Hbest H1) as [H3 H4].
      split; [exact H3 | eapply Qle_trans; eauto].
    + intros Hocc. destruct (Hold Hocc) as [H1 H2]. destruct (Hbest H1) as [H3 H4].
      split; [exact H3 | eapply Qle_trans; eauto].
    + destruct Hfrom as [->|(j & Hj & Hrec & Hocc)].
      * destruct Hpick as [->|[-> Hocc]]; [now left|].
        right. exists i. split; [now left|]. split; [now exists prevShape, shape | exact Hocc].
      * right. exists j. split; [now right|]. now split.
Qed.

End MinAxis.

Section MinAxisTheorem.

Context {G : Geometry}.

(** X19: when the body has a previous shape for each of its shapes of
    the type, [findMinAxisMovement] returns, and the world it leaves is
    the one in which each previous shape of the type, from the last to
    the first, has been replaced by the shape
    [findMinShapeMovementCollision] has moved in place; if the record of
    any of the shapes reports a collision, the record returned reports a
    collision whose movement is not larger; and a record returned that
    reports a collision is the record of one of the shapes. *)
Theorem findMinAxisMovement_least (entityOrGroup : Collidable) (collisionType : string)
    (axis : Axis) (potentialCollidingShapes : list Shape.t) (w : World) :
  (length (getShapes entityOrGroup w collisionType)
   <= length (getPrevShapes entityOrGroup w collisionType))%nat ->
  exists bestCD,
    findMinAxisMovement entityOrGroup collisionType axis potentialCollidingShapes w
    = Ok bestCD
        (prevShapesMoved entityOrGroup collisionType axis potentialCollidingShapes
           (getPrevShapes entityOrGroup w collisionType)
           (getShapes entityOrGroup w collisionType)
           (rev (seq 0 (length (getShapes entityOrGroup w collisionType)))) w)
    /\ (forall i prevShape shape,
          getPrevShapes entityOrGroup w collisionType !! i = Some prevShape ->
          getShapes entityOrGroup w collisionType !! i = Some shape ->
          CollisionData.occurred
            (fst (findMinShapeMovementCollision prevShape shape axis
                    potentialCollidingShapes)) = true ->
          CollisionData.occurred bestCD = true
          /\ CollisionData.deltaMovement bestCD
             <= CollisionData.deltaMovement
                  (fst (findMinShapeMovementCollision prevShape shape axis
                          potentialCollidingShapes)))
    /\ (CollisionData.occurred bestCD = true ->
        exists i prevShape shape,
          getPrevShapes entityOrGroup w collisionType !! i = Some prevShape
          /\ getShapes entityOrGroup w collisionType !! i = Some shape
          /\ bestCD = fst (findMinShapeMovementCollision prevShape shape axis
                             potentialCollidingShapes)).
Proof.
  intros Hlen.
  destruct (minAxis_fold (getPrevShapes entityOrGroup w collisionType)
              (getShapes entityOrGroup w collisionType) axis potentialCollidingShapes
              (setPrevShape entityOrGroup collisionType)
              (rev (seq 0 (length (getShapes entityOrGroup w collisionType))))
              CollisionData.setUp w)
    as (bestCD & Hrun & Hall & _ & Hfrom).
  { intros i Hi. apply in_rev, in_seq in Hi. lia. }
  exists bestCD. split; [exact Hrun|]. split.
  - intros i prevShape shape Hp Hs Hocc.
    apply (Hall i); [|now exists prevShape, shape | exact Hocc].
    apply in_rev. rewrite rev_involutive. apply in_seq.
    apply lookup_lt_Some in Hs. lia.
  - intros Hocc. destruct Hfrom as [->|(i & _ & (p & s & Hp & Hs & Heq) & _)];
      [discriminate|].
    now exists i, p, s.
Qed.

End MinAxisTheorem.

(** Witness of X19: the body moves from 0 to 20 into the obstacle at 15.
    The record returned reports the collision at 5, and the previous
    shape of the body, moved in place, is left at the goal. *)
Lemma findMinAxisMovement_least_witness :
  let view := basicView 1 (fun _ _ w => w) (fun _ w => w) (fun _ _ w => w) in
  exists bestCD w',
    findMinAxisMovement (G := boxGeometry) view "a" axisX [bodyB] movingWorld = Ok bestCD w'
    /\ CollisionData.occurred bestCD = true
    /\ CollisionData.position bestCD == 5
    /\ getPrevShapes view movingWorld "a" = [bodyA 0]
    /\ option_map Shape.x (getPrevShapes view w' "a" !! 0%nat) = Some 20.
Proof.
  intros view.
  assert (Hlen : (length (getShapes view movingWorld "a")
                  <= length (getPrevShapes view movingWorld "a"))%nat)
    by (vm_compute; lia).
  destruct (findMinAxisMovement_least (G := boxGeometry) view "a" axisX [bodyB]
              movingWorld Hlen) as (bestCD & Hrun & _ & Hfrom).
  set (cd0 := fst (findMinShapeMovementCollision (G := boxGeometry)
                     (bodyA 0) (bodyA 20) axisX [bodyB])).
  assert (Hbest : exists w',
             findMinAxisMovement (G := boxGeometry) view "a" axisX [bodyB] movingWorld
             = Ok cd0 w')
    by (eexists; vm_compute; reflexivity).
  destruct Hbest as [w1 Hbest].
  pose proof (eq_trans (eq_sym Hrun) Hbest) as Heq. pose proof (f_equal (fun o => match o with Ok a _ => a | Throw _ => cd0 end) Heq) as Hcd.
  cbv beta iota in Hcd. rewrite Hcd in Hrun. clear Heq Hcd Hfrom bestCD.
  eexists cd0, _. split; [exact Hrun|].
  split; [vm_compute; reflexivity|]. split; [vm_compute; reflexivity|].
  split; vm_compute; reflexivity.
Defined.

(** ** Soft collisions that are reported are there *)

Lemma hoare_getEntity_lookup (P : World -> Prop) (e : nat) (E : World -> Prop) :
  (forall w, P w -> E w) ->
  hoare P (getEntity e) (fun ent w => P w /\ entities w !! e = Some ent) E.
Proof.
  intros H w Hw. unfold getEntity, get, bind, unwrap.
  destruct (entities w !! e) as [ent|] eqn:He; [now split | now apply H].
Qed.

Section SoftSound.

Context {G : Geometry}.

Lemma firstHit_sound (shapes otherShapes : list Shape.t) (shape : Shape.t) :
  firstHit shapes otherShapes = Some shape ->
  In shape otherShapes /\ exists s, In s shapes /\ shapeCollides s shape = true.
Proof.
  unfold firstHit.
  assert (H : forall l found,
             (forall s, In s l -> In s shapes) ->
             (forall sh, found = Some sh ->
                In sh otherShapes /\ exists s, In s shapes /\ shapeCollides s sh = true) ->
             forall sh,
               fold_left
                 (fun found s =>
                    match found with
                    | Some _ => found
                    | None => find (shapeCollides s) (rev otherShapes)
                    end) l found = Some sh ->
               In sh otherShapes /\ exists s, In s shapes /\ shapeCollides s sh = true).
  { induction l as [|s l IH]; intros found Hl Hfound sh; cbn [fold_left].
    - apply Hfound.
    - apply IH; [intros s' Hs'; apply Hl; now right|].
      intros sh'. destruct found as [sh0|]; [apply Hfound|].
      intros Hfind. apply find_some in Hfind as [Hin Hc].
      split; [now apply in_rev in Hin|]. exists s. split; [apply Hl; now left | exact Hc]. }
  apply H; [intros s Hs; now apply in_rev | discriminate].
Qed.

Variables (S : Type) (E0 : gmap nat Entity.t) (I : S -> World -> Prop) (E : World -> Prop).
Variables (e : nat) (callback : Message.t -> S -> M S).

Hypothesis I_message : forall s w m, I s w -> I s (setTriggerMessage m w).
Hypothesis I_entities : forall s w, I s w -> entities w = E0.
Hypothesis I_throw : forall s w, I s w -> E w.
Hypothesis callback_real :
  forall m s, softReal E0 e m ->
    hoare (fun w => triggerMessage w = m /\ I s w) (callback m s) I E.

Lemma softCheckEntity_sound (collisionType otherCollisionType : string) (otherEntity : nat)
    (s : S) :
  hoare (I s) (softCheckEntity e callback collisionType otherCollisionType otherEntity s) I E.
Proof.
  unfold softCheckEntity.
  eapply hoare_bind; [apply hoare_getEntity_lookup; apply I_throw | intros ent].
  eapply hoare_bind.
  { apply hoare_getEntity_lookup. intros w [Hw _]. now apply (I_throw s). }
  intros other.
  destruct (negb (Nat.eqb otherEntity e)) eqn:Hne; cbn [andb];
    [|apply hoare_ret; now intros w [[Hw _] _]].
  destruct (aabbCollides _ _) eqn:Hboxes; [|apply hoare_ret; now intros w [[Hw _] _]].
  destruct (firstHit _ _) as [shape|] eqn:Hhit; [|apply hoare_ret; now intros w [[Hw _] _]].
  apply firstHit_sound in Hhit as [Hshape Hcollides].
  apply negb_true_iff, Nat.eqb_neq in Hne.
  eapply hoare_bind with
    (I := fun _ w => I s w /\ softReal E0 e (triggerMessage w)).
  { apply hoare_modify. intros w [[Hw He] Ho]. split; [now apply I_message|].
    rewrite (I_entities s w Hw) in He, Ho. cbn [triggerMessage setTriggerMessage].
    exists ent, other, otherEntity, collisionType, otherCollisionType, shape.
    cbn [Message.entity Message.myType Message.type Message.hitType Message.shape].
    repeat split; try assumption; reflexivity. }
  intros _. eapply hoare_bind; [apply hoare_getMessage | intros m].
  intros w [-> [Hw Hreal]]. apply (callback_real (triggerMessage w) s Hreal). now split.
Qed.

Lemma checkEntityForSoftCollisions_sound (s : S) :
  hoare (I s) (checkEntityForSoftCollisions e callback s) I E.
Proof.
  unfold checkEntityForSoftCollisions.
  eapply hoare_bind; [apply hoare_getEntity; apply I_throw | intros ent].
  eapply hoare_bind; [apply hoare_unwrap; apply I_throw | intros types].
  eapply hoare_bind with (I := fun _ => I s).
  { apply hoare_modify. intros w Hw. now apply I_message. }
  intros _. apply (hoare_foldM I). intros collisionType s1.
  eapply hoare_bind; [apply hoare_getEntity; apply I_throw | intros ent1].
  eapply hoare_bind; [apply hoare_unwrap; apply I_throw | intros softCollisionMap].
  eapply hoare_bind; [apply hoare_getEntityAgainstGrid; apply I_throw | intros againstGrid].
  apply (hoare_foldM I). intros otherCollisionType s2.
  destruct (againstGrid !! otherCollisionType) as [otherEntities|];
    [|now apply hoare_ret].
  apply (hoare_foldM I). intros otherEntity s3. apply softCheckEntity_sound.
Qed.

End SoftSound.

Section SoftSoundTheorems.

Context {G : Geometry}.

(** X20: every collision the public method [getEntityCollisions] returns
    for an entity is there: it names another entity, never the entity
    itself, is of hit type ['soft'], and its shape is a shape of the other
    entity that collides with a shape of the entity.  The entities are
    left as they were. *)
Theorem getEntityCollisions_sound (e : nat) (w : World) :
  match getEntityCollisions e w with
  | Ok collisions w' => Forall (softReal (entities w) e) collisions /\ entities w' = entities w
  | Throw _ => True
  end.
Proof.
  pose proof (checkEntityForSoftCollisions_sound (list Message.t) (entities w)
                (fun s w' => Forall (softReal (entities w) e) s /\ entities w' = entities w)
                (fun _ => True) e
                (fun collision collisions => ret (collisions ++ [collision]))) as H.
  unfold getEntityCollisions.
  apply H.
  - intros s w' m Hs. exact Hs.
  - intros s w' [_ Hs]. exact Hs.
  - auto.
  - intros m s Hm. apply hoare_ret. intros w' [_ [Hs He]]. split; [|exact He].
    apply Forall_app. split; [exact Hs|]. constructor; [exact Hm | constructor].
  - split; [constructor | reflexivity].
Qed.

Lemma softTrigger_real (w0 : World) (e : nat) :
  hoare (realEventsSince w0) (checkEntityForSoftCollisions e (softTrigger e) tt)
    (fun _ => realEventsSince w0) (fun _ => True).
Proof.
  apply (checkEntityForSoftCollisions_sound unit (entities w0)
           (fun _ => realEventsSince w0) (fun _ => True) e (softTrigger e)).
  - intros _ w m H. exact H.
  - intros _ w [H _]. exact H.
  - auto.
  - intros m [] Hm. unfold softTrigger, triggerEvent. apply hoare_modify.
    intros w [_ [He (evs & Hev & Hall)]]. split; [exact He|].
    exists (evs ++ [mkEvent e (hitBy (Message.type m)) m]).
    cbn [events setEvents]. split; [rewrite Hev; now rewrite app_assoc|].
    apply Forall_app. split; [exact Hall|]. constructor; [|constructor].
    cbn [ev_target ev_message ev_name]. now split.
Qed.

(** X21: every event the soft pass triggers reports to its target a
    collision that is there, under the name ['hit-by-'] followed by the
    type of the other entity, and no entity is told that it collides with
    itself; the pass leaves the entities as they were. *)
Theorem checkSoftCollisions_sound (w : World) :
  match checkSoftCollisions w with
  | Ok _ w' => realEventsSince w w'
  | Throw _ => True
  end.
Proof.
  assert (H : hoare (fun w' => w' = w) checkSoftCollisions
                (fun _ => realEventsSince w) (fun _ => True)).
  { unfold checkSoftCollisions.
    eapply hoare_bind with (I := fun _ => realEventsSince w).
    { intros w1 ->. split; [reflexivity|]. exists []. split; [now rewrite app_nil_r | constructor]. }
    intros w1. unfold whileDown, forEach.
    apply (hoare_foldM (fun _ => realEventsSince w)). intros e [].
    apply softTrigger_real. }
  exact (H w eq_refl).
Qed.

End SoftSoundTheorems.

(** ** Events of a collision with the terrain *)

Lemma triggerCollisionMessages_alone (a : nat) (thisType thatType : string) (x y : Q)
    (hitType : string) (vector : Vector.t) (w : World) :
  exists m w',
    triggerCollisionMessages (Some a) None thisType thatType x y hitType vector w = Ok tt w'
    /\ events w' = events w ++ [mkEvent a (hitBy (Some thatType)) m]
    /\ triggerMessage w' = m
    /\ entities w' = entities w
    /\ m = Message.mk None (Some thatType) x y (Some hitType) (Some thisType) (Some vector)
             (Message.shape (triggerMessage w)).
Proof. eexists _, _. split; [reflexivity|]. repeat split. Qed.

(** X23: for a record of a solid collision whose other shape has no
    owner, a tile of the terrain, exactly one event is triggered, on the
    owner of the moving shape; its message names no entity, is of hit type
    ['solid'], carries the direction on the axis of the record, and still
    holds in [shape] whatever the shared message held there before, as the
    helper never writes that field. *)
Theorem solid_event_against_terrain (messageData : CollisionData.t)
    (thisShape thatShape : Shape.t) (a : nat) (w : World) :
  CollisionData.thisShape messageData = Some thisShape ->
  CollisionData.thatShape messageData = Some thatShape ->
  Shape.owner thisShape = Some a ->
  Shape.owner thatShape = None ->
  (exists w',
      triggerX messageData w = Ok tt w'
      /\ events w' = events w
           ++ [mkEvent a (hitBy (Some (Shape.collisionType thatShape))) (triggerMessage w')]
      /\ triggerMessage w'
         = Message.mk None (Some (Shape.collisionType thatShape))
             (CollisionData.direction messageData) 0 (Some "solid"%string)
             (Some (Shape.collisionType thisShape)) (Some (CollisionData.vector messageData))
             (Message.shape (triggerMessage w))
      /\ entities w' = entities w)
  /\ (exists w',
      triggerY messageData w = Ok tt w'
      /\ events w' = events w
           ++ [mkEvent a (hitBy (Some (Shape.collisionType thatShape))) (triggerMessage w')]
      /\ triggerMessage w'
         = Message.mk None (Some (Shape.collisionType thatShape))
             0 (CollisionData.direction messageData) (Some "solid"%string)
             (Some (Shape.collisionType thisShape)) (Some (CollisionData.vector messageData))
             (Message.shape (triggerMessage w))
      /\ entities w' = entities w).
Proof.
  intros Hthis Hthat Ha Hb. split.
  - unfold triggerX. unfold bind at 1 2. rewrite Hthis, Hthat. unfold unwrap, ret at 1 2.
    rewrite Ha, Hb.
    destruct (triggerCollisionMessages_alone a (Shape.collisionType thisShape)
                (Shape.collisionType thatShape) (CollisionData.direction messageData) 0
                "solid" (CollisionData.vector messageData) w)
      as (m & w' & Hrun & Hev & Hm & He & Heq).
    exists w'. rewrite Hm. subst m. repeat split; assumption.
  - unfold triggerY. unfold bind at 1 2. rewrite Hthis, Hthat. unfold unwrap, ret at 1 2.
    rewrite Ha, Hb.
    destruct (triggerCollisionMessages_alone a (Shape.collisionType thisShape)
                (Shape.collisionType thatShape) 0 (CollisionData.direction messageData)
                "solid" (CollisionData.vector messageData) w)
      as (m & w' & Hrun & Hev & Hm & He & Heq).
    exists w'. rewrite Hm. subst m. repeat split; assumption.
Qed.

Lemma solid_event_against_terrain_witness :
  let tile := Shape.rect 15 0 5 5 None "tiles" in
  let cd := fst (findMinShapeMovementCollision (G := boxGeometry)
                   (bodyA 0) (bodyA 20) axisX [tile]) in
  exists w',
    triggerX cd freshWorld = Ok tt w'
    /\ events w' = events freshWorld
         ++ [mkEvent 1 (hitBy (Some "tiles"%string)) (triggerMessage w')]
    /\ triggerMessage w'
       = Message.mk None (Some "tiles"%string) (CollisionData.direction cd) 0
           (Some "solid"%string) (Some "a"%string) (Some (CollisionData.vector cd))
           (Message.shape (triggerMessage freshWorld))
    /\ entities w' = entities freshWorld.
Proof.
  intros tile cd.
  exact (proj1 (solid_event_against_terrain cd (bodyA 20) tile 1 freshWorld
                  eq_refl eq_refl eq_refl eq_refl)).
Defined.

(** ** Groups of a single member *)

Section Singletons.

Context {G : Geometry}.

Variables (groupView : nat -> Collidable).

(** X24: [checkGroupCollisions] resolves only groups of more than one
    member: when every live group has at most one, it resolves nothing,
    triggers nothing and leaves the world as it was, whatever the fuel. *)
Theorem checkGroupCollisions_skips_singletons (fuel : nat) (w : World) :
  (forall e, In e (groupsLive w) -> exists n, groupSize w e = Some n /\ (n <= 1)%nat) ->
  checkGroupCollisions groupView fuel w = Ok true w.
Proof.
  intros Hsmall. unfold checkGroupCollisions, get. unfold bind at 1.
  assert (H : forall l, (forall e, In e l -> In e (groupsLive w)) ->
                        foldM (groupTurn groupView fuel) l true w = Ok true w).
  { induction l as [|e l IH]; intros Hl; [reflexivity|].
    cbn [foldM]. unfold bind at 1.
    destruct (Hsmall e) as (n & Hn & Hle); [apply Hl; now left|].
    assert (Hturn : groupTurn groupView fuel e true w = Ok true w).
    { unfold groupTurn, get. unfold bind at 1 2. rewrite Hn. unfold unwrap, ret at 1.
      destruct (Nat.ltb_spec 1 n) as [Hlt|_]; [lia | reflexivity]. }
    rewrite Hturn. apply IH. intros e' He'. apply Hl. now right. }
  apply H. intros e He. now apply in_rev.
Qed.

End Singletons.

(** A world whose only group consists of its owner. *)
Lemma checkGroupCollisions_skips_singletons_witness :
  let w := setLive [] [] [] [] [1%nat]
             (setEntities {[ 1%nat := groupOwner (MkGroup [Self]) ]} groupWorld) in
  checkGroupCollisions (G := boxGeometry)
    (fun e => basicView e (fun _ _ w => w) (fun _ w => w) (fun _ _ w => w)) 0 w
  = Ok true w.
Proof.
  intros w.
  apply (checkGroupCollisions_skips_singletons (G := boxGeometry)
           (fun e => basicView e (fun _ _ w => w) (fun _ w => w) (fun _ _ w => w)) 0 w).
  intros e [<-|[]]. exists 1%nat. split; [reflexivity | lia].
Defined.

(** ** A body with nothing around it *)

Section Alone.

Context {G : Geometry}.

Lemma getAgainstGrid_unpopulated (e : nat) (sweep : AABB.t) (types : list string) (w : World) :
  registered e w -> unpopulated (againstGrid w) ->
  getAgainstGrid e sweep types w = Ok ∅ w.
Proof.
  intros (ent & ts & box & ag & He & Ht & Hb & Hag & Hkeys) Hgrid.
  rewrite getAgainstGrid_unfold, He, Hb.
  destruct (AABB_equals sweep box).
  - rewrite getEntityAgainstGrid_unfold, He, Hag.
    apply foldM_cells_unpopulated; [|exact Hgrid].
    intros key Hkey. apply Hkeys. now apply in_rev.
  - now rewrite fold_cells_unpopulated.
Qed.

Lemma gatherType_nothing (ent : nat) (previousAABB sweepAABB : AABB.t)
    (ignoredEntities : option (list nat)) (l : list string) (acc : list Shape.t * bool)
    (w : World) :
  terrain w = None ->
  foldM (gatherType ent previousAABB sweepAABB ignoredEntities ∅) l acc w = Ok acc w.
Proof.
  intros Ht. induction l as [|type l IH]; [reflexivity|].
  cbn [foldM]. unfold bind at 1. unfold gatherType at 1. rewrite lookup_empty.
  unfold bind at 1, get at 1. rewrite Ht. unfold ret at 1. exact IH.
Qed.

(** X25: for a registered body in a world whose grid holds no entity and
    that has no terrain, [processCollisionStep] finds no candidate: it
    returns the collection of records and the movement it was given and
    leaves the world as it was. *)
Theorem processCollisionStep_alone (ent : nat) (entityOrGroup : Collidable)
    (ignoredEntities : option (list nat))
    (collisionDataCollection : CollisionDataContainer.t) (finalMovementInfo : Q * Q)
    (entityDeltaX entityDeltaY : Q) (collisionTypes : list string) (w : World) :
  registered ent w ->
  unpopulated (againstGrid w) ->
  terrain w = None ->
  (forall collisionType, In collisionType collisionTypes ->
     is_Some (getSolidCollisions entityOrGroup w collisionType)) ->
  processCollisionStep ent entityOrGroup ignoredEntities collisionDataCollection
    finalMovementInfo entityDeltaX entityDeltaY collisionTypes w
  = Ok (collisionDataCollection, finalMovementInfo) w.
Proof.
  intros Hreg Hgrid Hterrain Hmaps.
  unfold processCollisionStep, gatherShapes. unfold bind at 1.
  match goal with
  | |- context [foldM ?f (rev collisionTypes) ([], false) w] => set (step := f)
  end.
  assert (Hgather : forall l acc,
             (forall collisionType, In collisionType l -> In collisionType collisionTypes) ->
             exists groups, foldM step l (acc, false) w = Ok (groups, false) w).
  { induction l as [|collisionType l IH]; intros acc Hl; [now exists acc|].
    destruct (Hmaps collisionType) as [collisionSubTypes Hsub]; [apply Hl; now left|].
    destruct (IH ([] :: acc)) as (groups & Hrun); [intros t Ht; apply Hl; now right|].
    exists groups. cbn [foldM]. unfold bind at 1.
    assert (Hstep : step collisionType (acc, false) w = Ok ([] :: acc, false) w).
    { subst step. cbv beta zeta. unfold bind at 1, get at 1. unfold bind at 1. rewrite Hsub.
      unfold unwrap, ret at 1. unfold bind at 1.
      rewrite getAgainstGrid_unpopulated by assumption.
      unfold bind at 1. rewrite gatherType_nothing by exact Hterrain. reflexivity. }
    rewrite Hstep. exact Hrun. }
  destruct (Hgather (rev collisionTypes) []) as (groups & Hrun).
  { intros t Ht. now apply in_rev. }
  rewrite Hrun. reflexivity.
Qed.

End Alone.

Lemma processCollisionStep_alone_witness :
  processCollisionStep (G := boxGeometry) 1
    (basicView 1 (fun _ _ w => w) (fun _ w => w) (fun _ _ w => w)) None
    CollisionDataContainer.setUp (150, 5) 10 0 ["a"%string] vacatedWorld
  = Ok (CollisionDataContainer.setUp, (150, 5)) vacatedWorld.
Proof.
  apply (processCollisionStep_alone (G := boxGeometry) 1
           (basicView 1 (fun _ _ w => w) (fun _ w => w) (fun _ _ w => w)) None
           CollisionDataContainer.setUp (150, 5) 10 0 ["a"%string] vacatedWorld
           registered_vacatedWorld unpopulated_vacatedWorld eq_refl).
  intros collisionType [<-|[]]. eexists. reflexivity.
Defined.

(** ** The collision types of a group *)

Lemma appendUniqueItems_fold (hostArray added insertArray : list string) :
  fold_left
    (fun host item =>
       if existsb (String.eqb item) (firstn (length hostArray) host) then host
       else host ++ [item])
    insertArray (hostArray ++ added)
  = hostArray ++ added
    ++ List.filter (fun item => negb (existsb (String.eqb item) hostArray)) insertArray.
Proof.
  revert added. induction insertArray as [|item l IH]; intros added; cbn [fold_left List.filter].
  - now rewrite app_nil_r.
  - rewrite firstn_app, firstn_all, Nat.sub_diag, firstn_0, app_nil_r.
    destruct (existsb (String.eqb item) hostArray); cbn [negb].
    + apply IH.
    + rewrite <- app_assoc. rewrite IH. now rewrite <- app_assoc.
Qed.

(** The closed form of [appendUniqueItems]. *)
Lemma appendUniqueItems_filter (hostArray insertArray : list string) :
  appendUniqueItems hostArray insertArray
  = hostArray ++ List.filter (fun item => negb (existsb (String.eqb item) hostArray)) insertArray.
Proof.
  unfold appendUniqueItems. cbv zeta.
  pose proof (appendUniqueItems_fold hostArray [] insertArray) as H.
  rewrite app_nil_r in H. exact H.
Qed.

Lemma existsb_eqb_In (item : string) (l : list string) :
  existsb (String.eqb item) l = true <-> In item l.
Proof.
  rewrite existsb_exists. split.
  - intros (x & Hx & Heq). apply String.eqb_eq in Heq. now subst.
  - intros H. exists item. split; [exact H | apply String.eqb_refl].
Qed.

Lemma in_appendUniqueItems (hostArray insertArray : list string) (x : string) :
  In x (appendUniqueItems hostArray insertArray) <-> In x hostArray \/ In x insertArray.
Proof.
  rewrite appendUniqueItems_filter, in_app_iff, filter_In, negb_true_iff.
  destruct (existsb (String.eqb x) hostArray) eqn:Hex.
  - apply existsb_eqb_In in Hex. split; [tauto|]. intros _. now left.
  - tauto.
Qed.

Lemma NoDup_appendUniqueItems (hostArray insertArray : list string) :
  List.NoDup hostArray -> List.NoDup insertArray ->
  List.NoDup (appendUniqueItems hostArray insertArray).
Proof.
  intros Hh Hi. rewrite appendUniqueItems_filter.
  apply List.NoDup_app; [exact Hh | now apply List.NoDup_filter|].
  intros x Hx Hf. apply filter_In in Hf as [_ Hf].
  apply negb_true_iff in Hf. apply existsb_eqb_In in Hx. congruence.
Qed.

(** X26: [appendUniqueItems] keeps the host array as a prefix and adds
    the items of the insert array that the host array did not hold, in
    their order; the result holds what either array held, and has no
    repeated item when neither array had one. *)
Theorem appendUniqueItems_unique (hostArray insertArray : list string) :
  List.NoDup hostArray -> List.NoDup insertArray ->
  List.NoDup (appendUniqueItems hostArray insertArray)
  /\ firstn (length hostArray) (appendUniqueItems hostArray insertArray) = hostArray
  /\ forall x, In x (appendUniqueItems hostArray insertArray)
               <-> In x hostArray \/ In x insertArray.
Proof.
  intros Hh Hi. split; [now apply NoDup_appendUniqueItems|]. split.
  - rewrite appendUniqueItems_filter, firstn_app, firstn_all, Nat.sub_diag, firstn_0.
    apply app_nil_r.
  - apply in_appendUniqueItems.
Qed.

Lemma appendUniqueItems_unique_witness :
  List.NoDup (appendUniqueItems ["a"; "b"]%string ["b"; "c"]%string)
  /\ appendUniqueItems ["a"; "b"]%string ["b"; "c"]%string = ["a"; "b"; "c"]%string.
Proof.
  split; [|reflexivity].
  apply (appendUniqueItems_unique ["a"; "b"]%string ["b"; "c"]%string).
  - repeat constructor; cbn [In]; intuition discriminate.
  - repeat constructor; cbn [In]; intuition discriminate.
Defined.

(** An item that the insert array repeats is added as often as it is
    there: only the items the host array had at the call are compared. *)
Example appendUniqueItems_repeats :
  appendUniqueItems [] ["a"; "a"]%string = ["a"; "a"]%string.
Proof. reflexivity. Qed.

(** Induction on a group: its nested groups first. *)
Lemma Group_induction (P : Group -> Prop) :
  (forall l, (forall e g, In (Nested e g) l -> P g) -> P (MkGroup l)) ->
  forall g, P g.
Proof.
  intros HP. fix IH 1. intros [l]. apply HP.
  induction l as [|m l IHl]; intros e g Hin; [destruct Hin|].
  destruct m as [|e'|e' g'].
  - destruct Hin as [Heq|Hin]; [discriminate | exact (IHl e g Hin)].
  - destruct Hin as [Heq|Hin]; [discriminate | exact (IHl e g Hin)].
  - destruct Hin as [Heq|Hin]; [|exact (IHl e g Hin)].
    injection Heq as _ <-. apply IH.
Qed.

Lemma compile_types (types : nat -> list string) (owner : nat) (l : list GroupMember) :
  (forall e g, In (Nested e g) l ->
     List.NoDup (groupCollisionTypes types e g)
     /\ forall t, In t (groupCollisionTypes types e g)
                  <-> exists x, In x (groupLeaves e g) /\ In t (types x)) ->
  (forall e, List.NoDup (types e)) ->
  forall compiledList,
    List.NoDup compiledList ->
    let result :=
      (fix compile (l : list GroupMember) (compiledList : list string) : list string :=
         match l with
         | [] => compiledList
         | Self :: l' => compile l' (appendUniqueItems compiledList (types owner))
         | Plain e :: l' => compile l' (appendUniqueItems compiledList (types e))
         | Nested e g' :: l' =>
             compile l' (appendUniqueItems compiledList (groupCollisionTypes types e g'))
         end) l compiledList in
    let leaves :=
      (fix leaves (l : list GroupMember) : list nat :=
         match l with
         | [] => []
         | Self :: l' => owner :: leaves l'
         | Plain e :: l' => e :: leaves l'
         | Nested e g' :: l' => groupLeaves e g' ++ leaves l'
         end) l in
    List.NoDup result
    /\ forall t, In t result <-> In t compiledList \/ exists x, In x leaves /\ In t (types x).
Proof.
  intros Hnested Htypes. induction l as [|m l IHl]; intros compiledList Hc; cbv zeta.
  - split; [exact Hc|]. intros t. split; [tauto|]. intros [H|(x & [] & _)]. exact H.
  - assert (Hl : forall e g, In (Nested e g) l ->
                   List.NoDup (groupCollisionTypes types e g)
                   /\ forall t, In t (groupCollisionTypes types e g)
                                <-> exists x, In x (groupLeaves e g) /\ In t (types x)).
    { intros e g Hin. apply Hnested. now right. }
    specialize (IHl Hl). cbv zeta in IHl.
    destruct m as [|e|e g].
    + destruct (IHl (appendUniqueItems compiledList (types owner))) as [Hnd Hin].
      { now apply NoDup_appendUniqueItems. }
      split; [exact Hnd|]. intros t. rewrite Hin, in_appendUniqueItems. split.
      * intros [[H|H]|(x & Hx & Ht)]; [tauto| |].
        -- right. exists owner. split; [now left | exact H].
        -- right. exists x. split; [now right | exact Ht].
      * intros [H|(x & [<-|Hx] & Ht)]; [tauto|tauto|]. right. now exists x.
    + destruct (IHl (appendUniqueItems compiledList (types e))) as [Hnd Hin].
      { now apply NoDup_appendUniqueItems. }
      split; [exact Hnd|]. intros t. rewrite Hin, in_appendUniqueItems. split.
      * intros [[H|H]|(x & Hx & Ht)]; [tauto| |].
        -- right. exists e. split; [now left | exact H].
        -- right. exists x. split; [now right | exact Ht].
      * intros [H|(x & [<-|Hx] & Ht)]; [tauto|tauto|]. right. now exists x.
    + destruct (Hnested e g (or_introl eq_refl)) as [Hg Hgin].
      destruct (IHl (appendUniqueItems compiledList (groupCollisionTypes types e g)))
        as [Hnd Hin].
      { now apply NoDup_appendUniqueItems. }
      split; [exact Hnd|]. intros t. rewrite Hin, in_appendUniqueItems, Hgin. split.
      * intros [[H|(x & Hx & Ht)]|(x & Hx & Ht)]; [tauto| |].
        -- right. exists x. split; [apply in_or_app; now left | exact Ht].
        -- right. exists x. split; [apply in_or_app; now right | exact Ht].
      * intros [H|(x & Hx & Ht)]; [tauto|]. apply in_app_or in Hx as [Hx|Hx].
        -- left. right. now exists x.
        -- right. now exists x.
Qed.

(** The number [getAllEntities] answers is the number of the entities
    the group consists of. *)
Lemma getAllEntities_leaves (owner : nat) (g : Group) :
  getAllEntities g = length (groupLeaves owner g).
Proof.
  revert owner. induction g as [l IH] using Group_induction. intros owner.
  cbn [getAllEntities groupLeaves].
  induction l as [|m l IHl]; [reflexivity|].
  assert (IH' : forall e g, In (Nested e g) l ->
                  forall owner, getAllEntities g = length (groupLeaves owner g))
    by (intros e g Hin; apply (IH e g); now right).
  specialize (IHl IH').
  destruct m as [|e|e g].
  - cbn [length]. f_equal. exact IHl.
  - cbn [length]. f_equal. exact IHl.
  - rewrite length_app. rewrite <- (IH e g (or_introl eq_refl) e). f_equal. exact IHl.
Qed.

(** X27: when no entity lists a collision type twice, the list
    [getCollisionTypes] of a group compiles holds no type twice, and
    holds exactly the types of the entities the group consists of, the
    members of nested groups included: the entities [getAllEntities]
    counts. *)
Theorem groupCollisionTypes_compiles (types : nat -> list string) (owner : nat) (g : Group) :
  (forall e, List.NoDup (types e)) ->
  List.NoDup (groupCollisionTypes types owner g)
  /\ (forall t, In t (groupCollisionTypes types owner g)
                <-> exists e, In e (groupLeaves owner g) /\ In t (types e))
  /\ length (groupLeaves owner g) = getAllEntities g.
Proof.
  intros Htypes.
  assert (Hspec : forall owner,
             List.NoDup (groupCollisionTypes types owner g)
             /\ forall t, In t (groupCollisionTypes types owner g)
                          <-> exists e, In e (groupLeaves owner g) /\ In t (types e)).
  { induction g as [l IH] using Group_induction. intros owner'.
    destruct (compile_types types owner' l (fun e g Hin => IH e g Hin e) Htypes []
                (List.NoDup_nil _)) as [Hnd Hin].
    split; [exact Hnd|]. intros t. cbn [groupCollisionTypes groupLeaves].
    rewrite Hin. cbn [In]. tauto. }
  destruct (Hspec owner) as [Hnd Hin].
  split; [exact Hnd|]. split; [exact Hin|]. symmetry. apply getAllEntities_leaves.
Qed.

Lemma groupCollisionTypes_compiles_witness :
  let types := fun e : nat => if Nat.eqb e 7 then ["a"; "b"]%string else ["b"; "c"]%string in
  let g := MkGroup [Self; Nested 1 (MkGroup [Self; Plain 7]); Plain 8] in
  List.NoDup (groupCollisionTypes types 2 g)
  /\ groupCollisionTypes types 2 g = ["b"; "c"; "a"]%string
  /\ groupLeaves 2 g = [2; 1; 7; 8]%nat.
Proof.
  intros types g. split; [|split; reflexivity].
  apply (groupCollisionTypes_compiles types 2 g).
  intros e. unfold types. destruct (Nat.eqb e 7);
    repeat constructor; cbn [In]; intuition discriminate.
Defined.

(** ** The shortcut of [getAgainstGrid] *)

(** X28: when the swept box equals the box recorded for the entity,
    which holds cell indices, [getAgainstGrid] answers from the cells the
    entity holds, whatever cells lie under the swept box. *)
Theorem getAgainstGrid_shortcut (e : nat) (sweep : AABB.t) (types : list string) (w : World)
    (ent : Entity.t) (box : AABB.t) (ag : list Z) :
  entities w !! e = Some ent ->
  Entity.againstAABB ent = Some box ->
  Entity.againstGrid ent = Some ag ->
  (forall key, In key ag -> is_Some (againstGrid w !! key)) ->
  AABB_equals sweep box = true ->
  exists data,
    getAgainstGrid e sweep types w = Ok data w
    /\ forall x t, listed x t data <-> In t types /\ heldIn x t ag w.
Proof.
  intros He Hbox Hag Hcells Heq.
  destruct (foldM_cells_listed types w (rev ag) ∅) as (data & Hrun & Hdata).
  { intros key Hkey. apply Hcells. now apply in_rev. }
  exists data. split.
  - rewrite getAgainstGrid_unfold, He, Hbox, Heq.
    now rewrite getEntityAgainstGrid_unfold, He, Hag.
  - intros x t. rewrite Hdata, heldIn_rev. pose proof (listed_empty x t). tauto.
Qed.

Lemma farWorld_entity :
  exists ent,
    entities farWorld !! 1%nat = Some ent
    /\ Entity.againstAABB ent = Some (Cells.toAABB (Cells.mk 5 (-1) 5 0))
    /\ Entity.againstGrid ent = Some [cellKey 5 (-1); cellKey 5 0].
Proof. eexists. split; [vm_compute; reflexivity|]. split; reflexivity. Qed.

Lemma getAgainstGrid_shortcut_witness :
  exists data,
    getAgainstGrid 1 (AABB.setBounds 5 (-1) 5 0) ["b"%string] farWorld = Ok data farWorld
    /\ forall x t,
         listed x t data
         <-> In t ["b"%string] /\ heldIn x t [cellKey 5 (-1); cellKey 5 0] farWorld.
Proof.
  destruct farWorld_entity as (ent & He & Hbox & Hag).
  apply (getAgainstGrid_shortcut 1 (AABB.setBounds 5 (-1) 5 0) ["b"%string] farWorld ent
           (Cells.toAABB (Cells.mk 5 (-1) 5 0)) [cellKey 5 (-1); cellKey 5 0] He Hbox Hag).
  - intros key [<-|[<-|[]]]; vm_compute; eexists; reflexivity.
  - reflexivity.
Defined.

(** In [farWorld] the box [5, 5] x [-1, 0] lies over the cells of entity
    2, and equals the box of cell indices recorded for entity 1: the
    query for it answers from the cells of entity 1 and does not list
    entity 2, which a query for the box [5, 6] x [-1, 0] lists. *)
Example getAgainstGrid_shortcut_misses :
  getAgainstGrid 1 (AABB.setBounds 5 (-1) 5 0) ["b"%string] farWorld = Ok ∅ farWorld
  /\ getAgainstGrid 1 (AABB.setBounds 5 (-1) 6 0) ["b"%string] farWorld
     = Ok {[ "b"%string := [2%nat] ]} farWorld.
Proof. split; vm_compute; reflexivity. Qed.

(** X29: for a swept box that is not the one recorded for the entity,
    every tracked entity that holds a cell under the swept box and has
    one of the requested types is listed by [getAgainstGrid] under that
    type: the candidates of a sweep miss no indexed entity. *)
Theorem getAgainstGrid_lists_tracked (e e' : nat) (sweep : AABB.t) (types : list string)
    (w : World) (ent ent' : Entity.t) (box : AABB.t) (ag' : list Z) (types' : list string)
    (key : Z) (t : string) :
  entities w !! e = Some ent ->
  Entity.againstAABB ent = Some box ->
  AABB_equals sweep box = false ->
  tracked e' w ->
  entities w !! e' = Some ent' ->
  Entity.againstGrid ent' = Some ag' ->
  Entity.collisionTypes ent' = Some types' ->
  In key (keysOf (gridBits w) sweep) -> In key ag' ->
  In t types' -> In t types ->
  exists data,
    getAgainstGrid e sweep types w = Ok data w /\ listed e' t data.
Proof.
  intros He Hbox Hne Ht' He' Hag' Htypes' Hk Hk' Htt' Htt.
  destruct (tracked_unfold e' w ent' Ht' He')
    as (ts & box' & ag0 & Hts & _ & Hag0 & _ & Hocc).
  rewrite Hag' in Hag0. injection Hag0 as <-. rewrite Htypes' in Hts. injection Hts as <-.
  eexists. split.
  - rewrite getAgainstGrid_unfold, He, Hbox, Hne. reflexivity.
  - apply fold_cells_listed. right. split; [exact Htt|]. exists key. split; [exact Hk|].
    rewrite Hocc.
    apply (count_occ_In Z.eq_dec) in Hk'. apply (count_occ_In string_dec) in Htt'. nia.
Qed.

Lemma getAgainstGrid_lists_tracked_witness :
  exists data,
    getAgainstGrid 1 (AABB.setBounds 256 0 700 10) ["a"%string] indexedWorld
    = Ok data indexedWorld
    /\ listed 1 "a" data.
Proof.
  refine (getAgainstGrid_lists_tracked 1 1 (AABB.setBounds 256 0 700 10) ["a"%string]
            indexedWorld indexedEntity indexedEntity (Cells.toAABB (Cells.mk 0 0 1 0))
            [0; 1]%Z ["a"%string] 1%Z "a"%string
            indexedWorld_entity indexedEntity_box eq_refl tracked_indexedWorld
            indexedWorld_entity indexedEntity_cells eq_refl _ _ _ _).
  - vm_compute. tauto.
  - cbn [In]. tauto.
  - cbn [In]. tauto.
  - cbn [In]. tauto.
Defined.
